(** * RAP-MUSIC source localisation ([mne/beamformer/_rap_music.py])

    A shallow embedding of [_compute_subcorr], [_compute_proj],
    [_apply_rap_music] and [rap_music], and the properties of the greedy
    subspace-correlation search that the specification states about them.

    Arithmetic is exact: array entries are canonical rationals ([Qc]; every
    finite binary64 value is one), so rounding is not modelled.  What numpy
    does outside the finite numbers is modelled where the code can reach it:
    a division by zero yields [nan] or an infinity, and every comparison
    with [nan] is false.  The routines of numpy/scipy that are not
    arithmetic ([np.sqrt], [np.linalg.qr], [linalg.eigh], [linalg.pinv],
    [linalg.lstsq]) are fields of a record [numlib]; theorems state the part
    of their documented contract that they use.  The eigenvalues and
    eigenvectors that the three-column branch of [_compute_subcorr] returns
    are seldom rational: what that branch returns is stated on a second
    embedding of the function over the real numbers, [OverReals]. *)

From Stdlib Require Import List ZArith QArith Qcanon Reals Lia Lra Bool Arith.
From Stdlib Require Import Permutation Sorted Field Psatz.
Import ListNotations.

Set Implicit Arguments.

(* ================================================================= *)
(** ** Scalars *)

Local Open Scope Qc_scope.

Definition Qc_eqb (x y : Qc) : bool := Qeq_bool x y.
Definition Qc_ltb (x y : Qc) : bool := negb (Qle_bool y x).
Definition Qc_leb (x y : Qc) : bool := Qle_bool x y.

(** Integer literals as array entries. *)
Definition qz (z : Z) : Qc := Q2Qc (inject_Z z).

(** A numpy float64 scalar: a finite value, an infinity or nan. *)
Inductive npfloat : Type :=
| Fin (x : Qc)
| PInf
| NInf
| NaN.

(** [x / y] on float64 arrays: no exception, a warning at most.  For a
    divisor that is not zero the quotient is the exact one; where binary64
    overflows or underflows in the operands, the code has an infinity, zero
    or [nan] instead, which is not modelled. *)
Definition np_divide (x y : Qc) : npfloat :=
  if Qc_eqb y 0 then
    if Qc_eqb x 0 then NaN else if Qc_ltb 0 x then PInf else NInf
  else Fin (x / y).

(** [np.sqrt]; [root] is the library's root of a finite non-negative value. *)
Definition np_sqrt (root : Qc -> Qc) (v : npfloat) : npfloat :=
  match v with
  | Fin x => if Qc_ltb x 0 then NaN else Fin (root x)
  | PInf => PInf
  | NInf => NaN
  | NaN => NaN
  end.

(** [a > b]: false as soon as one side is nan. *)
Definition np_gt (a b : npfloat) : bool :=
  match a, b with
  | NaN, _ | _, NaN => false
  | Fin x, Fin y => Qc_ltb y x
  | PInf, PInf => false
  | PInf, _ => true
  | _, PInf => false
  | NInf, _ => false
  | Fin _, NInf => true
  end.

(* ================================================================= *)
(** ** Exceptions *)

Inductive exn : Type :=
| ValueError          (* shapes that do not fit *)
| IndexError          (* an index out of bounds *)
| UnboundLocalError.  (* a local variable read before assignment *)

Inductive result (A : Type) : Type :=
| Ok (a : A)
| Raise (e : exn).

Arguments Ok {A} a.
Arguments Raise {A} e.

Definition bind {A B : Type} (m : result A) (f : A -> result B) : result B :=
  match m with
  | Ok a => f a
  | Raise e => Raise e
  end.

Notation "x <- m ;; k" := (bind m (fun x => k))
  (at level 61, m at next level, right associativity).
Notation "' p <- m ;; k" := (bind m (fun x => let p := x in k))
  (at level 61, p pattern, m at next level, right associativity).

(** A [for] loop whose body may raise. *)
Fixpoint for_each {S I : Type} (body : S -> I -> result S)
         (items : list I) (s : S) : result S :=
  match items with
  | [] => Ok s
  | i :: rest => s' <- body s i ;; for_each body rest s'
  end.

(* ================================================================= *)
(** ** Arrays *)

(** A 1-D array and a 2-D array (the list of its rows). *)
Definition vector := list Qc.
Definition matrix := list (list Qc).

(** [M.shape[0]] and [M.shape[1]] (an array without rows is given no
    columns). *)
Definition shape0 (M : matrix) : nat := length M.
Definition shape1 (M : matrix) : nat := length (hd [] M).
Definition entry (M : matrix) (i j : nat) : Qc := nth j (nth i M []) 0.

(** The array with [m] rows and [n] columns whose entry [(i, j)] is [f i j]. *)
Definition tabulate (m n : nat) (f : nat -> nat -> Qc) : matrix :=
  map (fun i => map (f i) (seq 0 n)) (seq 0 m).

(** [M] is an [m] by [n] array. *)
Definition rect (m n : nat) (M : matrix) : Prop :=
  length M = m /\ Forall (fun row => length row = n) M.

Fixpoint sum_upto (n : nat) (f : nat -> Qc) : Qc :=
  match n with
  | O => 0
  | S k => sum_upto k f + f k
  end.

(** [M.T.conjugate()] on a real array. *)
Definition transpose (M : matrix) : matrix :=
  tabulate (shape1 M) (shape0 M) (fun i j => entry M j i).

Definition matmul (A B : matrix) : matrix :=
  tabulate (shape0 A) (shape1 B)
           (fun i j => sum_upto (shape1 A) (fun k => entry A i k * entry B k j)).

(** [np.dot] of two 2-D arrays. *)
Definition np_dot (A B : matrix) : result matrix :=
  if (shape1 A =? shape0 B)%nat then Ok (matmul A B) else Raise ValueError.

Definition matvec (A : matrix) (v : vector) : vector :=
  map (fun row => sum_upto (length v) (fun k => nth k row 0 * nth k v 0)) A.

(** [np.dot] of a 2-D array and a 1-D array. *)
Definition np_dot_vec (A : matrix) (v : vector) : result vector :=
  if (shape1 A =? length v)%nat then Ok (matvec A v) else Raise ValueError.

(** [np.identity(n)] *)
Definition identity (n : nat) : matrix :=
  tabulate n n (fun i j => if (i =? j)%nat then 1 else 0).

(** [np.zeros((m, n))] *)
Definition zeros (m n : nat) : matrix := repeat (repeat 0 n) m.

Definition msub (A B : matrix) : matrix :=
  tabulate (shape0 A) (shape1 A) (fun i j => entry A i j - entry B i j).

(** [A - B] on arrays of one shape (the code never broadcasts). *)
Definition np_subtract (A B : matrix) : result matrix :=
  if ((shape0 A =? shape0 B) && (shape1 A =? shape1 B))%nat
  then Ok (msub A B) else Raise ValueError.

(** [M[:, lo:hi]] for non-negative [lo <= hi]; a slice never raises. *)
Definition cols (lo hi : nat) (M : matrix) : matrix :=
  map (fun row => firstn (hi - lo) (skipn lo row)) M.

(** [M[:, start::step]] *)
Fixpoint every_nth (fuel start step : nat) (row : list Qc) : list Qc :=
  match fuel with
  | O => []
  | S fuel' =>
    match skipn start row with
    | [] => []
    | x :: _ => x :: every_nth fuel' (start + step) step row
    end
  end.

Definition strided_cols (start step : nat) (M : matrix) : matrix :=
  map (fun row => every_nth (length row) start step row) M.

(** [M[:, -r:]]: the last [r] columns; all of them when [r] is at least the
    number of columns, and also when [r = 0], since [-0] is [0]. *)
Definition last_cols (r : nat) (M : matrix) : matrix :=
  map (fun row => skipn (if (r =? 0)%nat then 0 else length row - r) row) M.

(** [M[:, :k]] *)
Definition first_cols (k : nat) (M : matrix) : matrix := map (firstn k) M.

Fixpoint set_nth {T : Type} (k : nat) (x : T) (l : list T) : list T :=
  match l, k with
  | [], _ => []
  | _ :: tl, O => x :: tl
  | y :: tl, S k' => y :: set_nth k' x tl
  end.

(** [M[:, k] = v], for a [v] with one entry per row of [M] (numpy would
    also broadcast a [v] of one entry; the code assigns no such value). *)
Definition put_col (k : nat) (v : vector) (M : matrix) : matrix :=
  map (fun rx => set_nth k (snd rx) (fst rx)) (combine M v).

Definition set_col (k : nat) (v : vector) (M : matrix) : result matrix :=
  if negb (k <? shape1 M)%nat then Raise IndexError
  else if negb (length v =? shape0 M)%nat then Raise ValueError
  else Ok (put_col k v M).

(** [v[-1]] *)
Definition last_item (v : vector) : result Qc :=
  match rev v with
  | [] => Raise IndexError
  | x :: _ => Ok x
  end.

(** [M[:, -1]] *)
Definition last_col (M : matrix) : result vector :=
  if (shape1 M =? 0)%nat then Raise IndexError
  else Ok (map (fun row => last row 0) M).

(** An integer index into an axis of length [n]: negative indices count
    from the end. *)
Definition norm_index (n : nat) (i : Z) : result nat :=
  if ((0 <=? i) && (i <? Z.of_nat n))%Z then Ok (Z.to_nat i)
  else if ((- Z.of_nat n <=? i) && (i <? 0))%Z then Ok (Z.to_nat (i + Z.of_nat n))
  else Raise IndexError.

Fixpoint map_result {A B : Type} (f : A -> result B) (l : list A)
  : result (list B) :=
  match l with
  | [] => Ok []
  | a :: tl => b <- f a ;; bs <- map_result f tl ;; Ok (b :: bs)
  end.

(** [v[idx]] with an integer array [idx]. *)
Definition take {T : Type} (d : T) (v : list T) (idx : list Z) : result (list T) :=
  map_result (fun i => n <- norm_index (length v) i ;; Ok (nth n v d)) idx.

(** [M[:, idx]] with an integer array [idx]. *)
Definition take_cols (M : matrix) (idx : list Z) : result matrix :=
  ns <- map_result (norm_index (shape1 M)) idx ;;
  Ok (map (fun row => map (fun n => nth n row 0) ns) M).

(** In-place [a -= b]: [b] is broadcast along an axis where it has size 1. *)
Definition np_isub (a b : matrix) : result matrix :=
  let fits (p m : nat) := ((p =? m) || (p =? 1))%nat in
  if fits (shape0 b) (shape0 a) && fits (shape1 b) (shape1 a) then
    Ok (tabulate (shape0 a) (shape1 a)
          (fun i j => entry a i j
                      - entry b (if (shape0 b =? shape0 a)%nat then i else 0%nat)
                                (if (shape1 b =? shape1 a)%nat then j else 0%nat)))
  else Raise ValueError.

(** [np.sort] of an integer array. *)
Fixpoint insert_sorted (x : Z) (l : list Z) : list Z :=
  match l with
  | [] => [x]
  | y :: tl => if (x <=? y)%Z then x :: l else y :: insert_sorted x tl
  end.

Definition np_sort (l : list Z) : list Z := fold_right insert_sorted [] l.

(* ================================================================= *)
(** ** The numerical library *)

(** The routines of numpy and scipy the module calls that are not plain
    arithmetic.  [lib_qr] is the first component of
    [np.linalg.qr(G, mode='reduced')]. *)
Record numlib : Type := {
  lib_sqrt : Qc -> Qc;
  lib_qr : matrix -> matrix;
  lib_eigh : matrix -> vector * matrix;
  lib_pinv : matrix -> matrix;
  lib_lstsq : matrix -> matrix -> matrix
}.

(* ================================================================= *)
(** ** The module *)

(** [_compute_subcorr(G, phi_sig)].  In the one-column branch the
    correlation is a 1 by 1 array; it is returned as its entry. *)
Definition _compute_subcorr (lib : numlib) (G phi_sig : matrix)
  : result (npfloat * vector) :=
  if (shape1 G =? 1)%nat then
    let Gh := transpose G in
    let phi_sigh := transpose phi_sig in
    l <- np_dot Gh phi_sig ;;
    r <- np_dot phi_sigh G ;;
    subcorr <- np_dot l r ;;
    den <- np_dot Gh G ;;
    Ok (np_sqrt (lib_sqrt lib) (np_divide (entry subcorr 0 0) (entry den 0 0)),
        [1])
  else
    let Ug := lib_qr lib G in
    let Ugh := transpose Ug in
    let phi_sigh := transpose phi_sig in
    l <- np_dot Ugh phi_sig ;;
    r <- np_dot phi_sigh Ug ;;
    subcorr <- np_dot l r ;;
    let '(eig_vals, eig_vecs) := lib_eigh lib subcorr in
    top <- last_item eig_vals ;;
    ori <- last_col eig_vecs ;;
    Ok (np_sqrt (lib_sqrt lib) (Fin top), ori).

(** [_compute_proj(A)] *)
Definition _compute_proj (lib : numlib) (A : matrix) : result matrix :=
  let Ah := transpose A in
  let I := identity (shape0 A) in
  gram <- np_dot Ah A ;;
  l <- np_dot A (lib_pinv lib gram) ;;
  p <- np_dot l Ah ;;
  np_subtract I p.

(** [G[:, n_orient * i_source : n_orient * i_source + n_orient]]: the
    columns of candidate [i_source]. *)
Definition block (n_orient : nat) (G : matrix) (i_source : nat) : matrix :=
  cols (n_orient * i_source) (n_orient * i_source + n_orient) G.

(** The variables of the search that one pass over the candidates updates. *)
Record scan_state : Type := {
  subcorr_max : npfloat;
  scan_active_set : list Z;
  scan_A : matrix;
  scan_ori : option vector
}.

(** The body of [for i_source in range(G.shape[1] // n_orient)] in round [k]. *)
Definition scan_body (lib : numlib) (n_orient : nat) (G_proj phi_sig_proj : matrix)
           (k : nat) (s : scan_state) (i_source : nat) : result scan_state :=
  let Gk := block n_orient G_proj i_source in
  '(subcorr, ori) <- _compute_subcorr lib Gk phi_sig_proj ;;
  if np_gt subcorr (subcorr_max s) then
    column <- np_dot_vec Gk ori ;;
    A' <- set_col k column (scan_A s) ;;
    Ok {| subcorr_max := subcorr;
          scan_active_set := set_nth k (Z.of_nat i_source) (scan_active_set s);
          scan_A := A';
          scan_ori := Some ori |}
  else
    Ok {| subcorr_max := subcorr_max s;
          scan_active_set := scan_active_set s;
          scan_A := scan_A s;
          scan_ori := Some ori |}.

(** The variables that live across the rounds of the greedy loop. *)
Record loop_state : Type := {
  A : matrix;
  active_set : list Z;
  G_proj : matrix;
  phi_sig_proj : matrix;
  ori : option vector
}.

(** The arguments of the progress message of line 112, which reads
    [ori[0]], [ori[1]] and [ori[2]] of the candidate scanned last. *)
Definition log_ori (n_orient : nat) (o : option vector) : result unit :=
  if (n_orient =? 3)%nat then
    match o with
    | None => Raise UnboundLocalError
    | Some v => if (length v <? 3)%nat then Raise IndexError else Ok tt
    end
  else Ok tt.

(** The body of [for k in range(n_sources)]: search, select, deflate. *)
Definition round_body (lib : numlib) (n_orient : nat) (G phi_sig : matrix)
           (s : loop_state) (k : nat) : result loop_state :=
  found <- for_each (scan_body lib n_orient (G_proj s) (phi_sig_proj s) k)
                    (seq 0 (shape1 G / n_orient))
                    {| subcorr_max := Fin (qz (-1));
                       scan_active_set := active_set s;
                       scan_A := A s;
                       scan_ori := ori s |} ;;
  _ <- log_ori n_orient (scan_ori found) ;;
  projection <- _compute_proj lib (first_cols (k + 1) (scan_A found)) ;;
  G_proj' <- np_dot projection G ;;
  phi_sig_proj' <- np_dot projection phi_sig ;;
  Ok {| A := scan_A found;
        active_set := scan_active_set found;
        G_proj := G_proj';
        phi_sig_proj := phi_sig_proj';
        ori := scan_ori found |}.

(** The state of the greedy loop before its first round. *)
Definition initial_state (n_sources : nat) (G phi_sig : matrix) : loop_state :=
  {| A := zeros (shape0 G) n_sources;
     active_set := repeat (-1)%Z n_sources;
     G_proj := G;
     phi_sig_proj := phi_sig;
     ori := None |}.

(** Lines 92-116: the greedy loop, from the whitened leadfield [G] and the
    signal subspace basis [phi_sig]. *)
Definition greedy_loop (lib : numlib) (n_orient n_sources : nat)
           (G phi_sig : matrix) : result loop_state :=
  for_each (round_body lib n_orient G phi_sig)
           (seq 0 n_sources)
           (initial_state n_sources G phi_sig).

(** [active_set[active_set > size0] - size0] and
    [active_set[active_set <= size0]], with [size0 = vertno[0].size]: the
    positions read in the right and in the left hemisphere's vertex list. *)
Definition right_hemi_indices (size0 : Z) (active_set : list Z) : list Z :=
  map (fun i => (i - size0)%Z) (filter (fun i => (size0 <? i)%Z) active_set).

Definition left_hemi_indices (size0 : Z) (active_set : list Z) : list Z :=
  filter (fun i => (i <=? size0)%Z) active_set.

(** What [_apply_rap_music] receives: its own arguments and what the
    collaborators [_prepare_beamformer_input] and [compute_whitener] return
    for them. *)
Record rap_input : Type := {
  data : matrix;               (* evoked data, channels by times *)
  info_projs : bool;           (* whether [info['projs']] is non-empty *)
  is_free_ori : bool;
  proj : matrix;
  vertno0 : list Z;            (* vertex numbers, left hemisphere *)
  vertno1 : list Z;            (* vertex numbers, right hemisphere *)
  gain : matrix;               (* the leadfield [G] of the forward operator *)
  whitener : matrix;
  r : nat;
  n_sources : nat;
  pick_ori_normal : bool;      (* [pick_ori == 'normal'] *)
  return_residual : bool
}.

(** What [_apply_rap_music] hands to [_make_stc], and [D]. *)
Record rap_output : Type := {
  sol : matrix;
  vertices0 : list Z;
  vertices1 : list Z;
  D : matrix
}.

(** [_apply_rap_music] *)
Definition _apply_rap_music (lib : numlib) (inp : rap_input) : result rap_output :=
  let gain := gain inp in
  G <- np_dot (whitener inp) gain ;;
  data1 <- (if info_projs inp then np_dot (proj inp) (data inp) else Ok (data inp)) ;;
  data2 <- np_dot (whitener inp) data1 ;;
  let G := if pick_ori_normal inp then strided_cols 2 3 G else G in
  let is_free_ori := if pick_ori_normal inp then false else is_free_ori inp in
  cov <- np_dot data2 (transpose data2) ;;
  let '(eig_values, eig_vectors) := lib_eigh lib cov in
  let phi_sig := last_cols (r inp) eig_vectors in
  let n_orient := if is_free_ori then 3%nat else 1%nat in
  final <- greedy_loop lib n_orient (n_sources inp) G phi_sig ;;
  let sol := lib_lstsq lib (A final) data2 in
  let active_set := np_sort (active_set final) in
  D <- (if return_residual inp
        then picked <- take_cols gain active_set ;; np_dot picked sol
        else Ok []) ;;
  let size0 := Z.of_nat (length (vertno0 inp)) in
  v1 <- take 0%Z (vertno1 inp) (right_hemi_indices size0 active_set) ;;
  v0 <- take 0%Z (vertno0 inp) (left_hemi_indices size0 active_set) ;;
  Ok {| sol := sol; vertices0 := v0; vertices1 := v1; D := D |}.

(** [rap_music], after [_check_reference]: [picked] is the data of
    [pick_channels_evoked(evoked.copy(), include=info['ch_names'])], from
    which [D] is subtracted in place. *)
Definition rap_music (lib : numlib) (picked : matrix) (inp : rap_input)
  : result (rap_output * option matrix) :=
  out <- _apply_rap_music lib inp ;;
  if return_residual inp then
    residual <- np_isub picked (D out) ;;
    Ok (out, Some residual)
  else Ok (out, None).


(* ================================================================= *)
(** ** Notions the properties are stated with *)

Definition symmetric (M : matrix) : Prop := transpose M = M.

Definition orthonormal_cols (M : matrix) : Prop :=
  matmul (transpose M) M = identity (shape1 M).

(** The squared norm of a column: the entry of [x^T x]. *)
Definition sqnorm (x : matrix) : Qc := entry (matmul (transpose x) x) 0 0.

(** [X] is the Moore-Penrose pseudoinverse of [G]: the four Penrose
    equations. *)
Definition moore_penrose (G X : matrix) : Prop :=
  rect (shape1 G) (shape0 G) X /\
  matmul (matmul G X) G = G /\
  matmul (matmul X G) X = X /\
  symmetric (matmul G X) /\
  symmetric (matmul X G).

(** The correlation numerator of a block [x] against a basis [Phi], as
    [_compute_subcorr] associates it. *)
Definition correlation_form (x Phi : matrix) : matrix :=
  matmul (matmul (transpose x) Phi) (matmul (transpose Phi) x).

(** The array whose eigenvalues the second branch of [_compute_subcorr]
    takes. *)
Definition projected_gram (Ug Phi : matrix) : matrix :=
  matmul (matmul (transpose Ug) Phi) (matmul (transpose Phi) Ug).

(** The documented result of [linalg.eigh] on a symmetric [M]: eigenvalues
    in ascending order, and an orthogonal array whose column [j] is an
    eigenvector for eigenvalue [j].  Few arrays have such a decomposition in
    rational numbers; the notion serves to check the instance [diag_eigh]
    below on the diagonal arrays of the runs. *)
Definition eigh_contract (M : matrix) (res : vector * matrix) : Prop :=
  let n := shape0 M in
  length (fst res) = n /\
  rect n n (snd res) /\
  matmul (transpose (snd res)) (snd res) = identity n /\
  matmul (snd res) (transpose (snd res)) = identity n /\
  (forall i j, (i < n)%nat -> (j < n)%nat ->
     entry (matmul M (snd res)) i j = nth j (fst res) 0 * entry (snd res) i j) /\
  (forall i j, (i <= j)%nat -> (j < n)%nat -> nth i (fst res) 0 <= nth j (fst res) 0).

(** [np.sqrt] keeps the unit interval: the part of its contract that the
    bound on correlations uses. *)
Definition sqrt_keeps_unit (lib : numlib) : Prop :=
  forall v, 0 <= v <= 1 -> 0 <= lib_sqrt lib v <= 1.

(** The correlation [_compute_subcorr] returns for candidate [i] ([nan]
    stands in where the call raises). *)
Definition candidate_subcorr (lib : numlib) (n_orient : nat)
           (G_proj phi_sig_proj : matrix) (i : nat) : npfloat :=
  match _compute_subcorr lib (block n_orient G_proj i) phi_sig_proj with
  | Ok (c, _) => c
  | Raise _ => NaN
  end.

(** What one pass over the candidates [0 .. n-1] of round [k] leaves, from
    a running maximum [b], an active set [as0] and a topography array
    [A0]: nothing changed when no candidate compared greater than [b];
    otherwise the winner [w], the first candidate to reach the largest
    correlation, with column [k] of the topographies set to its block of
    [G_proj] times its orientation. *)
Definition scan_outcome (lib : numlib) (n_orient : nat) (G_proj phi_sig_proj : matrix)
           (k : nat) (b : npfloat) (as0 : list Z) (A0 : matrix) (n : nat)
           (s' : scan_state) : Prop :=
  let c := candidate_subcorr lib n_orient G_proj phi_sig_proj in
  (subcorr_max s' = b /\ scan_active_set s' = as0 /\ scan_A s' = A0 /\
   forall j, (j < n)%nat -> np_gt (c j) b = false)
  \/
  (exists w ori_w column,
      (w < n)%nat /\
      _compute_subcorr lib (block n_orient G_proj w) phi_sig_proj = Ok (c w, ori_w) /\
      np_dot_vec (block n_orient G_proj w) ori_w = Ok column /\
      subcorr_max s' = c w /\
      scan_active_set s' = set_nth k (Z.of_nat w) as0 /\
      set_col k column A0 = Ok (scan_A s') /\
      np_gt (c w) b = true /\
      (forall j, (j < n)%nat -> np_gt (c j) (c w) = false) /\
      (forall j, (j < w)%nat -> c j = NaN \/ np_gt (c w) (c j) = true)).

(** The shapes of what the library routines return. *)
Definition pinv_keeps_shape (lib : numlib) : Prop :=
  forall M n, rect n n M -> rect n n (lib_pinv lib M).

Definition qr_keeps_shape (lib : numlib) : Prop :=
  forall G m w, (w <= m)%nat -> rect m w G -> rect m w (lib_qr lib G).

Definition eigh_keeps_shape (lib : numlib) : Prop :=
  forall M n, rect n n M ->
    length (fst (lib_eigh lib M)) = n /\ rect n n (snd (lib_eigh lib M)).

(** The two orientation modes: one column per candidate, or three with at
    least three channels and one candidate. *)
Definition mode_ok (lib : numlib) (n_orient m ncand : nat) : Prop :=
  n_orient = 1%nat \/
  (n_orient = 3%nat /\ (3 <= m)%nat /\ (1 <= ncand)%nat /\
   qr_keeps_shape lib /\ eigh_keeps_shape lib).

(** An entry of the active set: a candidate index, or the initial [-1]. *)
Definition valid_entry (ncand : nat) (e : Z) : Prop :=
  e = (-1)%Z \/ (0 <= e < Z.of_nat ncand)%Z.

(** The shapes the variables of the search keep, with [m] channels,
    [N] leadfield columns, [ncand] candidates and a basis of [r] columns. *)
Definition scan_ok (m n_sources ncand : nat) (s : scan_state) : Prop :=
  rect m n_sources (scan_A s) /\
  length (scan_active_set s) = n_sources /\
  Forall (valid_entry ncand) (scan_active_set s).

Definition ori_ok (n_orient : nat) (o : option vector) : Prop :=
  exists v, o = Some v /\ length v = n_orient.

Definition round_ok (m N r n_sources ncand : nat) (s : loop_state) : Prop :=
  rect m n_sources (A s) /\
  length (active_set s) = n_sources /\
  Forall (valid_entry ncand) (active_set s) /\
  rect m N (G_proj s) /\
  rect m r (phi_sig_proj s).

(* ================================================================= *)
(** ** An exact instance of the library, and inputs *)

(** Integer arrays. *)
Definition zvec (v : list Z) : vector := map qz v.
Definition zmat (M : list (list Z)) : matrix := map zvec M.

(** The root of a rational whose numerator and denominator are squares
    (the integer root of each, otherwise). *)
Definition exact_root (x : Qc) : Qc :=
  Q2Qc (Z.sqrt (Qnum x) # Pos.sqrt (Qden x)).

(** The pseudoinverse of a diagonal array: the non-zero diagonal entries
    inverted. *)
Definition diag_pinv (M : matrix) : matrix :=
  tabulate (shape0 M) (shape1 M)
           (fun i j => if (i =? j)%nat
                       then if Qc_eqb (entry M i i) 0 then 0 else / entry M i i
                       else 0).

(** The indices of a diagonal in ascending order of its entries. *)
Fixpoint insert_by (key : nat -> Qc) (x : nat) (l : list nat) : list nat :=
  match l with
  | [] => [x]
  | y :: tl => if Qc_ltb (key x) (key y) then x :: l else y :: insert_by key x tl
  end.

Definition ascending_order (key : nat -> Qc) (n : nat) : list nat :=
  fold_left (fun acc i => insert_by key i acc) (seq 0 n) [].

(** The eigendecomposition of a diagonal array: its diagonal in ascending
    order, and the unit vectors in that order.  Among equal eigenvalues the
    order is this instance's own, which [linalg.eigh] need not share: the
    runs that properties are evaluated on do not depend on it. *)
Definition diag_eigh (M : matrix) : vector * matrix :=
  let n := shape0 M in
  let order := ascending_order (fun i => entry M i i) n in
  (map (fun i => entry M i i) order,
   tabulate n n (fun i j => if (i =? nth j order 0%nat)%nat then 1 else 0)).

(** Least squares against an array with orthogonal columns. *)
Definition orth_lstsq (A b : matrix) : matrix :=
  matmul (matmul (diag_pinv (matmul (transpose A) A)) (transpose A)) b.

(** The QR factor of an array whose columns are orthonormal or zero, a
    zero column [j] having no other column along axis [j]: the array itself,
    with the unit vector of axis [j] for a zero column [j]. *)
Definition axis_qr (G : matrix) : matrix :=
  tabulate (shape0 G) (shape1 G)
           (fun i j => if forallb (fun row => Qc_eqb (nth j row 0) 0) G
                       then if (i =? j)%nat then 1 else 0
                       else entry G i j).

(** The library on the arguments it is exact for. *)
Definition exact_lib : numlib :=
  {| lib_sqrt := exact_root;
     lib_qr := axis_qr;
     lib_eigh := diag_eigh;
     lib_pinv := diag_pinv;
     lib_lstsq := orth_lstsq |}.

(** Equality tests on arrays. *)
Fixpoint vec_eqb (u v : vector) : bool :=
  match u, v with
  | [], [] => true
  | a :: u', b :: v' => Qc_eqb a b && vec_eqb u' v'
  | _, _ => false
  end.

Fixpoint mat_eqb (M N : matrix) : bool :=
  match M, N with
  | [], [] => true
  | r :: M', s :: N' => vec_eqb r s && mat_eqb M' N'
  | _, _ => false
  end.

(** Two channels, two fixed-orientation candidates that are not orthogonal,
    and a signal subspace that is the whole sensor space. *)
Definition oblique_G : matrix := zmat [[1; 1]; [0; 1]]%Z.

(** Two channels, two colinear candidates. *)
Definition colinear_G : matrix := zmat [[1; 2]; [0; 0]]%Z.

(** The candidates of [oblique_G], with two samples of data that span the
    sensor space. *)
Definition oblique_input : rap_input :=
  {| data := identity 2;
     info_projs := false;
     is_free_ori := false;
     proj := identity 2;
     vertno0 := [10; 20; 30]%Z;
     vertno1 := [];
     gain := oblique_G;
     whitener := identity 2;
     r := 2;
     n_sources := 2;
     pick_ori_normal := false;
     return_residual := true |}.

(** One candidate, two sources requested, and [r = 5] with two channels. *)
Definition overdrawn_input : rap_input :=
  {| data := zmat [[1]; [0]]%Z;
     info_projs := false;
     is_free_ori := false;
     proj := identity 2;
     vertno0 := [7]%Z;
     vertno1 := [];
     gain := zmat [[1]; [0]]%Z;
     whitener := identity 2;
     r := 5;
     n_sources := 2;
     pick_ori_normal := false;
     return_residual := true |}.

(** Three channels and one free-orientation candidate whose block is the
    identity; the data lie along the second channel. *)
Definition free_input : rap_input :=
  {| data := zmat [[0]; [1]; [0]]%Z;
     info_projs := false;
     is_free_ori := true;
     proj := identity 3;
     vertno0 := [7]%Z;
     vertno1 := [];
     gain := identity 3;
     whitener := identity 3;
     r := 1;
     n_sources := 1;
     pick_ori_normal := false;
     return_residual := true |}.

(** The one-column branch of [_compute_subcorr] as the specification
    words it: the denominator [Gk^T Gk] is replaced by its pseudoinverse
    rather than divided by. *)
Definition compute_subcorr_pinv (lib : numlib) (G phi_sig : matrix)
  : result (npfloat * vector) :=
  let Gh := transpose G in
  let phi_sigh := transpose phi_sig in
  l <- np_dot Gh phi_sig ;;
  r <- np_dot phi_sigh G ;;
  subcorr <- np_dot l r ;;
  den <- np_dot Gh G ;;
  scaled <- np_dot subcorr (lib_pinv lib den) ;;
  Ok (np_sqrt (lib_sqrt lib) (Fin (entry scaled 0 0)), [1]).

(** [M[:, k]] read as a 1-D array. *)
Definition get_col (k : nat) (M : matrix) : vector :=
  map (fun row => nth k row 0) M.

(** A correlation in the closed unit interval. *)
Definition in_unit_interval (c : npfloat) : Prop :=
  exists q, c = Fin q /\ 0 <= q <= 1.

(** The active set as the specification describes it: [n_sources] distinct
    candidate indices in ascending order. *)
Definition specified_active_set (ncand n_sources : nat) (l : list Z) : Prop :=
  length l = n_sources /\
  Forall (fun e => (0 <= e < Z.of_nat ncand)%Z) l /\
  NoDup l /\
  Sorted Z.le l.

(* ================================================================= *)
(** ** Further notions *)

(** The input with [return_residual=False]. *)
Definition without_residual (inp : rap_input) : rap_input :=
  {| data := data inp;
     info_projs := info_projs inp;
     is_free_ori := is_free_ori inp;
     proj := proj inp;
     vertno0 := vertno0 inp;
     vertno1 := vertno1 inp;
     gain := gain inp;
     whitener := whitener inp;
     r := r inp;
     n_sources := n_sources inp;
     pick_ori_normal := pick_ori_normal inp;
     return_residual := false |}.

(** Two channels and two colinear candidates, the second of which can only
    be deflated to zero: the second round selects nothing. *)
Definition colinear_input : rap_input :=
  {| data := zmat [[1]; [0]]%Z;
     info_projs := false;
     is_free_ori := false;
     proj := identity 2;
     vertno0 := [10; 20; 30]%Z;
     vertno1 := [];
     gain := colinear_G;
     whitener := identity 2;
     r := 1;
     n_sources := 2;
     pick_ori_normal := false;
     return_residual := false |}.

(** The array [_compute_proj] returns for topographies [A0] of [m]
    channels. *)
Definition projector_of (lib : numlib) (m : nat) (A0 : matrix) : matrix :=
  msub (identity m)
       (matmul (matmul A0 (lib_pinv lib (matmul (transpose A0) A0)))
               (transpose A0)).

(** The working array [W] (leadfield or signal basis) before round [k]:
    the original [W0] before the first round, and afterwards [W0] deflated
    by the projector of the first [k] topographies. *)
Definition deflation_of (lib : numlib) (m k : nat) (A0 W0 W : matrix) : Prop :=
  (k = 0%nat /\ W = W0) \/
  ((0 < k)%nat /\ W = matmul (projector_of lib m (first_cols k A0)) W0).

(** The first Penrose equation for the Gram matrix of the first [k + 1]
    columns of [A0], for every [k] below [n]: what the deflation needs of
    [linalg.pinv]. *)
Definition pinv_inverts_grams (lib : numlib) (n : nat) (A0 : matrix) : Prop :=
  forall k, (k < n)%nat ->
    moore_penrose
      (matmul (transpose (first_cols (k + 1) A0)) (first_cols (k + 1) A0))
      (lib_pinv lib (matmul (transpose (first_cols (k + 1) A0))
                            (first_cols (k + 1) A0))).

(** Columns [j] and [k] of an array of [m] rows are orthogonal. *)
Definition columns_orthogonal (m : nat) (M : matrix) (j k : nat) : Prop :=
  sum_upto m (fun i => entry M i j * entry M i k) = 0.

(** What the fit of line 119 uses of [linalg.lstsq]: its first result has
    one row for each column of [A0] and solves the normal equations. *)
Definition lstsq_normal_equations (lib : numlib) (A0 b : matrix) : Prop :=
  rect (shape1 A0) (shape1 b) (lib_lstsq lib A0 b) /\
  matmul (matmul (transpose A0) A0) (lib_lstsq lib A0 b)
  = matmul (transpose A0) b.

(** Lines 69-116 of [_apply_rap_music]: the whitening, the signal subspace
    and the greedy loop.  The result is the whitened data and the state in
    which the loop ends. *)
Definition search_sources (lib : numlib) (inp : rap_input)
  : result (matrix * loop_state) :=
  G <- np_dot (whitener inp) (gain inp) ;;
  data1 <- (if info_projs inp then np_dot (proj inp) (data inp) else Ok (data inp)) ;;
  data2 <- np_dot (whitener inp) data1 ;;
  let G := if pick_ori_normal inp then strided_cols 2 3 G else G in
  let is_free_ori := if pick_ori_normal inp then false else is_free_ori inp in
  cov <- np_dot data2 (transpose data2) ;;
  let '(eig_values, eig_vectors) := lib_eigh lib cov in
  let phi_sig := last_cols (r inp) eig_vectors in
  let n_orient := if is_free_ori then 3%nat else 1%nat in
  final <- greedy_loop lib n_orient (n_sources inp) G phi_sig ;;
  Ok (data2, final).

(** Lines 122-124: [D], from the sorted active set and the amplitudes. *)
Definition explained_data (inp : rap_input) (active_set : list Z) (sol : matrix)
  : result matrix :=
  if return_residual inp
  then picked <- take_cols (gain inp) active_set ;; np_dot picked sol
  else Ok [].

(** What the bound on the correlations uses of [np.linalg.qr]: its first
    factor, whose columns are orthonormal, lengthens no vector. *)
Definition qr_lengthens_nothing (Ug : matrix) : Prop :=
  forall x, rect (shape1 Ug) 1 x -> sqnorm (matmul Ug x) <= sqnorm x.

(** What it uses of [linalg.eigh]: the last eigenvalue returned for [M]
    exceeds no bound of the quadratic form of [M]. *)
Definition eigh_top_below_bounds (M : matrix) (eig_vals : vector) : Prop :=
  forall t,
    (forall x, rect (shape0 M) 1 x ->
       entry (matmul (matmul (transpose x) M) x) 0 0 <= t * sqnorm x) ->
    last eig_vals 0 <= t.

(** The candidates of [oblique_G] at the vertices 10 and 20 of the left
    hemisphere, with two samples of data that span the sensor space. *)
Definition oblique_pair_input : rap_input :=
  {| data := zmat [[2; 0]; [0; 1]]%Z;
     info_projs := false;
     is_free_ori := false;
     proj := identity 2;
     vertno0 := [10; 20]%Z;
     vertno1 := [];
     gain := oblique_G;
     whitener := identity 2;
     r := 2;
     n_sources := 2;
     pick_ori_normal := false;
     return_residual := true |}.

(** The two colinear candidates of [colinear_G] at the vertices 10 and 20
    of the left hemisphere, with data along the first channel. *)
Definition colinear_pair_input : rap_input :=
  {| data := zmat [[1]; [0]]%Z;
     info_projs := false;
     is_free_ori := false;
     proj := identity 2;
     vertno0 := [10; 20]%Z;
     vertno1 := [];
     gain := colinear_G;
     whitener := identity 2;
     r := 1;
     n_sources := 2;
     pick_ori_normal := false;
     return_residual := true |}.

(** One vertex in each hemisphere; the data are the topography of the
    candidate of the right hemisphere, whose index is the number of
    left-hemisphere vertices. *)
Definition boundary_input : rap_input :=
  {| data := zmat [[1]; [0]]%Z;
     info_projs := false;
     is_free_ori := false;
     proj := identity 2;
     vertno0 := [10]%Z;
     vertno1 := [20]%Z;
     gain := zmat [[0; 1]; [1; 0]]%Z;
     whitener := identity 2;
     r := 1;
     n_sources := 1;
     pick_ori_normal := false;
     return_residual := false |}.

(* ================================================================= *)
(** ** The subspace correlation over the real numbers *)

(** The orthonormal factor of a block and the eigenvalues and unit
    eigenvectors of [Ug^T Phi Phi^T Ug] are seldom rational, so that in
    rational arrays the results of [np.linalg.qr] and [linalg.eigh] can be
    described for special blocks only.  What [_compute_subcorr] returns for
    every block is stated on a second embedding of the function, with real
    numbers for array entries: the same computation, with the real square
    root for [np.sqrt]. *)
Module OverReals.

Local Open Scope R_scope.

Definition vector := list R.
Definition matrix := list (list R).

Definition shape0 (M : matrix) : nat := length M.
Definition shape1 (M : matrix) : nat := length (hd [] M).
Definition entry (M : matrix) (i j : nat) : R := nth j (nth i M []) 0.

Definition tabulate (m n : nat) (f : nat -> nat -> R) : matrix :=
  map (fun i => map (f i) (seq 0 n)) (seq 0 m).

Definition rect (m n : nat) (M : matrix) : Prop :=
  length M = m /\ Forall (fun row => length row = n) M.

Fixpoint sum_upto (n : nat) (f : nat -> R) : R :=
  match n with
  | O => 0
  | S k => sum_upto k f + f k
  end.

(** [M.T.conjugate()] on a real array. *)
Definition transpose (M : matrix) : matrix :=
  tabulate (shape1 M) (shape0 M) (fun i j => entry M j i).

Definition matmul (A B : matrix) : matrix :=
  tabulate (shape0 A) (shape1 B)
           (fun i j => sum_upto (shape1 A) (fun k => entry A i k * entry B k j)).

(** [np.dot] of two 2-D arrays. *)
Definition np_dot (A B : matrix) : result matrix :=
  if (shape1 A =? shape0 B)%nat then Ok (matmul A B) else Raise ValueError.

(** [np.identity(n)] *)
Definition identity (n : nat) : matrix :=
  tabulate n n (fun i j => if (i =? j)%nat then 1 else 0).

(** [v[-1]] *)
Definition last_item (v : vector) : result R :=
  match rev v with
  | [] => Raise IndexError
  | x :: _ => Ok x
  end.

(** [M[:, -1]] *)
Definition last_col (M : matrix) : result vector :=
  if (shape1 M =? 0)%nat then Raise IndexError
  else Ok (map (fun row => last row 0) M).

(** A numpy float64 scalar: a finite value, an infinity or nan. *)
Inductive npfloat : Type :=
| Fin (x : R)
| PInf
| NInf
| NaN.

(** [x / y] on float64 arrays. *)
Definition np_divide (x y : R) : npfloat :=
  if Req_dec_T y 0 then
    if Req_dec_T x 0 then NaN else if Rlt_dec 0 x then PInf else NInf
  else Fin (x / y).

(** [np.sqrt] *)
Definition np_sqrt (v : npfloat) : npfloat :=
  match v with
  | Fin x => if Rlt_dec x 0 then NaN else Fin (sqrt x)
  | PInf => PInf
  | NInf => NaN
  | NaN => NaN
  end.

(** [lib_qr] is the first component of [np.linalg.qr(G, mode='reduced')]. *)
Record numlib : Type := {
  lib_qr : matrix -> matrix;
  lib_eigh : matrix -> vector * matrix
}.

(** [_compute_subcorr(G, phi_sig)] *)
Definition _compute_subcorr (lib : numlib) (G phi_sig : matrix)
  : result (npfloat * vector) :=
  if (shape1 G =? 1)%nat then
    let Gh := transpose G in
    let phi_sigh := transpose phi_sig in
    l <- np_dot Gh phi_sig ;;
    r <- np_dot phi_sigh G ;;
    subcorr <- np_dot l r ;;
    den <- np_dot Gh G ;;
    Ok (np_sqrt (np_divide (entry subcorr 0 0) (entry den 0 0)), [1])
  else
    let Ug := lib_qr lib G in
    let Ugh := transpose Ug in
    let phi_sigh := transpose phi_sig in
    l <- np_dot Ugh phi_sig ;;
    r <- np_dot phi_sigh Ug ;;
    subcorr <- np_dot l r ;;
    let '(eig_vals, eig_vecs) := lib_eigh lib subcorr in
    top <- last_item eig_vals ;;
    ori <- last_col eig_vecs ;;
    Ok (np_sqrt (Fin top), ori).

(** The array whose eigenvalues the second branch takes,
    [Ug^T Phi Phi^T Ug] as the code associates it. *)
Definition projected_gram (Ug Phi : matrix) : matrix :=
  matmul (matmul (transpose Ug) Phi) (matmul (transpose Phi) Ug).

(** The documented result of [linalg.eigh] on a symmetric [M]:
    eigenvalues in ascending order, and an orthogonal array whose column
    [j] is an eigenvector for eigenvalue [j]. *)
Definition eigh_contract (M : matrix) (res : vector * matrix) : Prop :=
  let n := shape0 M in
  length (fst res) = n /\
  rect n n (snd res) /\
  (forall j k, (j < n)%nat -> (k < n)%nat ->
     sum_upto n (fun i => entry (snd res) i j * entry (snd res) i k)
     = if (j =? k)%nat then 1 else 0) /\
  (forall i k, (i < n)%nat -> (k < n)%nat ->
     sum_upto n (fun j => entry (snd res) i j * entry (snd res) k j)
     = if (i =? k)%nat then 1 else 0) /\
  (forall i j, (i < n)%nat -> (j < n)%nat ->
     sum_upto n (fun k => entry M i k * entry (snd res) k j)
     = nth j (fst res) 0 * entry (snd res) i j) /\
  (forall i j, (i <= j)%nat -> (j < n)%nat ->
     nth i (fst res) 0 <= nth j (fst res) 0).

(** [v] is an eigenvector of [M] for the eigenvalue [mu]. *)
Definition is_eigenpair (M : matrix) (mu : R) (v : vector) : Prop :=
  length v = shape0 M /\
  forall i, (i < shape0 M)%nat ->
    sum_upto (shape0 M) (fun k => entry M i k * nth k v 0) = mu * nth i v 0.

Definition unit_norm (v : vector) : Prop :=
  sum_upto (length v) (fun k => nth k v 0 * nth k v 0) = 1.

(** The library on the block and the basis of an example: the identity is
    its own factor, and the array [[1 1 0] [1 1 0] [0 0 0]] has the
    eigenvalues 0, 0 and 2, with the unit eigenvectors [(0, 0, 1)],
    [(a, -a, 0)] and [(a, a, 0)] for [a = 1 / sqrt 2]. *)
Definition example_lib : numlib :=
  {| lib_qr := fun G => G;
     lib_eigh := fun _ =>
       ([0; 0; 2],
        [[0; / sqrt 2; / sqrt 2];
         [0; - / sqrt 2; / sqrt 2];
         [1; 0; 0]]) |}.

End OverReals.

(* ================================================================= *)
(** * Properties *)

(* ================================================================= *)
(** ** Shapes and entries *)

Lemma length_tabulate (m n : nat) (f : nat -> nat -> Qc) :
  length (tabulate m n f) = m.
Proof. unfold tabulate. now rewrite length_map, length_seq. Qed.

Lemma rect_tabulate (m n : nat) (f : nat -> nat -> Qc) :
  rect m n (tabulate m n f).
Proof.
  split; [apply length_tabulate|].
  unfold tabulate. apply Forall_forall. intros row Hin.
  apply in_map_iff in Hin. destruct Hin as [i [<- _]].
  now rewrite length_map, length_seq.
Qed.

Lemma entry_tabulate (m n : nat) (f : nat -> nat -> Qc) (i j : nat) :
  (i < m)%nat -> (j < n)%nat -> entry (tabulate m n f) i j = f i j.
Proof.
  intros Hi Hj. unfold entry, tabulate.
  rewrite (nth_indep _ [] (map (f 0%nat) (seq 0 n)))
    by now rewrite length_map, length_seq.
  rewrite (map_nth (fun i => map (f i) (seq 0 n)) (seq 0 m) 0%nat i).
  rewrite seq_nth by assumption. simpl.
  rewrite (nth_indep _ 0 (f i 0%nat)) by now rewrite length_map, length_seq.
  rewrite (map_nth (f i) (seq 0 n) 0%nat j).
  now rewrite seq_nth.
Qed.

Lemma rect_shape0 (m n : nat) (M : matrix) : rect m n M -> shape0 M = m.
Proof. now intros [H _]. Qed.

Lemma rect_shape1 (m n : nat) (M : matrix) :
  rect m n M -> (0 < m)%nat -> shape1 M = n.
Proof.
  intros [Hl Hr] Hm. unfold shape1. destruct M as [|row M]; simpl in *; [lia|].
  now inversion Hr.
Qed.

Lemma rect_row (m n : nat) (M : matrix) (i : nat) :
  rect m n M -> (i < m)%nat -> length (nth i M []) = n.
Proof.
  intros [Hl Hr] Hi. rewrite Forall_forall in Hr. apply Hr, nth_In. lia.
Qed.

(** Two arrays of one shape with the same entries are the same array. *)
Lemma matrix_ext (m n : nat) (M N : matrix) :
  rect m n M -> rect m n N ->
  (forall i j, (i < m)%nat -> (j < n)%nat -> entry M i j = entry N i j) ->
  M = N.
Proof.
  intros HM HN H.
  apply (nth_ext M N [] []); [destruct HM, HN; congruence|].
  intros i Hi. assert (Him : (i < m)%nat) by (destruct HM; lia).
  apply (nth_ext _ _ 0 0).
  - now rewrite (rect_row HM Him), (rect_row HN Him).
  - intros j Hj. rewrite (rect_row HM Him) in Hj. now apply H.
Qed.

Lemma tabulate_ext (m n : nat) (f g : nat -> nat -> Qc) :
  (forall i j, (i < m)%nat -> (j < n)%nat -> f i j = g i j) ->
  tabulate m n f = tabulate m n g.
Proof.
  intros H. apply (@matrix_ext m n); try apply rect_tabulate.
  intros i j Hi Hj. rewrite !entry_tabulate by assumption. now apply H.
Qed.

Lemma tabulate_entry (m n : nat) (M : matrix) :
  rect m n M -> tabulate m n (entry M) = M.
Proof.
  intros HM. apply (@matrix_ext m n); [apply rect_tabulate|assumption|].
  intros i j Hi Hj. now rewrite entry_tabulate.
Qed.

(* ================================================================= *)
(** ** Finite sums *)

Lemma sum_upto_ext (n : nat) (f g : nat -> Qc) :
  (forall k, (k < n)%nat -> f k = g k) -> sum_upto n f = sum_upto n g.
Proof.
  induction n as [|n IH]; intros H; simpl; [reflexivity|].
  rewrite IH by (intros; apply H; lia). now rewrite H by lia.
Qed.

Lemma sum_upto_zero (n : nat) : sum_upto n (fun _ => 0) = 0.
Proof. induction n as [|n IH]; simpl; [reflexivity|]. rewrite IH. ring. Qed.

Lemma sum_upto_plus (n : nat) (f g : nat -> Qc) :
  sum_upto n (fun k => f k + g k) = sum_upto n f + sum_upto n g.
Proof. induction n as [|n IH]; simpl; [ring|]. rewrite IH. ring. Qed.

Lemma sum_upto_minus (n : nat) (f g : nat -> Qc) :
  sum_upto n (fun k => f k - g k) = sum_upto n f - sum_upto n g.
Proof. induction n as [|n IH]; simpl; [ring|]. rewrite IH. ring. Qed.

Lemma sum_upto_scale_l (n : nat) (c : Qc) (f : nat -> Qc) :
  sum_upto n (fun k => c * f k) = c * sum_upto n f.
Proof. induction n as [|n IH]; simpl; [ring|]. rewrite IH. ring. Qed.

Lemma sum_upto_scale_r (n : nat) (c : Qc) (f : nat -> Qc) :
  sum_upto n (fun k => f k * c) = sum_upto n f * c.
Proof. induction n as [|n IH]; simpl; [ring|]. rewrite IH. ring. Qed.

Lemma sum_upto_swap (m n : nat) (f : nat -> nat -> Qc) :
  sum_upto m (fun i => sum_upto n (fun j => f i j)) =
  sum_upto n (fun j => sum_upto m (fun i => f i j)).
Proof.
  induction m as [|m IH]; simpl.
  - now rewrite sum_upto_zero.
  - rewrite IH. now rewrite <- sum_upto_plus.
Qed.

(** A sum against a row of the identity picks one term. *)
Lemma sum_upto_delta_l (n i : nat) (f : nat -> Qc) :
  (i < n)%nat ->
  sum_upto n (fun k => (if (i =? k)%nat then 1 else 0) * f k) = f i.
Proof.
  induction n as [|n IH]; intros Hi; [lia|]. simpl.
  destruct (Nat.eq_dec i n) as [->|Hne].
  - rewrite Nat.eqb_refl.
    rewrite (@sum_upto_ext n _ (fun _ => 0)).
    + rewrite sum_upto_zero. ring.
    + intros k Hk. destruct (Nat.eqb_spec n k); [lia|ring].
  - rewrite IH by lia. destruct (Nat.eqb_spec i n); [contradiction|ring].
Qed.

Lemma sum_upto_delta_r (n j : nat) (f : nat -> Qc) :
  (j < n)%nat ->
  sum_upto n (fun k => f k * (if (k =? j)%nat then 1 else 0)) = f j.
Proof.
  intros Hj. rewrite <- (@sum_upto_delta_l n j f Hj).
  apply sum_upto_ext. intros k _. rewrite (Nat.eqb_sym k j). ring.
Qed.

(** *** Order: sums of squares *)

Lemma Qc_square_nonneg (x : Qc) : 0 <= x * x.
Proof.
  unfold Qcle, Qcmult, Q2Qc. cbn [this]. rewrite !Qred_correct. nra.
Qed.

Lemma Qc_plus_nonneg (x y : Qc) : 0 <= x -> 0 <= y -> 0 <= x + y.
Proof.
  intros Hx Hy. replace 0 with (0 + 0) by ring. now apply Qcplus_le_compat.
Qed.

Lemma Qc_plus_nonneg_zero (x y : Qc) :
  0 <= x -> 0 <= y -> x + y = 0 -> x = 0 /\ y = 0.
Proof.
  intros Hx Hy H.
  assert (Hxy : x <= 0).
  { replace 0 with (x + y) at 1 by exact H. 
    replace x with (x + 0) at 1 by ring. apply Qcplus_le_compat; [apply Qcle_refl|assumption]. }
  assert (x = 0) by (apply Qcle_antisym; assumption).
  subst x. split; [reflexivity|]. rewrite Qcplus_0_l in H. exact H.
Qed.

Lemma sum_upto_nonneg (n : nat) (f : nat -> Qc) :
  (forall k, (k < n)%nat -> 0 <= f k) -> 0 <= sum_upto n f.
Proof.
  induction n as [|n IH]; intros H; simpl.
  - apply Qcle_refl.
  - apply Qc_plus_nonneg; [apply IH; intros; apply H; lia | apply H; lia].
Qed.

Lemma sum_upto_nonneg_zero (n : nat) (f : nat -> Qc) :
  (forall k, (k < n)%nat -> 0 <= f k) -> sum_upto n f = 0 ->
  forall k, (k < n)%nat -> f k = 0.
Proof.
  induction n as [|n IH]; intros Hf H k Hk; [lia|]. simpl in H.
  apply Qc_plus_nonneg_zero in H.
  - destruct H as [H1 H2]. destruct (Nat.eq_dec k n) as [->|Hne]; [assumption|].
    apply IH; try assumption; [intros; apply Hf; lia | lia].
  - apply sum_upto_nonneg. intros; apply Hf; lia.
  - apply Hf; lia.
Qed.

Lemma Qc_square_zero (x : Qc) : x * x = 0 -> x = 0.
Proof. intros H. now destruct (Qcmult_integral _ _ H). Qed.

(* ================================================================= *)
(** ** Matrix algebra *)

Create HintDb rect.

Lemma rect_transpose (m n : nat) (M : matrix) :
  rect m n M -> (0 < m)%nat -> rect n m (transpose M).
Proof.
  intros HM Hm. unfold transpose.
  rewrite (rect_shape1 HM Hm), (rect_shape0 HM). apply rect_tabulate.
Qed.

Lemma entry_transpose (m n : nat) (M : matrix) (i j : nat) :
  rect m n M -> (i < n)%nat -> (j < m)%nat ->
  entry (transpose M) i j = entry M j i.
Proof.
  intros HM Hi Hj. unfold transpose.
  rewrite (rect_shape1 HM) by lia. rewrite (rect_shape0 HM).
  now rewrite entry_tabulate.
Qed.

Lemma rect_matmul (m n p : nat) (A B : matrix) :
  rect m n A -> rect n p B -> (0 < n)%nat -> rect m p (matmul A B).
Proof.
  intros HA HB Hn. unfold matmul.
  rewrite (rect_shape0 HA), (rect_shape1 HB Hn). apply rect_tabulate.
Qed.

Lemma entry_matmul (m n p : nat) (A B : matrix) (i j : nat) :
  rect m n A -> rect n p B -> (0 < n)%nat -> (i < m)%nat -> (j < p)%nat ->
  entry (matmul A B) i j = sum_upto n (fun k => entry A i k * entry B k j).
Proof.
  intros HA HB Hn Hi Hj. unfold matmul.
  rewrite (rect_shape0 HA), (rect_shape1 HB Hn).
  rewrite (rect_shape1 HA) by lia. now rewrite entry_tabulate.
Qed.

Lemma np_dot_ok (m n p : nat) (A B : matrix) :
  rect m n A -> rect n p B -> (0 < m)%nat -> np_dot A B = Ok (matmul A B).
Proof.
  intros HA HB Hm. unfold np_dot.
  rewrite (rect_shape1 HA Hm), (rect_shape0 HB). now rewrite Nat.eqb_refl.
Qed.

Lemma rect_identity (n : nat) : rect n n (identity n).
Proof. apply rect_tabulate. Qed.

Lemma entry_identity (n i j : nat) :
  (i < n)%nat -> (j < n)%nat ->
  entry (identity n) i j = if (i =? j)%nat then 1 else 0.
Proof. intros. unfold identity. now rewrite entry_tabulate. Qed.

Lemma rect_msub (m n : nat) (A B : matrix) :
  rect m n A -> (0 < m)%nat -> rect m n (msub A B).
Proof.
  intros HA Hm. unfold msub.
  rewrite (rect_shape0 HA), (rect_shape1 HA Hm). apply rect_tabulate.
Qed.

Lemma entry_msub (m n : nat) (A B : matrix) (i j : nat) :
  rect m n A -> (i < m)%nat -> (j < n)%nat ->
  entry (msub A B) i j = entry A i j - entry B i j.
Proof.
  intros HA Hi Hj. unfold msub.
  rewrite (rect_shape0 HA). rewrite (rect_shape1 HA) by lia.
  now rewrite entry_tabulate.
Qed.

Lemma np_subtract_ok (m n : nat) (A B : matrix) :
  rect m n A -> rect m n B -> (0 < m)%nat -> np_subtract A B = Ok (msub A B).
Proof.
  intros HA HB Hm. unfold np_subtract.
  rewrite (rect_shape0 HA), (rect_shape0 HB).
  rewrite (rect_shape1 HA Hm), (rect_shape1 HB Hm).
  now rewrite !Nat.eqb_refl.
Qed.

#[export] Hint Resolve rect_tabulate rect_identity : rect.
#[export] Hint Resolve rect_transpose rect_matmul rect_msub : rect.

Lemma matmul_assoc (m n p q : nat) (A B C : matrix) :
  rect m n A -> rect n p B -> rect p q C -> (0 < n)%nat -> (0 < p)%nat ->
  matmul (matmul A B) C = matmul A (matmul B C).
Proof.
  intros HA HB HC Hn Hp.
  apply (@matrix_ext m q); eauto with rect.
  intros i j Hi Hj.
  rewrite (entry_matmul (rect_matmul HA HB Hn) HC Hp Hi Hj).
  rewrite (entry_matmul HA (rect_matmul HB HC Hp) Hn Hi Hj).
  rewrite (@sum_upto_ext p _
             (fun k => sum_upto n (fun l => entry A i l * entry B l k * entry C k j))).
  2:{ intros k Hk. rewrite (entry_matmul HA HB Hn Hi Hk).
      now rewrite <- sum_upto_scale_r. }
  rewrite sum_upto_swap. apply sum_upto_ext. intros l Hl.
  rewrite (entry_matmul HB HC Hp Hl Hj). rewrite <- sum_upto_scale_l.
  apply sum_upto_ext. intros k _. ring.
Qed.

Lemma transpose_matmul (m n p : nat) (A B : matrix) :
  rect m n A -> rect n p B -> (0 < m)%nat -> (0 < n)%nat -> (0 < p)%nat ->
  transpose (matmul A B) = matmul (transpose B) (transpose A).
Proof.
  intros HA HB Hm Hn Hp.
  apply (@matrix_ext p m); eauto with rect.
  intros i j Hi Hj.
  rewrite (entry_transpose (rect_matmul HA HB Hn) Hi Hj).
  rewrite (entry_matmul HA HB Hn Hj Hi).
  rewrite (entry_matmul (rect_transpose HB Hn) (rect_transpose HA Hm) Hn Hi Hj).
  apply sum_upto_ext. intros k Hk.
  rewrite (entry_transpose HB Hi Hk), (entry_transpose HA Hk Hj). ring.
Qed.

Lemma transpose_involutive (m n : nat) (M : matrix) :
  rect m n M -> (0 < m)%nat -> (0 < n)%nat -> transpose (transpose M) = M.
Proof.
  intros HM Hm Hn. apply (@matrix_ext m n); eauto with rect.
  intros i j Hi Hj.
  rewrite (entry_transpose (rect_transpose HM Hm) Hi Hj).
  now rewrite (entry_transpose HM Hj Hi).
Qed.

Lemma transpose_identity (n : nat) : transpose (identity n) = identity n.
Proof.
  destruct n as [|n]; [reflexivity|].
  apply (@matrix_ext (S n) (S n)); eauto with rect arith.
  intros i j Hi Hj.
  rewrite (entry_transpose (rect_identity (S n)) Hi Hj).
  rewrite !entry_identity by assumption. now rewrite Nat.eqb_sym.
Qed.

Lemma matmul_identity_l (m n : nat) (M : matrix) :
  rect m n M -> (0 < m)%nat -> matmul (identity m) M = M.
Proof.
  intros HM Hm. apply (@matrix_ext m n); eauto with rect.
  intros i j Hi Hj.
  rewrite (entry_matmul (rect_identity m) HM Hm Hi Hj).
  rewrite (@sum_upto_ext m _
             (fun k => (if (i =? k)%nat then 1 else 0) * entry M k j)).
  - now apply (@sum_upto_delta_l m i (fun k => entry M k j)).
  - intros k Hk. now rewrite entry_identity.
Qed.

Lemma matmul_identity_r (m n : nat) (M : matrix) :
  rect m n M -> (0 < n)%nat -> matmul M (identity n) = M.
Proof.
  intros HM Hn. apply (@matrix_ext m n); eauto with rect.
  intros i j Hi Hj.
  rewrite (entry_matmul HM (rect_identity n) Hn Hi Hj).
  rewrite (@sum_upto_ext n _
             (fun k => entry M i k * (if (k =? j)%nat then 1 else 0))).
  - now apply (@sum_upto_delta_r n j (fun k => entry M i k)).
  - intros k Hk. now rewrite entry_identity.
Qed.

Lemma matmul_msub_l (m n p : nat) (A B C : matrix) :
  rect m n A -> rect m n B -> rect n p C -> (0 < m)%nat -> (0 < n)%nat ->
  matmul (msub A B) C = msub (matmul A C) (matmul B C).
Proof.
  intros HA HB HC Hm Hn. apply (@matrix_ext m p); eauto with rect.
  intros i j Hi Hj.
  rewrite (entry_matmul (rect_msub B HA Hm) HC Hn Hi Hj).
  rewrite (entry_msub (matmul B C) (rect_matmul HA HC Hn) Hi Hj).
  rewrite (entry_matmul HA HC Hn Hi Hj), (entry_matmul HB HC Hn Hi Hj).
  rewrite <- sum_upto_minus. apply sum_upto_ext. intros k Hk.
  rewrite (entry_msub B HA Hi Hk). ring.
Qed.

Lemma matmul_msub_r (m n p : nat) (A B C : matrix) :
  rect m n A -> rect n p B -> rect n p C -> (0 < m)%nat -> (0 < n)%nat ->
  matmul A (msub B C) = msub (matmul A B) (matmul A C).
Proof.
  intros HA HB HC Hm Hn. apply (@matrix_ext m p); eauto with rect.
  intros i j Hi Hj.
  rewrite (entry_matmul HA (rect_msub C HB Hn) Hn Hi Hj).
  rewrite (entry_msub (matmul A C) (rect_matmul HA HB Hn) Hi Hj).
  rewrite (entry_matmul HA HB Hn Hi Hj), (entry_matmul HA HC Hn Hi Hj).
  rewrite <- sum_upto_minus. apply sum_upto_ext. intros k Hk.
  rewrite (entry_msub C HB Hk Hj). ring.
Qed.

Lemma transpose_msub (m n : nat) (A B : matrix) :
  rect m n A -> rect m n B -> (0 < m)%nat -> (0 < n)%nat ->
  transpose (msub A B) = msub (transpose A) (transpose B).
Proof.
  intros HA HB Hm Hn. apply (@matrix_ext n m); eauto with rect.
  intros i j Hi Hj.
  rewrite (entry_transpose (rect_msub B HA Hm) Hi Hj).
  rewrite (entry_msub (transpose B) (rect_transpose HA Hm) Hi Hj).
  rewrite (entry_msub B HA Hj Hi).
  now rewrite (entry_transpose HA Hi Hj), (entry_transpose HB Hi Hj).
Qed.

(** The array of zeros, and [M - M]. *)
Lemma rect_zeros (m n : nat) : rect m n (zeros m n).
Proof.
  split; [apply repeat_length|]. apply Forall_forall. intros row Hin.
  apply repeat_spec in Hin. subst. apply repeat_length.
Qed.

Lemma entry_zeros (m n i j : nat) : entry (zeros m n) i j = 0.
Proof.
  unfold entry, zeros.
  destruct (Nat.lt_ge_cases i m) as [Hi|Hi].
  - rewrite nth_repeat_lt by assumption.
    destruct (Nat.lt_ge_cases j n) as [Hj|Hj].
    + now rewrite nth_repeat_lt.
    + rewrite nth_overflow; [reflexivity|now rewrite repeat_length].
  - rewrite (nth_overflow (repeat _ m)) by now rewrite repeat_length.
    now destruct j.
Qed.

#[export] Hint Resolve rect_zeros : rect.

Lemma msub_self (m n : nat) (M : matrix) :
  rect m n M -> (0 < m)%nat -> msub M M = zeros m n.
Proof.
  intros HM Hm. apply (@matrix_ext m n); eauto with rect.
  intros i j Hi Hj. rewrite (entry_msub M HM Hi Hj), entry_zeros. ring.
Qed.

(** The Gram matrix of a real array vanishes only for the zero array. *)
Lemma gram_zero (m n : nat) (Z : matrix) :
  rect m n Z -> (0 < m)%nat -> (0 < n)%nat ->
  matmul (transpose Z) Z = zeros n n -> Z = zeros m n.
Proof.
  intros HZ Hm Hn H. apply (@matrix_ext m n); eauto with rect.
  intros i j Hi Hj. rewrite entry_zeros.
  assert (Hjj : entry (matmul (transpose Z) Z) j j = 0)
    by (rewrite H; apply entry_zeros).
  rewrite (entry_matmul (rect_transpose HZ Hm) HZ Hm Hj Hj) in Hjj.
  rewrite (@sum_upto_ext m _ (fun k => entry Z k j * entry Z k j)) in Hjj
    by (intros k Hk; now rewrite (entry_transpose HZ Hj Hk)).
  apply Qc_square_zero.
  apply (@sum_upto_nonneg_zero m (fun k => entry Z k j * entry Z k j));
    try assumption.
  intros k _. apply Qc_square_nonneg.
Qed.
Lemma matmul_zeros_r (m n p : nat) (M : matrix) :
  rect m n M -> (0 < n)%nat -> matmul M (zeros n p) = zeros m p.
Proof.
  intros HM Hn. apply (@matrix_ext m p); eauto with rect.
  intros i j Hi Hj.
  rewrite (entry_matmul HM (rect_zeros n p) Hn Hi Hj), entry_zeros.
  rewrite (@sum_upto_ext n _ (fun _ => 0)); [apply sum_upto_zero|].
  intros k _. rewrite entry_zeros. ring.
Qed.

Lemma matmul_zeros_l (m n p : nat) (M : matrix) :
  rect n p M -> (0 < n)%nat -> matmul (zeros m n) M = zeros m p.
Proof.
  intros HM Hn. apply (@matrix_ext m p); eauto with rect.
  intros i j Hi Hj.
  rewrite (entry_matmul (rect_zeros m n) HM Hn Hi Hj), entry_zeros.
  rewrite (@sum_upto_ext n _ (fun _ => 0)); [apply sum_upto_zero|].
  intros k _. rewrite entry_zeros. ring.
Qed.

Lemma msub_zeros_r (m n : nat) (M : matrix) :
  rect m n M -> (0 < m)%nat -> msub M (zeros m n) = M.
Proof.
  intros HM Hm. apply (@matrix_ext m n); eauto with rect.
  intros i j Hi Hj. rewrite (entry_msub _ HM Hi Hj), entry_zeros. ring.
Qed.

Lemma msub_eq_zeros (m n : nat) (M N : matrix) :
  rect m n M -> rect m n N -> msub M N = zeros m n -> M = N.
Proof.
  intros HM HN H. apply (@matrix_ext m n); try assumption.
  intros i j Hi Hj.
  assert (E : entry (msub M N) i j = 0) by (rewrite H; apply entry_zeros).
  rewrite (entry_msub N HM Hi Hj) in E.
  replace (entry M i j) with (entry M i j - entry N i j + entry N i j) by ring.
  rewrite E. ring.
Qed.

Lemma gram_symmetric (m k : nat) (A : matrix) :
  rect m k A -> (0 < m)%nat -> (0 < k)%nat ->
  symmetric (matmul (transpose A) A).
Proof.
  intros HA Hm Hk. unfold symmetric.
  rewrite (transpose_matmul (rect_transpose HA Hm) HA Hk Hm Hk).
  now rewrite (transpose_involutive HA Hm Hk).
Qed.

Section Projector.

Variables (m k : nat) (A X : matrix).
Hypothesis HA : rect m k A.
Hypothesis Hm : (0 < m)%nat.
Hypothesis Hk : (0 < k)%nat.

Let G := matmul (transpose A) A.

Hypothesis HX : rect k k X.
Hypothesis HGXG : matmul (matmul G X) G = G.

Let E := matmul (matmul A X) (transpose A).
Let P := msub (identity m) E.

Lemma rect_topographies_t : rect k m (transpose A).
Proof. now apply rect_transpose. Qed.

Lemma rect_gram : rect k k G.
Proof. unfold G. eapply rect_matmul; eauto using rect_topographies_t. Qed.

Lemma rect_projected_part : rect m m E.
Proof. pose proof rect_topographies_t. unfold E. eauto with rect. Qed.

(** [A X G = A]: the columns of [A] are fixed by [A (A^T A)^+ A^T]. *)
Lemma gram_inverse_fixes : matmul A (matmul X G) = A.
Proof.
  pose proof rect_topographies_t as HAt. pose proof rect_gram as HG.
  assert (HXG : rect k k (matmul X G)) by eauto with rect.
  set (W := msub (identity k) (matmul X G)).
  assert (HW : rect k k W) by (unfold W; eauto with rect).
  assert (HGW : matmul G W = zeros k k).
  { unfold W.
    rewrite (matmul_msub_r HG (rect_identity k) HXG Hk Hk).
    rewrite (matmul_identity_r HG Hk).
    rewrite <- (matmul_assoc HG HX HG Hk Hk), HGXG.
    now apply msub_self. }
  assert (HZ : matmul A W = zeros m k).
  { apply gram_zero; eauto with rect.
    rewrite (transpose_matmul HA HW Hm Hk Hk).
    rewrite (matmul_assoc (rect_transpose HW Hk) HAt (rect_matmul HA HW Hk) Hk Hm).
    rewrite <- (matmul_assoc HAt HA HW Hm Hk).
    fold G. rewrite HGW.
    apply matmul_zeros_r; eauto with rect. }
  unfold W in HZ.
  rewrite (matmul_msub_r HA (rect_identity k) HXG Hm Hk) in HZ.
  rewrite (matmul_identity_r HA Hk) in HZ.
  symmetry. eapply msub_eq_zeros; eauto with rect.
Qed.

Lemma projector_annihilates : matmul P A = zeros m k.
Proof.
  pose proof rect_topographies_t as HAt. pose proof rect_projected_part as HE.
  pose proof rect_gram as HG. unfold P.
  rewrite (matmul_msub_l (rect_identity m) HE HA Hm Hm).
  rewrite (matmul_identity_l HA Hm).
  unfold E.
  rewrite (matmul_assoc (rect_matmul HA HX Hk) HAt HA Hk Hm).
  fold G.
  rewrite (matmul_assoc HA HX HG Hk Hk).
  rewrite gram_inverse_fixes. now apply msub_self.
Qed.

Lemma projected_part_symmetric : transpose E = E.
Proof.
  pose proof rect_topographies_t as HAt. pose proof rect_gram as HG.
  assert (HXt : rect k k (transpose X)) by eauto with rect.
  assert (HXG : rect k k (matmul X G)) by eauto with rect.
  assert (HAt' : transpose A = matmul G (matmul (transpose X) (transpose A))).
  { rewrite <- gram_inverse_fixes at 1.
    rewrite (transpose_matmul HA HXG Hm Hk Hk).
    rewrite (transpose_matmul HX HG Hk Hk Hk).
    rewrite (gram_symmetric HA Hm Hk : transpose G = G).
    now rewrite (matmul_assoc HG HXt HAt Hk Hk). }
  assert (Et : transpose E = matmul A (matmul (transpose X) (transpose A))).
  { unfold E.
    rewrite (transpose_matmul (rect_matmul HA HX Hk) HAt Hm Hk Hm).
    rewrite (transpose_involutive HA Hm Hk).
    now rewrite (transpose_matmul HA HX Hm Hk Hk). }
  rewrite Et. unfold E.
  rewrite HAt' at 2.
  rewrite <- (matmul_assoc (rect_matmul HA HX Hk) HG
                (rect_matmul HXt HAt Hk) Hk Hk).
  rewrite (matmul_assoc HA HX HG Hk Hk).
  now rewrite gram_inverse_fixes.
Qed.

Lemma projector_symmetric : transpose P = P.
Proof.
  pose proof rect_projected_part as HE. unfold P.
  rewrite (transpose_msub (rect_identity m) HE Hm Hm).
  now rewrite transpose_identity, projected_part_symmetric.
Qed.

Lemma projector_rect : rect m m P.
Proof. unfold P. eauto with rect. Qed.

Lemma projector_idempotent : matmul P P = P.
Proof.
  pose proof rect_topographies_t as HAt. pose proof rect_projected_part as HE. pose proof projector_rect as HP.
  unfold P at 2.
  rewrite (matmul_msub_r HP (rect_identity m) HE Hm Hm).
  rewrite (matmul_identity_r HP Hm).
  unfold E.
  rewrite <- (matmul_assoc HP (rect_matmul HA HX Hk) HAt Hm Hk).
  rewrite <- (matmul_assoc HP HA HX Hm Hk).
  rewrite projector_annihilates.
  rewrite (matmul_zeros_l m HX Hk).
  rewrite (matmul_zeros_l m HAt Hk).
  now apply msub_zeros_r.
Qed.

Lemma compute_proj_value (lib : numlib) :
  lib_pinv lib G = X -> _compute_proj lib A = Ok P.
Proof.
  intros Hpinv. pose proof rect_topographies_t as HAt. pose proof rect_projected_part as HE.
  unfold _compute_proj.
  rewrite (np_dot_ok HAt HA Hk). cbn [bind]. fold G. rewrite Hpinv.
  rewrite (np_dot_ok HA HX Hm). cbn [bind].
  rewrite (np_dot_ok (rect_matmul HA HX Hk) HAt Hm). cbn [bind].
  rewrite (rect_shape0 HA). fold E.
  now rewrite (np_subtract_ok (rect_identity m) HE Hm).
Qed.

End Projector.

(* ================================================================= *)
(** ** Quadratic forms of projections *)

Lemma sqnorm_sum (n : nat) (x : matrix) :
  rect n 1 x -> (0 < n)%nat ->
  sqnorm x = sum_upto n (fun i => entry x i 0 * entry x i 0).
Proof.
  intros Hx Hn. unfold sqnorm.
  rewrite (entry_matmul (rect_transpose Hx Hn) Hx Hn Nat.lt_0_1 Nat.lt_0_1).
  apply sum_upto_ext. intros k Hk.
  now rewrite (entry_transpose Hx Nat.lt_0_1 Hk).
Qed.

Lemma sqnorm_nonneg (n : nat) (x : matrix) :
  rect n 1 x -> (0 < n)%nat -> 0 <= sqnorm x.
Proof.
  intros Hx Hn. rewrite (sqnorm_sum Hx Hn).
  apply sum_upto_nonneg. intros k _. apply Qc_square_nonneg.
Qed.

Lemma sqnorm_zero (n : nat) (x : matrix) :
  rect n 1 x -> (0 < n)%nat -> sqnorm x = 0 -> x = zeros n 1.
Proof.
  intros Hx Hn H. rewrite (sqnorm_sum Hx Hn) in H.
  apply (@matrix_ext n 1); eauto with rect.
  intros i j Hi Hj. assert (j = 0%nat) by lia. subst j.
  rewrite entry_zeros. apply Qc_square_zero.
  apply (@sum_upto_nonneg_zero n (fun i => entry x i 0 * entry x i 0));
    try assumption.
  intros k _. apply Qc_square_nonneg.
Qed.

Section Contraction.

Variables (m : nat) (Q x : matrix).
Hypothesis Hm : (0 < m)%nat.
Hypothesis HQ : rect m m Q.
Hypothesis Hsym : symmetric Q.
Hypothesis Hidem : matmul Q Q = Q.
Hypothesis Hx : rect m 1 x.

Lemma rect_projected : rect m 1 (matmul Q x).
Proof. eauto with rect. Qed.

(** [(Q x)^T (Q x) = x^T (Q x)] *)
Lemma projected_inner :
  matmul (transpose (matmul Q x)) (matmul Q x) = matmul (transpose x) (matmul Q x).
Proof.
  pose proof (rect_transpose Hx Hm) as Hxt.
  rewrite (transpose_matmul HQ Hx Hm Hm Nat.lt_0_1).
  rewrite Hsym.
  rewrite (matmul_assoc Hxt HQ rect_projected Hm Hm).
  rewrite <- (matmul_assoc HQ HQ Hx Hm Hm). now rewrite Hidem.
Qed.

(** [(Q x)^T x = x^T (Q x)] *)
Lemma projected_cross :
  matmul (transpose (matmul Q x)) x = matmul (transpose x) (matmul Q x).
Proof.
  pose proof (rect_transpose Hx Hm) as Hxt.
  rewrite (transpose_matmul HQ Hx Hm Hm Nat.lt_0_1).
  rewrite Hsym. now rewrite (matmul_assoc Hxt HQ Hx Hm Hm).
Qed.

Lemma sqnorm_projected : sqnorm (matmul Q x) = entry (matmul (transpose x) (matmul Q x)) 0 0.
Proof. unfold sqnorm. now rewrite projected_inner. Qed.

(** A symmetric idempotent array does not lengthen a column. *)
Lemma projection_contracts : sqnorm (matmul Q x) <= sqnorm x.
Proof.
  pose proof (rect_transpose Hx Hm) as Hxt.
  pose proof rect_projected as Hy.
  pose proof (rect_transpose Hy Hm) as Hyt.
  set (z := msub x (matmul Q x)).
  assert (Hz : rect m 1 z) by (unfold z; eauto with rect).
  assert (Hnn : 0 <= sqnorm z) by now apply (@sqnorm_nonneg m).
  assert (E : sqnorm z = sqnorm x - sqnorm (matmul Q x)).
  { rewrite sqnorm_projected. unfold sqnorm at 1. unfold z.
    rewrite (transpose_msub Hx Hy Hm Nat.lt_0_1).
    rewrite (matmul_msub_l Hxt Hyt (rect_msub (matmul Q x) Hx Hm)
               Nat.lt_0_1 Hm).
    rewrite (matmul_msub_r Hxt Hx Hy Nat.lt_0_1 Hm).
    rewrite (matmul_msub_r Hyt Hx Hy Nat.lt_0_1 Hm).
    rewrite projected_inner, projected_cross.
    set (a := matmul (transpose x) x).
    set (b := matmul (transpose x) (matmul Q x)).
    assert (Ha : rect 1 1 a) by (unfold a; eauto with rect).
    assert (Hb : rect 1 1 b) by (unfold b; eauto with rect).
    rewrite (entry_msub (msub b b) (rect_msub b Ha Nat.lt_0_1)
               Nat.lt_0_1 Nat.lt_0_1).
    rewrite (entry_msub b Ha Nat.lt_0_1 Nat.lt_0_1).
    rewrite (entry_msub b Hb Nat.lt_0_1 Nat.lt_0_1).
    unfold sqnorm. fold a. ring. }
  rewrite E in Hnn.
  apply Qcle_minus_iff. exact Hnn.
Qed.

End Contraction.
Lemma correlation_form_sqnorm (m r : nat) (x Phi : matrix) :
  rect m 1 x -> rect m r Phi -> (0 < m)%nat -> (0 < r)%nat ->
  entry (correlation_form x Phi) 0 0 = sqnorm (matmul (transpose Phi) x).
Proof.
  intros Hx HPhi Hm Hr. unfold correlation_form, sqnorm.
  rewrite (transpose_matmul (rect_transpose HPhi Hm) Hx Hr Hm Nat.lt_0_1).
  now rewrite (transpose_involutive HPhi Hm Hr).
Qed.

Lemma correlation_form_nonneg (m r : nat) (x Phi : matrix) :
  rect m 1 x -> rect m r Phi -> (0 < m)%nat -> (0 < r)%nat ->
  0 <= entry (correlation_form x Phi) 0 0.
Proof.
  intros Hx HPhi Hm Hr. rewrite (correlation_form_sqnorm Hx HPhi Hm Hr).
  apply (@sqnorm_nonneg r); eauto with rect.
Qed.

Section SubspaceForm.

Variables (m r : nat) (Phi0 P x : matrix).
Hypothesis Hm : (0 < m)%nat.
Hypothesis Hr : (0 < r)%nat.
Hypothesis HPhi0 : rect m r Phi0.
Hypothesis Horth : orthonormal_cols Phi0.
Hypothesis HP : rect m m P.
Hypothesis HPsym : symmetric P.
Hypothesis HPidem : matmul P P = P.
Hypothesis Hx : rect m 1 x.

Let Phi := matmul P Phi0.

Lemma rect_deflated_basis : rect m r Phi.
Proof. unfold Phi. eauto with rect. Qed.

Lemma basis_projector_rect : rect m m (matmul Phi0 (transpose Phi0)).
Proof. eauto with rect. Qed.

Lemma basis_projector_symmetric : symmetric (matmul Phi0 (transpose Phi0)).
Proof.
  unfold symmetric.
  rewrite (transpose_matmul HPhi0 (rect_transpose HPhi0 Hm) Hm Hr Hm).
  now rewrite (transpose_involutive HPhi0 Hm Hr).
Qed.

Lemma basis_projector_idempotent :
  matmul (matmul Phi0 (transpose Phi0)) (matmul Phi0 (transpose Phi0))
  = matmul Phi0 (transpose Phi0).
Proof.
  pose proof (rect_transpose HPhi0 Hm) as Ht.
  rewrite (matmul_assoc HPhi0 Ht basis_projector_rect Hr Hm).
  rewrite <- (matmul_assoc Ht HPhi0 Ht Hm Hr).
  unfold orthonormal_cols in Horth. rewrite Horth.
  rewrite (rect_shape1 HPhi0 Hm).
  now rewrite (matmul_identity_l Ht Hr).
Qed.

Lemma deflated_coordinates :
  matmul (transpose Phi) x = matmul (transpose Phi0) (matmul P x).
Proof.
  unfold Phi.
  rewrite (transpose_matmul HP HPhi0 Hm Hm Hr). rewrite HPsym.
  now rewrite (matmul_assoc (rect_transpose HPhi0 Hm) HP Hx Hm Hm).
Qed.

Lemma coordinates_sqnorm (y : matrix) :
  rect m 1 y ->
  sqnorm (matmul (transpose Phi0) y)
  = sqnorm (matmul (matmul Phi0 (transpose Phi0)) y).
Proof.
  intros Hy. pose proof (rect_transpose HPhi0 Hm) as Ht.
  rewrite (sqnorm_projected Hm basis_projector_rect basis_projector_symmetric
             basis_projector_idempotent Hy).
  unfold sqnorm.
  rewrite (transpose_matmul Ht Hy Hr Hm Nat.lt_0_1).
  rewrite (transpose_involutive HPhi0 Hm Hr).
  rewrite (matmul_assoc (rect_transpose Hy Hm) HPhi0
             (rect_matmul Ht Hy Hm) Hm Hr).
  now rewrite <- (matmul_assoc HPhi0 Ht Hy Hr Hm).
Qed.

Lemma correlation_form_le_sqnorm : entry (correlation_form x Phi) 0 0 <= sqnorm x.
Proof.
  assert (Hy : rect m 1 (matmul P x)) by eauto with rect.
  rewrite (correlation_form_sqnorm Hx rect_deflated_basis Hm Hr).
  rewrite deflated_coordinates.
  rewrite (coordinates_sqnorm Hy).
  eapply Qcle_trans.
  - apply (projection_contracts Hm basis_projector_rect
             basis_projector_symmetric basis_projector_idempotent Hy).
  - apply (projection_contracts Hm HP HPsym HPidem Hx).
Qed.

End SubspaceForm.

(* ================================================================= *)
(** ** Scalar comparisons *)

Lemma Qc_eqb_eq (x y : Qc) : Qc_eqb x y = true <-> x = y.
Proof.
  unfold Qc_eqb. rewrite Qeq_bool_iff. split.
  - apply Qc_is_canon.
  - now intros ->.
Qed.

Lemma Qc_eqb_neq (x y : Qc) : Qc_eqb x y = false <-> x <> y.
Proof.
  rewrite <- Qc_eqb_eq. destruct (Qc_eqb x y); intuition congruence.
Qed.

Lemma Qc_ltb_lt (x y : Qc) : Qc_ltb x y = true <-> x < y.
Proof.
  unfold Qc_ltb, Qclt. rewrite negb_true_iff.
  rewrite <- not_true_iff_false, Qle_bool_iff. split.
  - apply Qnot_le_lt.
  - apply Qlt_not_le.
Qed.

Lemma Qc_ltb_ge (x y : Qc) : Qc_ltb x y = false <-> y <= x.
Proof.
  unfold Qc_ltb, Qcle. rewrite negb_false_iff. apply Qle_bool_iff.
Qed.

Lemma Qc_pos_of_nonneg (x : Qc) : 0 <= x -> x <> 0 -> 0 < x.
Proof.
  intros H Hne. destruct (Qcle_lt_or_eq _ _ H) as [Hlt|Heq]; [assumption|].
  now symmetry in Heq.
Qed.

Lemma Qc_inv_pos (x : Qc) : 0 < x -> 0 < / x.
Proof.
  unfold Qclt, Qcinv, Q2Qc. cbn [this]. rewrite !Qred_correct.
  apply Qinv_lt_0_compat.
Qed.

Lemma Qc_ratio_unit (a b : Qc) : 0 <= a -> a <= b -> b <> 0 -> 0 <= a / b <= 1.
Proof.
  intros Ha Hab Hb.
  assert (Hbpos : 0 < b) by (apply Qc_pos_of_nonneg; [eapply Qcle_trans; eauto|assumption]).
  assert (Hinv : 0 <= / b) by (apply Qclt_le_weak, Qc_inv_pos; assumption).
  unfold Qcdiv. split.
  - replace 0 with (0 * / b) by ring. now apply Qcmult_le_compat_r.
  - replace 1 with (b * / b) by (now apply Qcmult_inv_r).
    now apply Qcmult_le_compat_r.
Qed.

(* ================================================================= *)
(** ** The subspace correlation of a one-column block *)

Lemma subcorr_fixed_value (lib : numlib) (m r : nat) (x Phi : matrix) :
  rect m 1 x -> rect m r Phi -> (0 < m)%nat -> (0 < r)%nat ->
  _compute_subcorr lib x Phi =
  Ok (np_sqrt (lib_sqrt lib)
        (np_divide (entry (correlation_form x Phi) 0 0) (sqnorm x)), [1]).
Proof.
  intros Hx HPhi Hm Hr. unfold _compute_subcorr.
  rewrite (rect_shape1 Hx Hm). cbn [Nat.eqb].
  pose proof (rect_transpose Hx Hm) as Hxt.
  pose proof (rect_transpose HPhi Hm) as HPhit.
  rewrite (np_dot_ok Hxt HPhi Nat.lt_0_1). cbn [bind].
  rewrite (np_dot_ok HPhit Hx Hr). cbn [bind].
  rewrite (np_dot_ok (rect_matmul Hxt HPhi Hm) (rect_matmul HPhit Hx Hm)
             Nat.lt_0_1). cbn [bind].
  rewrite (np_dot_ok Hxt Hx Nat.lt_0_1). cbn [bind].
  reflexivity.
Qed.

Lemma np_sqrt_unit (lib : numlib) (v : Qc) :
  sqrt_keeps_unit lib -> 0 <= v <= 1 ->
  exists s, np_sqrt (lib_sqrt lib) (Fin v) = Fin s /\ 0 <= s <= 1.
Proof.
  intros Hs Hv. exists (lib_sqrt lib v). split; [|now apply Hs].
  cbn [np_sqrt]. destruct Hv as [Hv _].
  apply Qc_ltb_ge in Hv. now rewrite Hv.
Qed.

Lemma subcorr_fixed_unit (lib : numlib) (m r : nat) (x Phi0 P : matrix) :
  (0 < m)%nat -> (0 < r)%nat ->
  rect m 1 x -> rect m r Phi0 -> orthonormal_cols Phi0 ->
  rect m m P -> symmetric P -> matmul P P = P ->
  sqrt_keeps_unit lib ->
  x <> zeros m 1 ->
  exists s, _compute_subcorr lib x (matmul P Phi0) = Ok (Fin s, [1])
            /\ 0 <= s <= 1.
Proof.
  intros Hm Hr Hx HPhi0 Horth HP Hsym Hidem Hsqrt Hnz.
  rewrite (subcorr_fixed_value lib Hx (rect_matmul HP HPhi0 Hm) Hm Hr).
  assert (Hden : sqnorm x <> 0).
  { intros H. apply Hnz. now apply sqnorm_zero. }
  unfold np_divide. apply Qc_eqb_neq in Hden. rewrite Hden.
  apply Qc_eqb_neq in Hden.
  destruct (@np_sqrt_unit lib
              (entry (correlation_form x (matmul P Phi0)) 0 0 / sqnorm x) Hsqrt)
    as [s [Es Hs]].
  - apply Qc_ratio_unit; [| |assumption].
    + apply (correlation_form_nonneg Hx (rect_matmul HP HPhi0 Hm) Hm Hr).
    + now apply (correlation_form_le_sqnorm Hm Hr HPhi0 Horth HP).
  - exists s. now rewrite Es.
Qed.

(** A block of zero norm: the quotient is [0/0]. *)
Lemma subcorr_zero_block (lib : numlib) (m r : nat) (Phi : matrix) :
  rect m r Phi -> (0 < m)%nat -> (0 < r)%nat ->
  _compute_subcorr lib (zeros m 1) Phi = Ok (NaN, [1]).
Proof.
  intros HPhi Hm Hr.
  rewrite (subcorr_fixed_value lib (rect_zeros m 1) HPhi Hm Hr).
  assert (Hnum : entry (correlation_form (zeros m 1) Phi) 0 0 = 0).
  { unfold correlation_form.
    pose proof (rect_transpose HPhi Hm) as HPhit.
    rewrite (matmul_zeros_r 1 HPhit Hm).
    rewrite (@matmul_zeros_r 1 r 1); [apply entry_zeros| |assumption].
    eapply rect_matmul; eauto. apply rect_transpose; eauto with rect. }
  assert (Hden : sqnorm (zeros m 1) = 0).
  { unfold sqnorm. rewrite (@matmul_zeros_r 1 m 1); [apply entry_zeros| |assumption].
    apply rect_transpose; eauto with rect. }
  rewrite Hnum, Hden. reflexivity.
Qed.

(* ================================================================= *)
(** ** The subspace correlation of a free-orientation block *)

Lemma last_nth (T : Type) (l : list T) (d : T) :
  last l d = nth (length l - 1) l d.
Proof.
  induction l as [|a l IH]; [reflexivity|].
  destruct l as [|b l]; [reflexivity|].
  change (last (a :: b :: l) d) with (last (b :: l) d). rewrite IH.
  cbn [length]. replace (S (S (length l)) - 1)%nat with (S (length l)) by lia.
  replace (S (length l) - 1)%nat with (length l) by lia. reflexivity.
Qed.

Lemma last_item_nth (n : nat) (v : vector) :
  length v = S n -> last_item v = Ok (nth n v 0).
Proof.
  intros Hl. unfold last_item.
  pose proof (@rev_nth _ v 0 n ltac:(lia)) as H.
  rewrite Hl in H. replace (S n - S n)%nat with 0%nat in H by lia.
  destruct (rev v) as [|a l] eqn:E.
  - apply (f_equal (@length _)) in E. rewrite length_rev in E. simpl in E. lia.
  - simpl in H. pose proof (rev_involutive v) as Hv.
    rewrite <- Hv. rewrite rev_nth by (rewrite length_rev; lia).
    rewrite length_rev, Hl. replace (S n - S n)%nat with 0%nat by lia.
    now rewrite E.
Qed.

Lemma last_col_ok (n k : nat) (V : matrix) :
  rect n (S k) V -> (0 < n)%nat ->
  exists c, last_col V = Ok c /\ length c = n /\
            forall i, (i < n)%nat -> nth i c 0 = entry V i k.
Proof.
  intros HV Hn. unfold last_col. rewrite (rect_shape1 HV Hn). cbn [Nat.eqb].
  eexists. split; [reflexivity|]. split.
  - rewrite length_map. apply HV.
  - intros i Hi. unfold entry.
    rewrite (nth_indep _ 0 (last [] 0)) by (rewrite length_map; destruct HV; lia).
    rewrite (map_nth (fun row => last row 0) V [] i).
    rewrite last_nth. rewrite (rect_row HV Hi).
    now replace (S k - 1)%nat with k by lia.
Qed.

Lemma projected_gram_rect (m r w : nat) (Ug Phi : matrix) :
  rect m w Ug -> rect m r Phi -> (0 < m)%nat -> (0 < r)%nat ->
  rect w w (projected_gram Ug Phi).
Proof. intros. unfold projected_gram. eauto 6 with rect. Qed.

Lemma projected_gram_symmetric (m r w : nat) (Ug Phi : matrix) :
  rect m w Ug -> rect m r Phi -> (0 < m)%nat -> (0 < r)%nat -> (0 < w)%nat ->
  symmetric (projected_gram Ug Phi).
Proof.
  intros HU HPhi Hm Hr Hw. unfold symmetric, projected_gram.
  pose proof (rect_transpose HU Hm) as HUt.
  pose proof (rect_transpose HPhi Hm) as HPt.
  rewrite (transpose_matmul (rect_matmul HUt HPhi Hm) (rect_matmul HPt HU Hm) Hw Hr Hw).
  rewrite (transpose_matmul HPt HU Hr Hm Hw).
  rewrite (transpose_matmul HUt HPhi Hw Hm Hr).
  now rewrite (transpose_involutive HU Hm Hw), (transpose_involutive HPhi Hm Hr).
Qed.

(** The array of the claim, [Ug^T Phi Phi^T Ug], is the one the code forms. *)
Lemma projected_gram_product (m r w : nat) (Ug Phi : matrix) :
  rect m w Ug -> rect m r Phi -> (0 < m)%nat -> (0 < r)%nat ->
  projected_gram Ug Phi
  = matmul (matmul (matmul (transpose Ug) Phi) (transpose Phi)) Ug.
Proof.
  intros HU HPhi Hm Hr. unfold projected_gram.
  pose proof (rect_transpose HU Hm) as HUt.
  pose proof (rect_transpose HPhi Hm) as HPt.
  now rewrite (matmul_assoc (rect_matmul HUt HPhi Hm) HPt HU Hr Hm).
Qed.

(** What the second branch of [_compute_subcorr] returns when the library
    results have the documented shapes. *)
Lemma subcorr_free_shape (lib : numlib) (m r n : nat) (Gk Phi : matrix) :
  (0 < m)%nat -> (0 < r)%nat -> shape1 Gk <> 1%nat -> rect m r Phi ->
  rect m (S n) (lib_qr lib Gk) ->
  length (fst (lib_eigh lib (projected_gram (lib_qr lib Gk) Phi))) = S n ->
  rect (S n) (S n) (snd (lib_eigh lib (projected_gram (lib_qr lib Gk) Phi))) ->
  exists ori,
    _compute_subcorr lib Gk Phi
    = Ok (np_sqrt (lib_sqrt lib)
            (Fin (nth n (fst (lib_eigh lib (projected_gram (lib_qr lib Gk) Phi))) 0)),
          ori)
    /\ length ori = S n
    /\ forall i, (i < S n)%nat ->
         nth i ori 0
         = entry (snd (lib_eigh lib (projected_gram (lib_qr lib Gk) Phi))) i n.
Proof.
  intros Hm Hr Hwide HPhi HUg Hvals HV.
  destruct (last_col_ok HV (Nat.lt_0_succ n)) as [c [Ec [Hlen Hc']]].
  exists c. split; [|now split].
  unfold _compute_subcorr.
  apply Nat.eqb_neq in Hwide. rewrite Hwide.
  pose proof (rect_transpose HUg Hm) as HUt.
  pose proof (rect_transpose HPhi Hm) as HPt.
  rewrite (np_dot_ok HUt HPhi (Nat.lt_0_succ n)). cbn [bind].
  rewrite (np_dot_ok HPt HUg Hr). cbn [bind].
  rewrite (np_dot_ok (rect_matmul HUt HPhi Hm) (rect_matmul HPt HUg Hm)
             (Nat.lt_0_succ n)). cbn [bind].
  fold (projected_gram (lib_qr lib Gk) Phi).
  rewrite (surjective_pairing (lib_eigh lib (projected_gram (lib_qr lib Gk) Phi))).
  rewrite (@last_item_nth n _ Hvals). cbn [bind].
  rewrite Ec. cbn [bind]. reflexivity.
Qed.

(* ================================================================= *)
(** ** Loops that may raise *)

Lemma for_each_app (S I : Type) (body : S -> I -> result S)
      (xs ys : list I) (s : S) :
  for_each body (xs ++ ys) s = (s' <- for_each body xs s ;; for_each body ys s').
Proof.
  revert s. induction xs as [|x xs IH]; intros s; simpl; [reflexivity|].
  destruct (body s x); simpl; [apply IH|reflexivity].
Qed.

(** A property kept by every pass of the body holds when the loop ends. *)
Lemma for_each_invariant (S I : Type) (body : S -> I -> result S)
      (Inv : S -> Prop) (items : list I) :
  (forall s i s', In i items -> Inv s -> body s i = Ok s' -> Inv s') ->
  forall s s', Inv s -> for_each body items s = Ok s' -> Inv s'.
Proof.
  induction items as [|i items IH]; intros Hstep s s' Hs Hrun; simpl in Hrun.
  - injection Hrun as <-. exact Hs.
  - destruct (body s i) as [s1|e] eqn:E; simpl in Hrun; [|discriminate].
    apply (IH (fun s i s' Hin => Hstep s i s' (or_intror Hin)) s1 s');
      [|assumption].
    apply (Hstep s i s1); [now left|assumption|assumption].
Qed.

(** A loop whose body cannot raise while a property holds does not raise. *)
Lemma for_each_total (S I : Type) (body : S -> I -> result S)
      (Inv : S -> Prop) (items : list I) :
  (forall s i, In i items -> Inv s -> exists s', body s i = Ok s' /\ Inv s') ->
  forall s, Inv s -> exists s', for_each body items s = Ok s' /\ Inv s'.
Proof.
  induction items as [|i items IH]; intros Hstep s Hs; simpl.
  - now exists s.
  - destruct (Hstep s i (or_introl eq_refl) Hs) as [s1 [E H1]].
    rewrite E. simpl.
    apply IH; [|assumption]. intros s2 j Hj. apply Hstep. now right.
Qed.

(* ================================================================= *)
(** ** The order of [>] on float64 values *)

Lemma np_gt_irrefl (a : npfloat) : np_gt a a = false.
Proof.
  destruct a; simpl; try reflexivity.
  apply Qc_ltb_ge, Qcle_refl.
Qed.

Lemma np_gt_trans (a b c : npfloat) :
  np_gt a b = true -> np_gt b c = true -> np_gt a c = true.
Proof.
  destruct a, b, c; simpl; try congruence.
  rewrite !Qc_ltb_lt. intros H1 H2. eapply Qclt_trans; eauto.
Qed.

Lemma np_gt_below (a b c : npfloat) :
  np_gt a b = true -> np_gt c b = false -> np_gt c a = false.
Proof.
  destruct a, b, c; simpl; try congruence.
  rewrite Qc_ltb_lt, !Qc_ltb_ge. intros H1 H2.
  apply Qclt_le_weak. eapply Qcle_lt_trans; eauto.
Qed.

Lemma np_gt_above (a b c : npfloat) :
  np_gt a b = true -> np_gt c b = false -> c = NaN \/ np_gt a c = true.
Proof.
  destruct a, b, c; simpl; try congruence; auto.
  rewrite !Qc_ltb_lt, Qc_ltb_ge. intros H1 H2.
  right. eapply Qcle_lt_trans; eauto.
Qed.

Lemma np_gt_nan_r (a : npfloat) : np_gt a NaN = false.
Proof. now destruct a. Qed.

(* ================================================================= *)
(** ** Assignment by index *)

Lemma length_set_nth (T : Type) (k : nat) (x : T) (l : list T) :
  length (set_nth k x l) = length l.
Proof.
  revert k. induction l as [|y l IH]; intros [|k]; simpl; auto.
Qed.

Lemma nth_set_nth_same (T : Type) (k : nat) (x d : T) (l : list T) :
  (k < length l)%nat -> nth k (set_nth k x l) d = x.
Proof.
  revert k. induction l as [|y l IH]; intros [|k] H; simpl in *; try lia; auto.
  apply IH. lia.
Qed.

Lemma nth_set_nth_other (T : Type) (k j : nat) (x d : T) (l : list T) :
  j <> k -> nth j (set_nth k x l) d = nth j l d.
Proof.
  revert k j. induction l as [|y l IH]; intros [|k] [|j] H; simpl; auto; try lia.
Qed.

Lemma set_nth_twice (T : Type) (k : nat) (x y : T) (l : list T) :
  set_nth k x (set_nth k y l) = set_nth k x l.
Proof.
  revert k. induction l as [|z l IH]; intros [|k]; simpl; auto.
  now rewrite IH.
Qed.

Lemma Forall_set_nth (T : Type) (Q : T -> Prop) (k : nat) (x : T) (l : list T) :
  Forall Q l -> Q x -> Forall Q (set_nth k x l).
Proof.
  intros Hl Hx. revert k. induction Hl as [|y l Hy Hl IH]; intros [|k]; simpl; auto.
Qed.

(* ================================================================= *)
(** ** Sorting *)

Lemma insert_sorted_perm (x : Z) (l : list Z) :
  Permutation (insert_sorted x l) (x :: l).
Proof.
  induction l as [|y l IH]; simpl; [reflexivity|].
  destruct (x <=? y)%Z; [reflexivity|].
  rewrite IH. apply perm_swap.
Qed.

Lemma np_sort_perm (l : list Z) : Permutation (np_sort l) l.
Proof.
  induction l as [|x l IH]; simpl; [reflexivity|].
  rewrite insert_sorted_perm. now constructor.
Qed.

Lemma insert_sorted_sorted (x : Z) (l : list Z) :
  Sorted Z.le l -> Sorted Z.le (insert_sorted x l).
Proof.
  induction 1 as [|y l Hl IH Hhd]; simpl; [repeat constructor|].
  destruct (Z.leb_spec x y).
  - constructor; [now constructor|]. now constructor.
  - constructor; [assumption|].
    destruct l as [|z l]; simpl in *.
    + constructor. lia.
    + destruct (Z.leb_spec x z); constructor; try lia.
      now inversion Hhd.
Qed.

Lemma np_sort_sorted (l : list Z) : Sorted Z.le (np_sort l).
Proof.
  induction l as [|x l IH]; simpl; [constructor|].
  now apply insert_sorted_sorted.
Qed.

Lemma np_sort_length (l : list Z) : length (np_sort l) = length l.
Proof. apply Permutation_length, np_sort_perm. Qed.

Lemma np_sort_Forall (Q : Z -> Prop) (l : list Z) :
  Forall Q l -> Forall Q (np_sort l).
Proof.
  intros H. eapply Permutation_Forall; [|exact H].
  symmetry. apply np_sort_perm.
Qed.

(* ================================================================= *)
(** ** One pass over the candidates *)

Lemma length_put_col (k : nat) (v : vector) (M : matrix) :
  length v = length M -> length (put_col k v M) = length M.
Proof.
  intros H. unfold put_col. rewrite length_map, length_combine. lia.
Qed.

Lemma put_col_twice (k : nat) (u v : vector) (M : matrix) :
  length v = length M -> put_col k u (put_col k v M) = put_col k u M.
Proof.
  unfold put_col. revert u v.
  induction M as [|row M IH]; intros u v Hv; [reflexivity|].
  destruct v as [|b v]; [discriminate|].
  destruct u as [|a u]; [reflexivity|].
  simpl. rewrite set_nth_twice. f_equal. apply IH. simpl in Hv. lia.
Qed.

Lemma shape1_put_col (k : nat) (v : vector) (M : matrix) :
  length v = length M -> shape1 (put_col k v M) = shape1 M.
Proof.
  unfold shape1, put_col.
  destruct M as [|row M], v as [|a v]; simpl; try discriminate; auto.
  intros _. apply length_set_nth.
Qed.

Lemma rect_put_col (m n k : nat) (v : vector) (M : matrix) :
  rect m n M -> length v = m -> rect m n (put_col k v M).
Proof.
  intros [Hl Hr] Hv. split.
  - rewrite length_put_col; congruence.
  - unfold put_col. apply Forall_forall. intros row Hin.
    apply in_map_iff in Hin. destruct Hin as [[row0 a] [<- Hin]].
    apply in_combine_l in Hin. cbn [fst snd]. rewrite length_set_nth.
    rewrite Forall_forall in Hr. now apply Hr.
Qed.

Lemma set_col_inv (k : nat) (v : vector) (M M' : matrix) :
  set_col k v M = Ok M' ->
  M' = put_col k v M /\ length v = length M /\ (k < shape1 M)%nat.
Proof.
  unfold set_col.
  destruct (Nat.ltb_spec k (shape1 M)) as [Hk|Hk]; simpl; [|discriminate].
  destruct (Nat.eqb_spec (length v) (shape0 M)) as [Hv|Hv]; simpl; [|discriminate].
  intros E. injection E as <-. auto.
Qed.

Lemma set_col_ok (k : nat) (v : vector) (M : matrix) :
  length v = length M -> (k < shape1 M)%nat -> set_col k v M = Ok (put_col k v M).
Proof.
  intros Hv Hk. unfold set_col.
  destruct (Nat.ltb_spec k (shape1 M)) as [_|Hk']; [|lia]. simpl.
  unfold shape0. rewrite Hv, Nat.eqb_refl. reflexivity.
Qed.

(** Assigning a column twice keeps the second assignment. *)
Lemma set_col_twice (k : nat) (u v : vector) (M M1 M2 : matrix) :
  set_col k v M = Ok M1 -> set_col k u M1 = Ok M2 -> set_col k u M = Ok M2.
Proof.
  intros E1 E2.
  apply set_col_inv in E1. destruct E1 as (-> & Hv & Hk).
  apply set_col_inv in E2. destruct E2 as (-> & Hu & _).
  rewrite length_put_col in Hu by assumption.
  rewrite put_col_twice by assumption. now apply set_col_ok.
Qed.

Section Scan.

Variables (lib : numlib) (n_orient : nat) (G_proj phi_sig_proj : matrix) (k : nat).

Let c := candidate_subcorr lib n_orient G_proj phi_sig_proj.
Let body := scan_body lib n_orient G_proj phi_sig_proj k.

(** One candidate: it replaces the running best only when its
    correlation compares strictly greater. *)
Lemma scan_body_inv (s s' : scan_state) (i : nat) :
  body s i = Ok s' ->
  exists ori_i,
    _compute_subcorr lib (block n_orient G_proj i) phi_sig_proj = Ok (c i, ori_i) /\
    scan_ori s' = Some ori_i /\
    if np_gt (c i) (subcorr_max s) then
      exists column,
        np_dot_vec (block n_orient G_proj i) ori_i = Ok column /\
        set_col k column (scan_A s) = Ok (scan_A s') /\
        subcorr_max s' = c i /\
        scan_active_set s' = set_nth k (Z.of_nat i) (scan_active_set s)
    else
      subcorr_max s' = subcorr_max s /\
      scan_active_set s' = scan_active_set s /\
      scan_A s' = scan_A s.
Proof.
  unfold body, scan_body, c, candidate_subcorr.
  destruct (_compute_subcorr lib (block n_orient G_proj i) phi_sig_proj)
    as [[ci oi]|e]; cbn [bind]; [|discriminate].
  intros H. exists oi. split; [reflexivity|].
  destruct (np_gt ci (subcorr_max s)).
  - destruct (np_dot_vec (block n_orient G_proj i) oi) as [col|e];
      cbn [bind] in H; [|discriminate].
    destruct (set_col k col (scan_A s)) as [A'|e] eqn:EA;
      cbn [bind] in H; [|discriminate].
    injection H as <-. cbn. split; [reflexivity|].
    exists col. auto.
  - injection H as <-. cbn. auto.
Qed.

(** The pass from a running maximum [b]: [scan_outcome]. *)
Lemma scan_invariant (s0 : scan_state) (n : nat) (s' : scan_state) :
  for_each body (seq 0 n) s0 = Ok s' ->
  scan_outcome lib n_orient G_proj phi_sig_proj k
               (subcorr_max s0) (scan_active_set s0) (scan_A s0) n s'.
Proof.
  revert s'. induction n as [|n IH]; intros s' Hrun.
  - simpl in Hrun. injection Hrun as <-. left.
    repeat split; auto. intros j Hj. lia.
  - rewrite seq_S, for_each_app in Hrun. simpl in Hrun.
    destruct (for_each body (seq 0 n) s0) as [s1|e]; cbn [bind] in Hrun;
      [|discriminate].
    destruct (body s1 n) as [s2|e] eqn:E; cbn [bind] in Hrun; [|discriminate].
    injection Hrun as <-.
    specialize (IH s1 eq_refl).
    destruct (scan_body_inv _ _ E) as [on [Ec [_ Hstep]]].
    fold c in Ec.
    unfold scan_outcome in *. fold c in IH |- *.
    destruct IH as [(Hb & Has & HA & Hlow)
                   |(w & ow & colw & Hw & Ecw & Edw & Hb & Has & HA & Hgt & Hmax & Hfirst)].
    + (* nothing selected so far *)
      rewrite Hb in Hstep.
      destruct (np_gt (c n) (subcorr_max s0)) eqn:Egt.
      * destruct Hstep as (col & Ed & EA & Hb' & Has').
        right. exists n, on, col.
        repeat split; auto; try congruence.
        -- intros j Hj. destruct (Nat.eq_dec j n) as [->|Hne].
           ++ apply np_gt_irrefl.
           ++ eapply np_gt_below; [exact Egt|apply Hlow; lia].
        -- intros j Hj. eapply np_gt_above; [exact Egt|apply Hlow; lia].
      * destruct Hstep as (Hb' & Has' & HA').
        left. repeat split; try congruence.
        intros j Hj. destruct (Nat.eq_dec j n) as [->|Hne]; [assumption|].
        apply Hlow. lia.
    + (* [w] is the best so far *)
      rewrite Hb in Hstep.
      destruct (np_gt (c n) (c w)) eqn:Egt.
      * destruct Hstep as (col & Ed & EA & Hb' & Has').
        right. exists n, on, col.
        repeat split; auto; try congruence.
        -- rewrite Has', Has. apply set_nth_twice.
        -- eapply set_col_twice; eauto.
        -- eapply np_gt_trans; eauto.
        -- intros j Hj. destruct (Nat.eq_dec j n) as [->|Hne].
           ++ apply np_gt_irrefl.
           ++ eapply np_gt_below; [exact Egt|apply Hmax; lia].
        -- intros j Hj. eapply np_gt_above; [exact Egt|apply Hmax; lia].
      * destruct Hstep as (Hb' & Has' & HA').
        right. exists w, ow, colw.
        repeat split; auto; try congruence.
        intros j Hj. destruct (Nat.eq_dec j n) as [->|Hne]; [assumption|].
        apply Hmax. lia.
Qed.

End Scan.

(* ================================================================= *)
(** ** The greedy loop does not raise *)

Lemma rect_cols (m N lo hi : nat) (G : matrix) :
  rect m N G -> (lo <= hi)%nat -> (hi <= N)%nat -> rect m (hi - lo) (cols lo hi G).
Proof.
  intros [Hl Hr] Hlo Hhi. split.
  - unfold cols. now rewrite length_map.
  - unfold cols. apply Forall_forall. intros row Hin.
    apply in_map_iff in Hin. destruct Hin as [row0 [<- Hin]].
    rewrite Forall_forall in Hr. specialize (Hr row0 Hin).
    rewrite length_firstn, length_skipn. lia.
Qed.

Lemma block_in_range (N w i : nat) :
  (0 < w)%nat -> (i < N / w)%nat -> (w * i + w <= N)%nat.
Proof.
  intros Hw Hi.
  pose proof (Nat.Div0.mul_div_le N w) as H.
  assert (w * (i + 1) <= w * (N / w))%nat by (apply Nat.mul_le_mono_l; lia).
  lia.
Qed.

Lemma rect_block (m N w i : nat) (G : matrix) :
  rect m N G -> (0 < w)%nat -> (i < N / w)%nat -> rect m w (block w G i).
Proof.
  intros HG Hw Hi. unfold block.
  pose proof (@block_in_range N w i Hw Hi).
  replace w with (w * i + w - w * i)%nat at 1 by lia.
  apply (@rect_cols m N); [assumption|lia|assumption].
Qed.

Lemma rect_first_cols (m n k : nat) (M : matrix) :
  rect m n M -> (k <= n)%nat -> rect m k (first_cols k M).
Proof.
  intros [Hl Hr] Hk. split.
  - unfold first_cols. now rewrite length_map.
  - unfold first_cols. apply Forall_forall. intros row Hin.
    apply in_map_iff in Hin. destruct Hin as [row0 [<- Hin]].
    rewrite Forall_forall in Hr. specialize (Hr row0 Hin).
    rewrite length_firstn. lia.
Qed.

Lemma length_matvec (M : matrix) (v : vector) : length (matvec M v) = length M.
Proof. unfold matvec. apply length_map. Qed.

Lemma np_dot_vec_ok (m n : nat) (M : matrix) (v : vector) :
  rect m n M -> (0 < m)%nat -> length v = n -> np_dot_vec M v = Ok (matvec M v).
Proof.
  intros HM Hm Hv. unfold np_dot_vec.
  now rewrite (rect_shape1 HM Hm), Hv, Nat.eqb_refl.
Qed.

Lemma compute_proj_ok (lib : numlib) (m k : nat) (A : matrix) :
  rect m k A -> (0 < m)%nat -> (0 < k)%nat -> pinv_keeps_shape lib ->
  exists P, _compute_proj lib A = Ok P /\ rect m m P.
Proof.
  intros HA Hm Hk Hpinv.
  pose proof (rect_transpose HA Hm) as HAt.
  pose proof (Hpinv _ _ (rect_matmul HAt HA Hm)) as HX.
  eexists. split.
  - apply (compute_proj_value HA Hm Hk HX lib eq_refl).
  - eauto with rect.
Qed.

(** A candidate's correlation can be computed, and its orientation has one
    entry per column of the block. *)
Lemma block_subcorr_ok (lib : numlib) (n_orient m N r i : nat) (G Phi : matrix) :
  (0 < m)%nat -> (0 < r)%nat -> rect m N G -> rect m r Phi ->
  mode_ok lib n_orient m (N / n_orient) -> (i < N / n_orient)%nat ->
  exists c o, _compute_subcorr lib (block n_orient G i) Phi = Ok (c, o)
              /\ length o = n_orient.
Proof.
  intros Hm Hr HG HPhi [->|(-> & Hm3 & _ & Hqr & Heigh)] Hi.
  - pose proof (@rect_block m N 1 i G HG Nat.lt_0_1 Hi) as HB.
    rewrite (subcorr_fixed_value lib HB HPhi Hm Hr). eauto.
  - assert (H3 : (0 < 3)%nat) by lia.
    pose proof (@rect_block m N 3 i G HG H3 Hi) as HB.
    pose proof (Hqr _ _ _ Hm3 HB) as HU.
    destruct (Heigh _ _ (projected_gram_rect HU HPhi Hm Hr)) as [Hvals HV].
    destruct (@subcorr_free_shape lib m r 2 (block 3 G i) Phi Hm Hr) as [o [E [Hlen _]]];
      try assumption.
    + rewrite (rect_shape1 HB Hm). lia.
    + rewrite E. eauto.
Qed.

Section LoopTotal.

Variables (lib : numlib) (n_orient n_sources m N r : nat) (G phi_sig : matrix).
Hypothesis Hm : (0 < m)%nat.
Hypothesis Hr : (0 < r)%nat.
Hypothesis HG : rect m N G.
Hypothesis HPhi : rect m r phi_sig.
Hypothesis Hmode : mode_ok lib n_orient m (N / n_orient).
Hypothesis Hpinv : pinv_keeps_shape lib.

Let ncand := (N / n_orient)%nat.

Lemma scan_body_total (Gp Pp : matrix) (k : nat) (s : scan_state) (i : nat) :
  rect m N Gp -> rect m r Pp -> (k < n_sources)%nat -> (i < ncand)%nat ->
  scan_ok m n_sources ncand s ->
  exists s', scan_body lib n_orient Gp Pp k s i = Ok s'
             /\ scan_ok m n_sources ncand s' /\ ori_ok n_orient (scan_ori s').
Proof.
  intros HGp HPp Hk Hi (HA & Hlen & Hall).
  assert (Hw : (0 < n_orient)%nat) by (destruct Hmode as [Hn|(Hn & _)]; lia).
  destruct (block_subcorr_ok Hm Hr HGp HPp Hmode Hi) as (c & o & E & Ho).
  pose proof (@rect_block m N n_orient i Gp HGp Hw Hi) as HB.
  unfold scan_body. rewrite E. cbn [bind].
  destruct (np_gt c (subcorr_max s)).
  - assert (Hcol : length (matvec (block n_orient Gp i) o) = m)
      by (rewrite length_matvec; apply HB).
    rewrite (@np_dot_vec_ok m n_orient _ o HB Hm Ho). cbn [bind].
    rewrite set_col_ok.
    + cbn [bind]. eexists. split; [reflexivity|].
      split; [|cbn [scan_ori]; exists o; auto].
      unfold scan_ok. cbn [scan_A scan_active_set].
      split; [now apply rect_put_col|].
      split; [now rewrite length_set_nth|].
      apply Forall_set_nth; [assumption|]. right. lia.
    + rewrite Hcol. symmetry. apply HA.
    + rewrite (rect_shape1 HA Hm). exact Hk.
  - eexists. split; [reflexivity|].
    split; [|cbn [scan_ori]; exists o; auto].
    unfold scan_ok. cbn [scan_A scan_active_set]. auto.
Qed.

Lemma scan_total (Gp Pp : matrix) (k : nat) (items : list nat) (s : scan_state) :
  rect m N Gp -> rect m r Pp -> (k < n_sources)%nat ->
  (forall i, In i items -> (i < ncand)%nat) ->
  scan_ok m n_sources ncand s ->
  exists s', for_each (scan_body lib n_orient Gp Pp k) items s = Ok s'
             /\ scan_ok m n_sources ncand s'
             /\ (items <> [] -> ori_ok n_orient (scan_ori s'))
             /\ (items = [] -> scan_ori s' = scan_ori s).
Proof.
  intros HGp HPp Hk. revert s.
  induction items as [|i items IH]; intros s Hitems Hs.
  - exists s. simpl. split; [reflexivity|]. split; [assumption|].
    split; [intros H; now elim H|reflexivity].
  - destruct (@scan_body_total Gp Pp k s i HGp HPp Hk
                (Hitems i (or_introl eq_refl)) Hs) as (s1 & E & Hs1 & Ho1).
    destruct (IH s1 (fun j Hj => Hitems j (or_intror Hj)) Hs1)
      as (s' & E' & Hs' & Hne & Hemp).
    exists s'. simpl. rewrite E. cbn [bind].
    split; [assumption|]. split; [assumption|]. split; [|discriminate].
    intros _. destruct items as [|j items].
    + now rewrite (Hemp eq_refl).
    + apply Hne. discriminate.
Qed.

Lemma round_body_total (s : loop_state) (k : nat) :
  (k < n_sources)%nat -> round_ok m N r n_sources ncand s ->
  exists s', round_body lib n_orient G phi_sig s k = Ok s' /\ round_ok m N r n_sources ncand s'.
Proof.
  intros Hk (HA & Hlen & Hall & HGp & HPp).
  unfold round_body.
  rewrite (rect_shape1 HG Hm). fold ncand.
  destruct (@scan_total (G_proj s) (phi_sig_proj s) k (seq 0 ncand)
              {| subcorr_max := Fin (qz (-1));
                 scan_active_set := active_set s;
                 scan_A := A s;
                 scan_ori := ori s |} HGp HPp Hk)
    as (found & E & (HA' & Hlen' & Hall') & Hori & _).
  { intros i Hi. apply in_seq in Hi. lia. }
  { unfold scan_ok. cbn [scan_A scan_active_set]. auto. }
  rewrite E. cbn [bind].
  assert (Hlog : log_ori n_orient (scan_ori found) = Ok tt).
  { unfold log_ori. destruct Hmode as [Hn|(Hn & _ & Hc & _)].
    - now rewrite Hn.
    - destruct Hori as (v & Ev & Hv).
      + fold ncand in Hc. destruct ncand; [lia|discriminate].
      + rewrite Ev, Hv, Hn. reflexivity. }
  rewrite Hlog. cbn [bind].
  assert (HA1 : rect m (k + 1) (first_cols (k + 1) (scan_A found)))
    by (apply (rect_first_cols HA'); lia).
  destruct (@compute_proj_ok lib m (k + 1) _ HA1 Hm ltac:(lia) Hpinv)
    as (P & EP & HP).
  rewrite EP. cbn [bind].
  rewrite (np_dot_ok HP HG Hm). cbn [bind].
  rewrite (np_dot_ok HP HPhi Hm). cbn [bind].
  eexists. split; [reflexivity|]. cbn.
  repeat split; try assumption; try apply HA'; eauto with rect.
  all: eapply rect_matmul; eauto.
Qed.

(** All [n_sources] rounds run, whatever the number of candidates. *)
Lemma greedy_loop_total :
  exists s, greedy_loop lib n_orient n_sources G phi_sig = Ok s /\ round_ok m N r n_sources ncand s.
Proof.
  unfold greedy_loop.
  apply (@for_each_total _ _ (round_body lib n_orient G phi_sig)
                          (round_ok m N r n_sources ncand)).
  - intros s k Hk Hs. apply in_seq in Hk. apply round_body_total; [lia|assumption].
  - unfold round_ok, initial_state.
    cbn [A active_set G_proj phi_sig_proj]. rewrite (rect_shape0 HG).
    split; [apply rect_zeros|]. split; [apply repeat_length|].
    split; [|split; assumption].
    apply Forall_forall. intros e Hin. apply repeat_spec in Hin. now left.
Qed.

End LoopTotal.

(* ================================================================= *)
(** ** The exact instance *)

Lemma vec_eqb_eq (u v : vector) : vec_eqb u v = true -> u = v.
Proof.
  revert v. induction u as [|a u IH]; intros [|b v] H; simpl in H;
    try discriminate; [reflexivity|].
  apply andb_true_iff in H. destruct H as [H1 H2].
  apply Qc_eqb_eq in H1. subst. f_equal. now apply IH.
Qed.

Lemma mat_eqb_eq (M N : matrix) : mat_eqb M N = true -> M = N.
Proof.
  revert N. induction M as [|r M IH]; intros [|s N] H; simpl in H;
    try discriminate; [reflexivity|].
  apply andb_true_iff in H. destruct H as [H1 H2].
  apply vec_eqb_eq in H1. subst. f_equal. now apply IH.
Qed.

Lemma exact_pinv_keeps_shape : pinv_keeps_shape exact_lib.
Proof.
  intros M n HM. cbn [lib_pinv exact_lib]. unfold diag_pinv.
  rewrite (rect_shape0 HM). destruct n as [|n].
  - split; [reflexivity|constructor].
  - rewrite (rect_shape1 HM) by lia. apply rect_tabulate.
Qed.

Lemma exact_root_unit : sqrt_keeps_unit exact_lib.
Proof.
  intros v [H0 H1]. cbn [lib_sqrt exact_lib]. unfold exact_root.
  unfold Qcle in *. cbn [this Q2Qc] in *. rewrite !Qred_correct in *.
  destruct v as [[n d] Hc]. cbn [this Qnum Qden] in *.
  unfold Qle in *. cbn [Qnum Qden] in *.
  assert (Hn : (0 <= n)%Z) by lia.
  assert (Hnd : (n <= Z.pos d)%Z) by lia.
  pose proof (Z.sqrt_nonneg n).
  pose proof (Z.sqrt_le_mono _ _ Hnd) as Hs.
  change (Z.sqrt (Z.pos d)) with (Z.pos (Pos.sqrt d)) in Hs.
  split; lia.
Qed.

Lemma exact_qr_keeps_shape : qr_keeps_shape exact_lib.
Proof.
  intros G m w Hw HG. cbn [lib_qr exact_lib]. unfold axis_qr.
  rewrite (rect_shape0 HG). destruct m as [|m].
  - replace w with 0%nat by lia. split; [reflexivity|constructor].
  - rewrite (rect_shape1 HG) by lia. apply rect_tabulate.
Qed.

Lemma length_insert_by (key : nat -> Qc) (x : nat) (l : list nat) :
  length (insert_by key x l) = S (length l).
Proof.
  induction l as [|y l IH]; simpl; [reflexivity|].
  destruct (Qc_ltb (key x) (key y)); simpl; congruence.
Qed.

Lemma length_ascending_order (key : nat -> Qc) (n : nat) :
  length (ascending_order key n) = n.
Proof.
  unfold ascending_order.
  assert (H : forall items acc,
             length (fold_left (fun acc i => insert_by key i acc) items acc)
             = (length items + length acc)%nat).
  { induction items as [|i items IH]; intros acc; simpl; [reflexivity|].
    rewrite IH, length_insert_by. lia. }
  rewrite H, length_seq. simpl. lia.
Qed.

Lemma exact_eigh_keeps_shape : eigh_keeps_shape exact_lib.
Proof.
  intros M n HM. cbn [lib_eigh exact_lib]. unfold diag_eigh.
  rewrite (rect_shape0 HM). cbn [fst snd]. split.
  - now rewrite length_map, length_ascending_order.
  - apply rect_tabulate.
Qed.

(** *** The instance on the arguments of the runs

    Each library call met on the inputs above returns what the library's
    contract determines: the pseudoinverse of the Gram matrices, the
    eigendecomposition of the diagonal arrays, the roots of 0 and 1, and
    the QR factor of the blocks. *)

Ltac by_array_test := apply mat_eqb_eq; vm_compute; reflexivity.

Ltac penrose_by_test :=
  unfold moore_penrose, symmetric;
  repeat split; try by_array_test; repeat constructor.

Ltac below n i :=
  match n with
  | O => exfalso; lia
  | S ?n' => destruct i as [|i]; [|below n' i]
  end.

Ltac eigh_by_cases n :=
  unfold eigh_contract; cbn [shape0 zmat map length identity tabulate seq];
  split; [reflexivity|];
  split; [split; [reflexivity|repeat constructor]|];
  split; [by_array_test|];
  split; [by_array_test|];
  split;
  [ let i := fresh "i" in let j := fresh "j" in
    intros i j ? ?; below n i; below n j;
    apply Qc_eqb_eq; vm_compute; reflexivity
  | let i := fresh "i" in let j := fresh "j" in
    intros i j ? ?; below n j; below n i; try lia;
    apply Qc_ltb_ge; vm_compute; reflexivity ].

Lemma exact_pinv_on_runs :
  moore_penrose (zmat [[1]]%Z) (diag_pinv (zmat [[1]]%Z)) /\
  moore_penrose (zmat [[0]]%Z) (diag_pinv (zmat [[0]]%Z)) /\
  moore_penrose (zmat [[1; 0]; [0; 1]]%Z) (diag_pinv (zmat [[1; 0]; [0; 1]]%Z)) /\
  moore_penrose (zmat [[1; 0]; [0; 0]]%Z) (diag_pinv (zmat [[1; 0]; [0; 0]]%Z)).
Proof. repeat split; penrose_by_test. Qed.

Lemma exact_eigh_identity_2 :
  eigh_contract (zmat [[1; 0]; [0; 1]]%Z) (diag_eigh (zmat [[1; 0]; [0; 1]]%Z)).
Proof. eigh_by_cases 2%nat. Qed.

Lemma exact_eigh_first_2 :
  eigh_contract (zmat [[1; 0]; [0; 0]]%Z) (diag_eigh (zmat [[1; 0]; [0; 0]]%Z)).
Proof. eigh_by_cases 2%nat. Qed.

Lemma exact_eigh_middle :
  eigh_contract (zmat [[0; 0; 0]; [0; 1; 0]; [0; 0; 0]]%Z)
                (diag_eigh (zmat [[0; 0; 0]; [0; 1; 0]; [0; 0; 0]]%Z)).
Proof. eigh_by_cases 3%nat. Qed.

Lemma exact_root_on_runs :
  exact_root 0 * exact_root 0 = 0 /\ exact_root 1 * exact_root 1 = 1 /\
  0 <= exact_root 0 /\ 0 <= exact_root 1.
Proof.
  repeat split; try (apply Qc_eqb_eq; vm_compute; reflexivity);
    apply Qc_ltb_ge; vm_compute; reflexivity.
Qed.

(** The factor of the blocks met: orthonormal columns, and the block is
    the factor times an upper triangular array (here the block itself). *)
Lemma exact_qr_on_runs :
  axis_qr (identity 3) = identity 3 /\
  axis_qr (zmat [[1; 0; 0]; [0; 0; 0]; [0; 0; 1]]%Z) = identity 3 /\
  orthonormal_cols (identity 3) /\
  matmul (identity 3) (zmat [[1; 0; 0]; [0; 0; 0]; [0; 0; 1]]%Z)
  = zmat [[1; 0; 0]; [0; 0; 0]; [0; 0; 1]]%Z.
Proof. repeat split; by_array_test. Qed.

(** The amplitudes returned on the runs fit the data exactly, and are the
    solution of least norm where a topography is zero. *)
Lemma exact_lstsq_on_runs :
  matmul (identity 2) (orth_lstsq (identity 2) (identity 2)) = identity 2 /\
  matmul (zmat [[1; 0]; [0; 0]]%Z)
         (orth_lstsq (zmat [[1; 0]; [0; 0]]%Z) (zmat [[1]; [0]]%Z))
  = zmat [[1]; [0]]%Z /\
  orth_lstsq (zmat [[1; 0]; [0; 0]]%Z) (zmat [[1]; [0]]%Z) = zmat [[1]; [0]]%Z /\
  matmul (zmat [[0]; [1]; [0]]%Z)
         (orth_lstsq (zmat [[0]; [1]; [0]]%Z) (zmat [[0]; [1]; [0]]%Z))
  = zmat [[0]; [1]; [0]]%Z.
Proof. repeat split; by_array_test. Qed.

(* ================================================================= *)
(** ** The orthogonal projector *)

(** C6. For every array [A] of topography columns, [_compute_proj] returns
    [P = I - A (A^T A)^+ A^T], and with the Moore-Penrose pseudoinverse for
    [(A^T A)^+] this [P] is symmetric, idempotent and annihilates the
    columns of [A], whether [A^T A] is singular or not. *)
Theorem compute_proj_is_orthogonal_projector
        (lib : numlib) (m k : nat) (A : matrix) :
  rect m k A -> (0 < m)%nat -> (0 < k)%nat ->
  moore_penrose (matmul (transpose A) A)
                (lib_pinv lib (matmul (transpose A) A)) ->
  exists P,
    _compute_proj lib A = Ok P /\
    P = msub (identity m)
             (matmul (matmul A (lib_pinv lib (matmul (transpose A) A)))
                     (transpose A)) /\
    symmetric P /\
    matmul P P = P /\
    matmul P A = zeros m k.
Proof.
  intros HA Hm Hk (HX & HGXG & _).
  pose proof (rect_transpose HA Hm) as HAt.
  pose proof (rect_matmul HAt HA Hm) as HG.
  rewrite (rect_shape0 HG), (rect_shape1 HG Hk) in HX.
  eexists. split; [|split; [reflexivity|]].
  - apply (compute_proj_value HA Hm Hk HX lib eq_refl).
  - split; [|split].
    + apply (projector_symmetric HA Hm Hk HX HGXG).
    + apply (projector_idempotent HA Hm Hk HX HGXG).
    + apply (projector_annihilates HA Hm Hk HX HGXG).
Qed.

(** The projector of two topographies, the second of which is zero: the
    Gram matrix is singular. *)
Lemma compute_proj_is_orthogonal_projector_witness :
  exists P,
    _compute_proj exact_lib (zmat [[1; 0]; [0; 0]]%Z) = Ok P /\
    P = msub (identity 2)
             (matmul (matmul (zmat [[1; 0]; [0; 0]]%Z)
                             (lib_pinv exact_lib
                                (matmul (transpose (zmat [[1; 0]; [0; 0]]%Z))
                                        (zmat [[1; 0]; [0; 0]]%Z))))
                     (transpose (zmat [[1; 0]; [0; 0]]%Z))) /\
    symmetric P /\
    matmul P P = P /\
    matmul P (zmat [[1; 0]; [0; 0]]%Z) = zeros 2 2.
Proof.
  apply (@compute_proj_is_orthogonal_projector exact_lib 2 2).
  - split; [reflexivity|]. repeat constructor.
  - lia.
  - lia.
  - unfold moore_penrose, symmetric.
    repeat split; try (apply mat_eqb_eq; vm_compute; reflexivity).
    repeat constructor.
Defined.

(* ================================================================= *)
(** ** The subspace correlation engine *)

(** The quadratic form of the array whose eigenvalues the second branch
    takes is the correlation form of the image under the factor. *)
Lemma projected_gram_form (m r n : nat) (Ug Phi x : matrix) :
  (0 < m)%nat -> (0 < r)%nat ->
  rect m (S n) Ug -> rect m r Phi -> rect (S n) 1 x ->
  matmul (matmul (transpose x) (projected_gram Ug Phi)) x
  = correlation_form (matmul Ug x) Phi.
Proof.
  intros Hm Hr HU HPhi Hx.
  pose proof (Nat.lt_0_succ n) as Hn.
  pose proof (rect_transpose HU Hm) as HUt.
  pose proof (rect_transpose HPhi Hm) as HPt.
  pose proof (rect_transpose Hx Hn) as Hxt.
  pose proof (rect_matmul HUt HPhi Hm) as HB.
  pose proof (rect_matmul HPt HU Hm) as HC.
  unfold projected_gram, correlation_form.
  rewrite (transpose_matmul HU Hx Hm Hn Nat.lt_0_1).
  rewrite (matmul_assoc Hxt HUt HPhi Hn Hm).
  rewrite <- (matmul_assoc HPt HU Hx Hm Hn).
  rewrite <- (matmul_assoc Hxt HB HC Hn Hr).
  apply (matmul_assoc (rect_matmul Hxt HB Hn) HC Hx Hr Hn).
Qed.




(* ================================================================= *)
(** ** The greedy search *)

(** C7. In the scan of a round, a later candidate replaces the current
    best only when its correlation is strictly greater: the scan ends either
    with nothing selected, no candidate comparing greater than the initial
    [-1], or with the first candidate that reaches the largest correlation
    ([scan_outcome]).  In particular, of two candidates with one and the
    same correlation, the first is selected. *)
Theorem scan_selects_first_maximum
        (lib : numlib) (n_orient : nat) (G_proj phi_sig_proj : matrix)
        (k n : nat) (s0 s' : scan_state) :
  for_each (scan_body lib n_orient G_proj phi_sig_proj k) (seq 0 n) s0 = Ok s' ->
  subcorr_max s0 = Fin (qz (-1)) ->
  (k < length (scan_active_set s0))%nat ->
  scan_outcome lib n_orient G_proj phi_sig_proj k (Fin (qz (-1)))
               (scan_active_set s0) (scan_A s0) n s' /\
  (n = 2%nat ->
   candidate_subcorr lib n_orient G_proj phi_sig_proj 0
   = candidate_subcorr lib n_orient G_proj phi_sig_proj 1 ->
   np_gt (candidate_subcorr lib n_orient G_proj phi_sig_proj 0) (Fin (qz (-1)))
   = true ->
   nth k (scan_active_set s') (-1)%Z = 0%Z).
Proof.
  intros Hrun Hinit Hk.
  pose proof (scan_invariant _ _ _ _ _ _ _ Hrun) as Hout.
  rewrite Hinit in Hout. split; [exact Hout|].
  intros -> Heq Hgt.
  destruct Hout as [(_ & _ & _ & Hlow)
                   |(w & ow & colw & Hw & _ & _ & _ & Has & _ & _ & _ & Hfirst)].
  - rewrite (Hlow 0%nat) in Hgt by lia. discriminate.
  - rewrite Has, nth_set_nth_same by assumption.
    destruct w as [|[|w]]; [reflexivity| |lia].
    exfalso. destruct (Hfirst 0%nat ltac:(lia)) as [Hnan|Hlt].
    + rewrite Hnan in Hgt. discriminate.
    + rewrite Heq, np_gt_irrefl in Hlt. discriminate.
Qed.

(** Two colinear candidates have the same correlation 1; with one source
    requested, the first is selected. *)
Lemma scan_selects_first_maximum_witness :
  (exists s',
      for_each (scan_body exact_lib 1 colinear_G (identity 2) 0) (seq 0 2)
               {| subcorr_max := Fin (qz (-1));
                  scan_active_set := [(-1)%Z];
                  scan_A := zeros 2 1;
                  scan_ori := None |} = Ok s' /\
      nth 0 (scan_active_set s') (-1)%Z = 0%Z) /\
  candidate_subcorr exact_lib 1 colinear_G (identity 2) 0 = Fin 1 /\
  candidate_subcorr exact_lib 1 colinear_G (identity 2) 1 = Fin 1 /\
  (exists s, greedy_loop exact_lib 1 1 colinear_G (identity 2) = Ok s
             /\ active_set s = [0%Z]).
Proof.
  split; [|split; [|split]].
  - eexists. split; [vm_compute; reflexivity|].
    refine (proj2 (@scan_selects_first_maximum exact_lib 1 colinear_G (identity 2)
                     0 2
                     {| subcorr_max := Fin (qz (-1));
                        scan_active_set := [(-1)%Z];
                        scan_A := zeros 2 1;
                        scan_ori := None |} _ _ eq_refl _) eq_refl _ _).
    + vm_compute. reflexivity.
    + cbn. lia.
    + vm_compute. reflexivity.
    + vm_compute. reflexivity.
  - vm_compute. reflexivity.
  - vm_compute. reflexivity.
  - eexists. split; vm_compute; reflexivity.
Defined.

(** The arguments of round [k]'s projector are the topographies found so
    far, and the working leadfield of the next round is the original one
    deflated by it. *)
Lemma round_body_inv (lib : numlib) (n_orient : nat) (G phi_sig : matrix)
      (s s' : loop_state) (k : nat) :
  round_body lib n_orient G phi_sig s k = Ok s' ->
  exists found projection,
    for_each (scan_body lib n_orient (G_proj s) (phi_sig_proj s) k)
             (seq 0 (shape1 G / n_orient))
             {| subcorr_max := Fin (qz (-1));
                scan_active_set := active_set s;
                scan_A := A s;
                scan_ori := ori s |} = Ok found /\
    A s' = scan_A found /\
    active_set s' = scan_active_set found /\
    _compute_proj lib (first_cols (k + 1) (A s')) = Ok projection /\
    np_dot projection G = Ok (G_proj s') /\
    np_dot projection phi_sig = Ok (phi_sig_proj s').
Proof.
  unfold round_body. intros H.
  destruct (for_each _ _ _) as [found|e] eqn:Ef; cbn [bind] in H; [|discriminate].
  destruct (log_ori _ _) as [[]|e]; cbn [bind] in H; [|discriminate].
  destruct (_compute_proj _ _) as [P|e] eqn:EP; cbn [bind] in H; [|discriminate].
  destruct (np_dot P G) as [G'|e] eqn:EG; cbn [bind] in H; [|discriminate].
  destruct (np_dot P phi_sig) as [p'|e] eqn:Ep; cbn [bind] in H; [|discriminate].
  injection H as <-. cbn [A active_set G_proj phi_sig_proj].
  exists found, P. repeat split; assumption || reflexivity.
Qed.

(** X23. In every round the column recorded for the winning candidate is its
    block of the working leadfield [G_proj] times its orientation;
    [G_proj] is the original leadfield in the first round and the original
    leadfield deflated by the projector of the topographies found so far in
    the later ones. *)
Theorem topography_is_block_of_working_leadfield
        (lib : numlib) (n_orient : nat) (G phi_sig : matrix)
        (s s' : loop_state) (k : nat) :
  round_body lib n_orient G phi_sig s k = Ok s' ->
  (forall n_sources, G_proj (initial_state n_sources G phi_sig) = G) /\
  (exists projection,
      _compute_proj lib (first_cols (k + 1) (A s')) = Ok projection /\
      np_dot projection G = Ok (G_proj s')) /\
  ((A s' = A s /\ active_set s' = active_set s) \/
   (exists w ori_w column,
       (w < shape1 G / n_orient)%nat /\
       active_set s' = set_nth k (Z.of_nat w) (active_set s) /\
       _compute_subcorr lib (block n_orient (G_proj s) w) (phi_sig_proj s)
       = Ok (candidate_subcorr lib n_orient (G_proj s) (phi_sig_proj s) w, ori_w) /\
       np_dot_vec (block n_orient (G_proj s) w) ori_w = Ok column /\
       set_col k column (A s) = Ok (A s'))).
Proof.
  intros Hrun. split; [reflexivity|].
  destruct (round_body_inv _ _ _ _ _ _ Hrun)
    as (found & P & Hscan & HA & Has & HP & HG & _).
  split; [now exists P|].
  pose proof (scan_invariant _ _ _ _ _ _ _ Hscan) as Hout.
  cbn [subcorr_max scan_active_set scan_A] in Hout.
  destruct Hout as [(_ & Has' & HA' & _)
                   |(w & ow & colw & Hw & Ec & Ed & _ & Has' & HA' & _)].
  - left. split; congruence.
  - right. exists w, ow, colw. rewrite HA, Has. auto.
Qed.

(** The second round on two candidates that are not orthogonal: the
    column recorded for candidate 1 is its deflated block. *)
Lemma topography_is_block_of_working_leadfield_witness :
  exists s1 s2,
    round_body exact_lib 1 oblique_G (identity 2)
               (initial_state 2 oblique_G (identity 2)) 0 = Ok s1 /\
    round_body exact_lib 1 oblique_G (identity 2) s1 1 = Ok s2 /\
    (forall n_sources,
        G_proj (initial_state n_sources oblique_G (identity 2)) = oblique_G) /\
    (exists projection,
        _compute_proj exact_lib (first_cols (1 + 1) (A s2)) = Ok projection /\
        np_dot projection oblique_G = Ok (G_proj s2)) /\
    ((A s2 = A s1 /\ active_set s2 = active_set s1) \/
     (exists w ori_w column,
         (w < shape1 oblique_G / 1)%nat /\
         active_set s2 = set_nth 1 (Z.of_nat w) (active_set s1) /\
         _compute_subcorr exact_lib (block 1 (G_proj s1) w) (phi_sig_proj s1)
         = Ok (candidate_subcorr exact_lib 1 (G_proj s1) (phi_sig_proj s1) w,
               ori_w) /\
         np_dot_vec (block 1 (G_proj s1) w) ori_w = Ok column /\
         set_col 1 column (A s1) = Ok (A s2))).
Proof.
  eexists. eexists.
  split; [vm_compute; reflexivity|].
  split; [vm_compute; reflexivity|].
  apply (@topography_is_block_of_working_leadfield exact_lib 1 oblique_G
           (identity 2)).
  vm_compute. reflexivity.
Defined.

(** C1 on [oblique_pair_input]. In the second round candidate 1 wins, and
    the column recorded for it, [(0, 1)], is its deflated block, not its
    block [(1, 1)] of the original leadfield times any orientation.  The
    two columns recorded fit the data exactly, with the amplitudes of the
    deflated columns; [D] multiplies these amplitudes with the undeflated
    columns of the leadfield, so that [D] is not the data and the residual
    is not zero. *)
Theorem topography_not_from_original_leadfield :
  exists data2 final out residual,
    search_sources exact_lib oblique_pair_input = Ok (data2, final) /\
    rap_music exact_lib (data oblique_pair_input) oblique_pair_input
    = Ok (out, Some residual) /\
    active_set final = [0; 1]%Z /\
    get_col 1 (A final) = zvec [0; 1]%Z /\
    block 1 (gain oblique_pair_input) 1 = zmat [[1]; [1]]%Z /\
    (forall ori_1,
        np_dot_vec (block 1 (gain oblique_pair_input) 1) ori_1
        <> Ok (get_col 1 (A final))) /\
    A final = identity 2 /\
    sol out = zmat [[2; 0]; [0; 1]]%Z /\
    matmul (A final) (sol out) = data oblique_pair_input /\
    D out = zmat [[2; 1]; [0; 1]]%Z /\
    residual = zmat [[0; -1]; [0; 0]]%Z.
Proof.
  eexists. eexists. eexists. eexists.
  split; [vm_compute; reflexivity|].
  split; [vm_compute; reflexivity|].
  split; [reflexivity|].
  split; [vm_compute; reflexivity|].
  split; [vm_compute; reflexivity|].
  split.
  { intros o H. unfold np_dot_vec in H.
    destruct o as [|t [|t' o]]; try discriminate H.
    cbn in H. injection H as H0 H1.
    rewrite H1 in H0. discriminate H0. }
  repeat split; apply mat_eqb_eq; vm_compute; reflexivity.
Qed.

(* ================================================================= *)
(** ** The active set *)

(** C9 on [colinear_pair_input]. The first round selects candidate 0 and
    deflates both colinear blocks to zero, so that no correlation of the
    second round compares greater than [-1]: the loop leaves the active set
    [[0; -1]], which is reported as [[-1; 0]], not two distinct candidate
    indices.  The entry [-1] is then used as an index like any other: the
    vertices reported are 20, the last vertex, of candidate 1 that no round
    selected, and 10; and [D] is the column of candidate 1 times the
    amplitude of candidate 0. *)
Theorem unselected_round_is_reported_as_last_candidate :
  exists data2 final out,
    search_sources exact_lib colinear_pair_input = Ok (data2, final) /\
    _apply_rap_music exact_lib colinear_pair_input = Ok out /\
    active_set final = [0; -1]%Z /\
    np_sort (active_set final) = [-1; 0]%Z /\
    ~ specified_active_set 2 2 (np_sort (active_set final)) /\
    vertices0 out = [20; 10]%Z /\
    vertices1 out = [] /\
    sol out = zmat [[1]; [0]]%Z /\
    D out = zmat [[2]; [0]]%Z.
Proof.
  eexists. eexists. eexists.
  split; [vm_compute; reflexivity|].
  split; [vm_compute; reflexivity|].
  split; [reflexivity|].
  split; [reflexivity|].
  split.
  { intros (_ & Hall & _). cbn in Hall.
    inversion Hall as [|e l He _]. lia. }
  split; [reflexivity|].
  split; [reflexivity|].
  split; apply mat_eqb_eq; vm_compute; reflexivity.
Qed.

(* ================================================================= *)
(** ** The slice of the eigenvectors *)

Lemma rect_last_cols (m n r0 : nat) (V : matrix) :
  rect m n V ->
  rect m (if (r0 =? 0)%nat then n else Nat.min r0 n) (last_cols r0 V).
Proof.
  intros [Hl Hr]. split.
  - unfold last_cols. now rewrite length_map.
  - unfold last_cols. apply Forall_forall. intros row Hin.
    apply in_map_iff in Hin. destruct Hin as [row0 [<- Hin]].
    rewrite Forall_forall in Hr. specialize (Hr row0 Hin).
    rewrite length_skipn, Hr. destruct (r0 =? 0)%nat; lia.
Qed.

Lemma last_cols_all (m n r0 : nat) (V : matrix) :
  rect m n V -> (n <= r0)%nat -> last_cols r0 V = V.
Proof.
  intros [Hl Hr] Hle. unfold last_cols.
  rewrite <- (map_id V) at 2. apply map_ext_in. intros row Hin.
  rewrite Forall_forall in Hr. specialize (Hr row Hin).
  destruct (r0 =? 0)%nat; [reflexivity|].
  now replace (length row - r0)%nat with 0%nat by lia.
Qed.


(* ================================================================= *)
(** ** The degenerate denominator *)

Lemma rect_1_1 (X : matrix) : rect 1 1 X -> X = [[entry X 0 0]].
Proof.
  intros [Hl Hr]. destruct X as [|row [|row' X]]; try discriminate Hl.
  inversion Hr as [|? ? Hrow _]. subst.
  destruct row as [|a [|b row]]; try discriminate Hrow. reflexivity.
Qed.

(** Where the norm is not zero, dividing is what the pseudoinverse of the
    1 by 1 denominator does. *)
Lemma subcorr_pinv_agrees (lib : numlib) (m r : nat) (x Phi : matrix) :
  (0 < m)%nat -> (0 < r)%nat -> rect m 1 x -> rect m r Phi ->
  x <> zeros m 1 ->
  moore_penrose (matmul (transpose x) x) (lib_pinv lib (matmul (transpose x) x)) ->
  compute_subcorr_pinv lib x Phi = _compute_subcorr lib x Phi.
Proof.
  intros Hm Hr Hx HPhi Hnz (HX & HGXG & _).
  pose proof (rect_transpose Hx Hm) as Hxt.
  pose proof (rect_transpose HPhi Hm) as HPhit.
  pose proof (rect_matmul Hxt Hx Hm) as Hden.
  rewrite (rect_shape0 Hden), (rect_shape1 Hden Nat.lt_0_1) in HX.
  rewrite (subcorr_fixed_value lib Hx HPhi Hm Hr).
  unfold compute_subcorr_pinv.
  rewrite (np_dot_ok Hxt HPhi Nat.lt_0_1). cbn [bind].
  rewrite (np_dot_ok HPhit Hx Hr). cbn [bind].
  assert (Hnum : rect 1 1 (matmul (matmul (transpose x) Phi)
                                  (matmul (transpose Phi) x)))
    by eauto with rect.
  rewrite (np_dot_ok (rect_matmul Hxt HPhi Hm) (rect_matmul HPhit Hx Hm)
             Nat.lt_0_1). cbn [bind].
  rewrite (np_dot_ok Hxt Hx Nat.lt_0_1). cbn [bind].
  rewrite (np_dot_ok Hnum HX Nat.lt_0_1). cbn [bind].
  fold (correlation_form x Phi) in *. fold (sqnorm x).
  set (X := lib_pinv lib (matmul (transpose x) x)) in *.
  assert (Hd : sqnorm x <> 0) by (intros H; apply Hnz; now apply sqnorm_zero).
  assert (EX : entry X 0 0 = / sqnorm x).
  { assert (E : entry (matmul (matmul (matmul (transpose x) x) X)
                              (matmul (transpose x) x)) 0 0 = sqnorm x)
      by now rewrite HGXG.
    rewrite (entry_matmul (rect_matmul Hden HX Nat.lt_0_1) Hden
               Nat.lt_0_1 Nat.lt_0_1 Nat.lt_0_1) in E.
    cbn [sum_upto] in E.
    rewrite (entry_matmul Hden HX Nat.lt_0_1 Nat.lt_0_1 Nat.lt_0_1) in E.
    cbn [sum_upto] in E. fold (sqnorm x) in E.
    assert (E' : sqnorm x * (entry X 0 0 * sqnorm x - 1) = 0).
    { replace (sqnorm x * (entry X 0 0 * sqnorm x - 1))
        with (0 + (0 + sqnorm x * entry X 0 0) * sqnorm x - sqnorm x) by ring.
      rewrite E. ring. }
    apply (Qcmult_integral_l _ _ Hd) in E'.
    assert (E'' : entry X 0 0 * sqnorm x = 1).
    { replace (entry X 0 0 * sqnorm x)
        with (entry X 0 0 * sqnorm x - 1 + 1) by ring. rewrite E'. ring. }
    rewrite <- (Qcmult_1_l (/ sqnorm x)), <- E''.
    rewrite <- Qcmult_assoc, Qcmult_inv_r by assumption. ring. }
  rewrite (entry_matmul Hnum HX Nat.lt_0_1 Nat.lt_0_1 Nat.lt_0_1).
  cbn [sum_upto]. rewrite EX.
  unfold np_divide. apply Qc_eqb_neq in Hd. rewrite Hd.
  replace (0 + entry (correlation_form x Phi) 0 0 * / sqnorm x)
    with (entry (correlation_form x Phi) 0 0 / sqnorm x)
    by (unfold Qcdiv; ring).
  reflexivity.
Qed.

(** C4, amended. For a one-column candidate of zero norm the code divides
    directly: the quotient is [0/0], the correlation returned is [nan] and
    nothing is raised; a [nan] does not compare greater than the running
    maximum, so the scan leaves its selection as it was and goes on.  Only
    where the norm is not zero is the division what a pseudoinverse of the
    denominator gives. *)
Theorem zero_norm_block_divides_directly
        (lib : numlib) (m r : nat) (Phi : matrix) :
  (0 < m)%nat -> (0 < r)%nat -> rect m r Phi ->
  _compute_subcorr lib (zeros m 1) Phi = Ok (NaN, [1]) /\
  (forall G_proj k i s,
      block 1 G_proj i = zeros m 1 ->
      scan_body lib 1 G_proj Phi k s i
      = Ok {| subcorr_max := subcorr_max s;
              scan_active_set := scan_active_set s;
              scan_A := scan_A s;
              scan_ori := Some [1] |}) /\
  (forall x,
      rect m 1 x -> x <> zeros m 1 ->
      moore_penrose (matmul (transpose x) x)
                    (lib_pinv lib (matmul (transpose x) x)) ->
      compute_subcorr_pinv lib x Phi = _compute_subcorr lib x Phi).
Proof.
  intros Hm Hr HPhi.
  pose proof (subcorr_zero_block lib HPhi Hm Hr) as E.
  split; [exact E|]. split.
  - intros Gp k i s HB. unfold scan_body. rewrite HB, E. cbn [bind].
    destruct (subcorr_max s); reflexivity.
  - intros x Hx Hnz Hmp. now apply (@subcorr_pinv_agrees lib m r).
Qed.

Lemma zero_norm_block_divides_directly_witness :
  _compute_subcorr exact_lib (zeros 2 1) (identity 2) = Ok (NaN, [1]) /\
  (forall G_proj k i s,
      block 1 G_proj i = zeros 2 1 ->
      scan_body exact_lib 1 G_proj (identity 2) k s i
      = Ok {| subcorr_max := subcorr_max s;
              scan_active_set := scan_active_set s;
              scan_A := scan_A s;
              scan_ori := Some [1] |}) /\
  (forall x,
      rect 2 1 x -> x <> zeros 2 1 ->
      moore_penrose (matmul (transpose x) x)
                    (lib_pinv exact_lib (matmul (transpose x) x)) ->
      compute_subcorr_pinv exact_lib x (identity 2)
      = _compute_subcorr exact_lib x (identity 2)).
Proof.
  apply (@zero_norm_block_divides_directly exact_lib 2 2).
  - lia.
  - lia.
  - apply rect_identity.
Defined.

(** C4, as stated, fails: on a zero column the code returns [nan], where
    the pseudoinverse of the zero denominator gives the correlation 0. *)
Lemma zero_norm_block_has_no_pseudoinverse :
  _compute_subcorr exact_lib (zeros 2 1) (identity 2) = Ok (NaN, [1]) /\
  compute_subcorr_pinv exact_lib (zeros 2 1) (identity 2) = Ok (Fin 0, [1]) /\
  moore_penrose (zeros 1 1) (lib_pinv exact_lib (zeros 1 1)) /\
  _compute_subcorr exact_lib (zeros 2 1) (identity 2)
  <> compute_subcorr_pinv exact_lib (zeros 2 1) (identity 2).
Proof.
  assert (E1 : _compute_subcorr exact_lib (zeros 2 1) (identity 2)
               = Ok (NaN, [1])) by (vm_compute; reflexivity).
  assert (E2 : compute_subcorr_pinv exact_lib (zeros 2 1) (identity 2)
               = Ok (Fin 0, [1])) by (vm_compute; reflexivity).
  split; [exact E1|]. split; [exact E2|]. split.
  - unfold moore_penrose, symmetric.
    repeat split; try (apply mat_eqb_eq; vm_compute; reflexivity).
    repeat constructor.
  - rewrite E1, E2. discriminate.
Qed.

(* ================================================================= *)
(** ** Vertices and explained data *)

Lemma map_result_raises (T U : Type) (f : T -> result U) (l : list T) (x : T) :
  In x l -> f x = Raise IndexError ->
  (forall y e, f y = Raise e -> e = IndexError) ->
  map_result f l = Raise IndexError.
Proof.
  intros Hin Hx Hall. induction l as [|a l IH]; [contradiction|].
  simpl. destruct (f a) as [b|e] eqn:Ea; cbn [bind].
  - destruct Hin as [->|Hin]; [congruence|].
    now rewrite (IH Hin).
  - now rewrite (Hall a e Ea).
Qed.

Lemma norm_index_raises (n : nat) (i : Z) (e : exn) :
  norm_index n i = Raise e -> e = IndexError.
Proof.
  unfold norm_index.
  destruct ((0 <=? i)%Z && (i <? Z.of_nat n)%Z); [discriminate|].
  destruct ((- Z.of_nat n <=? i)%Z && (i <? 0)%Z); [discriminate|].
  congruence.
Qed.

Lemma norm_index_length (n : nat) :
  norm_index n (Z.of_nat n) = Raise IndexError.
Proof.
  unfold norm_index.
  rewrite Z.ltb_irrefl, andb_false_r.
  destruct (Z.ltb_spec (Z.of_nat n) 0); [lia|]. now rewrite andb_false_r.
Qed.

(** The two index lists of lines 126-128: an entry [i] of the active set
    is in the right one, as [i - L], exactly when [i > L], and in the left
    one otherwise; an entry equal to [L] makes the left indexing raise. *)
Lemma hemi_indices_split (vertno0 : list Z) (active_set : list Z) :
  let L := Z.of_nat (length vertno0) in
  (forall j, In j (right_hemi_indices L active_set) <->
             exists i, In i active_set /\ (L < i)%Z /\ j = (i - L)%Z) /\
  (forall i, In i (left_hemi_indices L active_set) <->
             In i active_set /\ (i <= L)%Z) /\
  ~ In 0%Z (right_hemi_indices L active_set) /\
  (In L active_set ->
   In L (left_hemi_indices L active_set) /\
   norm_index (length vertno0) L = Raise IndexError /\
   take 0%Z vertno0 (left_hemi_indices L active_set) = Raise IndexError).
Proof.
  intros L.
  assert (Hright : forall j, In j (right_hemi_indices L active_set) <->
                             exists i, In i active_set /\ (L < i)%Z /\ j = (i - L)%Z).
  { intros j. unfold right_hemi_indices. rewrite in_map_iff. split.
    - intros (i & <- & Hi). apply filter_In in Hi. destruct Hi as [Hi Hlt].
      apply Z.ltb_lt in Hlt. now exists i.
    - intros (i & Hi & Hlt & ->). exists i. split; [reflexivity|].
      apply filter_In. split; [assumption|]. now apply Z.ltb_lt. }
  assert (Hleft : forall i, In i (left_hemi_indices L active_set) <->
                            In i active_set /\ (i <= L)%Z).
  { intros i. unfold left_hemi_indices. rewrite filter_In.
    now rewrite Z.leb_le. }
  split; [exact Hright|]. split; [exact Hleft|]. split.
  - intros H0. apply Hright in H0. destruct H0 as (i & _ & Hlt & E). lia.
  - intros HL.
    assert (HinL : In L (left_hemi_indices L active_set))
      by (apply Hleft; split; [assumption|lia]).
    split; [exact HinL|]. split; [apply norm_index_length|].
    unfold take. apply (@map_result_raises _ _ _ _ L HinL).
    + unfold L. now rewrite norm_index_length.
    + intros y e. destruct (norm_index (length vertno0) y) eqn:E; cbn [bind].
      * discriminate.
      * intros H. injection H as <-. eapply norm_index_raises; eauto.
Qed.

(** C5 on the free-orientation input: the candidate found has orientation
    [(0, 1, 0)], its contribution to the data is the second column of its
    block, and it explains the data exactly; [D] is the first column of the
    leadfield, and the residual is not zero. *)
Lemma explained_data_ignores_orientation :
  exists out residual final,
    rap_music exact_lib (data free_input) free_input = Ok (out, Some residual) /\
    greedy_loop exact_lib 3 1 (identity 3) (zmat [[0]; [1]; [0]]%Z) = Ok final /\
    active_set final = [0%Z] /\
    ori final = Some (zvec [0; 1; 0]%Z) /\
    sol out = zmat [[1]]%Z /\
    matmul (A final) (sol out) = data free_input /\
    matmul (matmul (block 3 (gain free_input) 0) (zmat [[0]; [1]; [0]]%Z)) (sol out)
    = zmat [[0]; [1]; [0]]%Z /\
    D out = zmat [[1]; [0]; [0]]%Z /\
    D out = matmul (cols 0 1 (gain free_input)) (sol out) /\
    residual = zmat [[-1]; [1]; [0]]%Z.
Proof.
  eexists. eexists. eexists.
  split; [vm_compute; reflexivity|].
  split; [vm_compute; reflexivity|].
  split; [reflexivity|].
  repeat split; try (vm_compute; reflexivity);
    apply mat_eqb_eq; vm_compute; reflexivity.
Qed.

(* ================================================================= *)
(** ** Deflation *)

Lemma transpose_zeros (m n : nat) :
  (0 < m)%nat -> (0 < n)%nat -> transpose (zeros m n) = zeros n m.
Proof.
  intros Hm Hn. apply (@matrix_ext n m); eauto with rect.
  intros i j Hi Hj.
  rewrite (entry_transpose (rect_zeros m n) Hi Hj). now rewrite !entry_zeros.
Qed.

Lemma np_dot_inv (M N R : matrix) : np_dot M N = Ok R -> R = matmul M N.
Proof.
  unfold np_dot. destruct (shape1 M =? shape0 N)%nat; [|discriminate].
  now intros H; injection H as <-.
Qed.

(** A round keeps the shape of the topography array and the length of
    the active set. *)
Lemma round_keeps_shapes (lib : numlib) (n_orient m ns : nat) (G phi_sig : matrix)
      (s s' : loop_state) (k : nat) :
  round_body lib n_orient G phi_sig s k = Ok s' ->
  rect m ns (A s) ->
  rect m ns (A s') /\ length (active_set s') = length (active_set s).
Proof.
  intros Hrun HA.
  destruct (round_body_inv _ _ _ _ _ _ Hrun)
    as (found & P & Hscan & EA & Eas & _).
  pose proof (scan_invariant _ _ _ _ _ _ _ Hscan) as Hout.
  cbn [subcorr_max scan_active_set scan_A] in Hout.
  rewrite EA, Eas.
  destruct Hout as [(_ & Has' & HA' & _)
                   |(w & ow & colw & _ & _ & _ & _ & Has' & HA' & _)].
  - rewrite HA', Has'. auto.
  - apply set_col_inv in HA'. destruct HA' as (-> & Hlen & _).
    rewrite Has', length_set_nth. split; [|reflexivity].
    apply rect_put_col; [assumption|]. destruct HA. congruence.
Qed.

(** X1. After the deflation of round [k], every column of the working
    leadfield and of the working basis is orthogonal to each of the [k + 1]
    topographies recorded so far. *)
Theorem deflated_arrays_orthogonal_to_topographies
        (lib : numlib) (n_orient m N r ns : nat) (G phi_sig : matrix)
        (s s' : loop_state) (k : nat) :
  (0 < m)%nat -> (0 < r)%nat ->
  rect m N G -> rect m r phi_sig -> rect m ns (A s) -> (k < ns)%nat ->
  round_body lib n_orient G phi_sig s k = Ok s' ->
  moore_penrose
    (matmul (transpose (first_cols (k + 1) (A s'))) (first_cols (k + 1) (A s')))
    (lib_pinv lib (matmul (transpose (first_cols (k + 1) (A s')))
                          (first_cols (k + 1) (A s')))) ->
  matmul (transpose (first_cols (k + 1) (A s'))) (G_proj s') = zeros (k + 1) N /\
  matmul (transpose (first_cols (k + 1) (A s'))) (phi_sig_proj s') = zeros (k + 1) r.
Proof.
  intros Hm Hr HG HPhi HA Hk Hrun (HX & HGXG & _).
  destruct (@round_keeps_shapes lib n_orient m ns G phi_sig s s' k Hrun HA) as [HA' _].
  destruct (round_body_inv _ _ _ _ _ _ Hrun)
    as (found & P & _ & _ & _ & EP & EG & Ephi).
  set (A1 := first_cols (k + 1) (A s')) in *.
  assert (Hk1 : (0 < k + 1)%nat) by lia.
  assert (HA1 : rect m (k + 1) A1) by (apply (rect_first_cols HA'); lia).
  pose proof (rect_transpose HA1 Hm) as HA1t.
  pose proof (rect_matmul HA1t HA1 Hm) as Hgram.
  rewrite (rect_shape0 Hgram), (rect_shape1 Hgram Hk1) in HX.
  rewrite (compute_proj_value HA1 Hm Hk1 HX lib eq_refl) in EP.
  injection EP as EP.
  pose proof (projector_rect A1 (lib_pinv lib (matmul (transpose A1) A1)) Hm)
    as HP.
  pose proof (projector_symmetric HA1 Hm Hk1 HX HGXG) as Hsym.
  pose proof (projector_annihilates HA1 Hm Hk1 HX HGXG) as Hann.
  rewrite EP in HP, Hsym, Hann.
  assert (Key : matmul (transpose A1) P = zeros (k + 1) m).
  { rewrite <- Hsym.
    rewrite <- (transpose_matmul HP HA1 Hm Hm Hk1), Hann.
    now apply transpose_zeros. }
  apply np_dot_inv in EG. apply np_dot_inv in Ephi. rewrite EG, Ephi.
  rewrite <- (matmul_assoc HA1t HP HG Hm Hm), Key.
  rewrite <- (matmul_assoc HA1t HP HPhi Hm Hm), Key.
  split; apply matmul_zeros_l; assumption.
Qed.

(** The first round on [oblique_G]: the topography recorded is [(1, 0)],
    and the deflated leadfield has a zero first row. *)
Lemma deflated_arrays_orthogonal_to_topographies_witness :
  exists s1,
    round_body exact_lib 1 oblique_G (identity 2)
               (initial_state 2 oblique_G (identity 2)) 0 = Ok s1 /\
    matmul (transpose (first_cols (0 + 1) (A s1))) (G_proj s1) = zeros (0 + 1) 2 /\
    matmul (transpose (first_cols (0 + 1) (A s1))) (phi_sig_proj s1)
    = zeros (0 + 1) 2.
Proof.
  eexists. split; [vm_compute; reflexivity|].
  apply (@deflated_arrays_orthogonal_to_topographies exact_lib 1 2 2 2 2
           oblique_G (identity 2) (initial_state 2 oblique_G (identity 2)) _ 0).
  - lia.
  - lia.
  - split; [reflexivity|repeat constructor].
  - split; [reflexivity|repeat constructor].
  - split; [reflexivity|repeat constructor].
  - lia.
  - vm_compute. reflexivity.
  - penrose_by_test.
Defined.

(* ================================================================= *)
(** ** The signal subspace *)

Lemma nth_skipn_shift (T : Type) (off j : nat) (l : list T) (d : T) :
  nth j (skipn off l) d = nth (off + j) l d.
Proof.
  revert l. induction off as [|off IH]; intros l; [reflexivity|].
  destruct l as [|x l]; simpl; [now destruct j|apply IH].
Qed.

Lemma entry_last_cols (m n r0 : nat) (V : matrix) (i j : nat) :
  rect m n V -> (i < m)%nat ->
  entry (last_cols r0 V) i j
  = entry V i ((if (r0 =? 0)%nat then 0 else n - r0) + j).
Proof.
  intros HV Hi. unfold entry, last_cols.
  pose proof (rect_row HV Hi) as Hrow.
  rewrite (nth_indep _ []
             ((fun row => skipn (if (r0 =? 0)%nat then 0 else length row - r0) row) [])%nat)
    by (rewrite length_map; destruct HV; lia).
  rewrite (map_nth (fun row => skipn (if (r0 =? 0)%nat then 0 else length row - r0) row)).
  rewrite nth_skipn_shift. now rewrite Hrow.
Qed.

(** X2. Line 90: whatever [r] is, also [0] or more than the number of
    eigenvectors, the columns kept of an array with orthonormal columns are
    orthonormal. *)
Theorem signal_subspace_is_orthonormal (m n r0 : nat) (V : matrix) :
  (0 < m)%nat -> (0 < n)%nat -> rect m n V -> orthonormal_cols V ->
  rect m (if (r0 =? 0)%nat then n else Nat.min r0 n) (last_cols r0 V) /\
  orthonormal_cols (last_cols r0 V).
Proof.
  intros Hm Hn HV Horth.
  pose proof (rect_last_cols r0 HV) as HPhi.
  split; [exact HPhi|].
  set (w := if (r0 =? 0)%nat then n else Nat.min r0 n) in *.
  set (off := if (r0 =? 0)%nat then 0%nat else (n - r0)%nat).
  assert (Hw : (0 < w)%nat) by (unfold w; destruct (r0 =? 0)%nat eqn:E;
                                [lia|apply Nat.eqb_neq in E; lia]).
  assert (Hoff : (off + w = n)%nat)
    by (unfold off, w; destruct (r0 =? 0)%nat; lia).
  unfold orthonormal_cols in *.
  rewrite (rect_shape1 HPhi Hm). rewrite (rect_shape1 HV Hm) in Horth.
  pose proof (rect_transpose HPhi Hm) as HPhit.
  pose proof (rect_transpose HV Hm) as HVt.
  apply (@matrix_ext w w); eauto with rect.
  intros a b Ha Hb.
  rewrite (entry_matmul HPhit HPhi Hm Ha Hb).
  rewrite (entry_identity Ha Hb).
  assert (Ha' : (off + a < n)%nat) by lia.
  assert (Hb' : (off + b < n)%nat) by lia.
  pose proof (f_equal (fun M => entry M (off + a) (off + b)) Horth) as E.
  cbv beta in E.
  rewrite (entry_matmul HVt HV Hm Ha' Hb'), (entry_identity Ha' Hb') in E.
  replace (off + a =? off + b)%nat with (a =? b)%nat in E
    by (destruct (Nat.eqb_spec a b), (Nat.eqb_spec (off + a) (off + b)); lia).
  rewrite <- E. apply sum_upto_ext. intros k Hk.
  rewrite (entry_transpose HPhi Ha Hk), (entry_transpose HV Ha' Hk).
  now rewrite !(entry_last_cols r0 _ HV Hk).
Qed.

Lemma signal_subspace_is_orthonormal_witness :
  rect 3 (if (5 =? 0)%nat then 3 else Nat.min 5 3) (last_cols 5 (identity 3)) /\
  orthonormal_cols (last_cols 5 (identity 3)).
Proof.
  apply (@signal_subspace_is_orthonormal 3 3 5 (identity 3)).
  - lia.
  - lia.
  - apply rect_identity.
  - unfold orthonormal_cols. by_array_test.
Defined.

(* ================================================================= *)
(** ** The correlation of a one-column block *)

(** The two cases of the one-column branch. *)
Lemma subcorr_fixed_cases (lib : numlib) (m r0 : nat) (x Phi : matrix) :
  rect m 1 x -> rect m r0 Phi -> (0 < m)%nat -> (0 < r0)%nat ->
  (x = zeros m 1 /\ _compute_subcorr lib x Phi = Ok (NaN, [1])) \/
  (x <> zeros m 1 /\
   exists q, 0 <= q /\
             _compute_subcorr lib x Phi = Ok (Fin (lib_sqrt lib q), [1])).
Proof.
  intros Hx HPhi Hm Hr.
  destruct (Qc_eq_dec (sqnorm x) 0) as [Hz|Hnz].
  - apply (sqnorm_zero Hx Hm) in Hz. subst x.
    left. split; [reflexivity|apply (subcorr_zero_block lib HPhi Hm Hr)].
  - right.
    rewrite (subcorr_fixed_value lib Hx HPhi Hm Hr).
    pose proof (correlation_form_nonneg Hx HPhi Hm Hr) as Hnum.
    pose proof (sqnorm_nonneg Hx Hm) as Hden.
    set (a := entry (correlation_form x Phi) 0 0) in *.
    assert (Hq : 0 <= a / sqnorm x).
    { unfold Qcdiv. replace 0 with (0 * / sqnorm x) by ring.
      apply Qcmult_le_compat_r; [assumption|].
      apply Qclt_le_weak, Qc_inv_pos, Qc_pos_of_nonneg; assumption. }
    split.
    + intros ->. apply Hnz. rewrite (sqnorm_sum (rect_zeros m 1) Hm).
      rewrite (@sum_upto_ext m _ (fun _ => 0)); [apply sum_upto_zero|].
      intros k _. rewrite entry_zeros. ring.
    + exists (a / sqnorm x). split; [assumption|].
      unfold np_divide.
      replace (Qc_eqb (sqnorm x) 0) with false
        by (symmetry; now apply Qc_eqb_neq).
      cbn [np_sqrt].
      now replace (Qc_ltb (a / sqnorm x) 0) with false
        by (symmetry; now apply Qc_ltb_ge).
Qed.

(** X4. For a block of one column and any basis of as many rows,
    [_compute_subcorr] does not raise and returns the orientation [[1]];
    for the zero block the correlation returned is [nan]. *)
Theorem subcorr_fixed_never_raises
        (lib : numlib) (m r0 : nat) (x Phi : matrix) :
  rect m 1 x -> rect m r0 Phi -> (0 < m)%nat -> (0 < r0)%nat ->
  (exists c, _compute_subcorr lib x Phi = Ok (c, [1])) /\
  (x = zeros m 1 -> _compute_subcorr lib x Phi = Ok (NaN, [1])).
Proof.
  intros Hx HPhi Hm Hr.
  destruct (subcorr_fixed_cases lib Hx HPhi Hm Hr)
    as [[Hz E]|[Hnz (q & Hq & E)]].
  - split; [now exists NaN|]. intros _. exact E.
  - split; [now exists (Fin (lib_sqrt lib q))|]. intros Hz. contradiction.
Qed.

Lemma subcorr_fixed_never_raises_witness :
  (exists c,
      _compute_subcorr exact_lib (zmat [[0]; [2]]%Z) (zmat [[1]; [0]]%Z)
      = Ok (c, [1])) /\
  (zmat [[0]; [2]]%Z = zeros 2 1 ->
   _compute_subcorr exact_lib (zmat [[0]; [2]]%Z) (zmat [[1]; [0]]%Z)
   = Ok (NaN, [1])).
Proof.
  apply (@subcorr_fixed_never_raises exact_lib 2 1).
  - split; [reflexivity|repeat constructor].
  - split; [reflexivity|repeat constructor].
  - lia.
  - lia.
Defined.

(* ================================================================= *)
(** ** The vertices reported *)

Ltac step_bind H :=
  match type of H with
  | bind ?m _ = Ok _ =>
    let E := fresh "E" in
    destruct m eqn:E; cbn [bind] in H; [|discriminate H]
  end.

Lemma map_result_length (T U : Type) (f : T -> result U) (l : list T) (ys : list U) :
  map_result f l = Ok ys -> length ys = length l.
Proof.
  revert ys. induction l as [|a l IH]; intros ys H; simpl in H.
  - now injection H as <-.
  - destruct (f a) as [b|e]; cbn [bind] in H; [|discriminate].
    destruct (map_result f l) as [bs|e]; cbn [bind] in H; [|discriminate].
    injection H as <-. simpl. now rewrite (IH bs eq_refl).
Qed.

Lemma map_result_In (T U : Type) (f : T -> result U) (l : list T) (ys : list U)
      (x : T) :
  map_result f l = Ok ys -> In x l -> exists y, f x = Ok y /\ In y ys.
Proof.
  revert ys. induction l as [|a l IH]; intros ys H Hin; [contradiction|].
  simpl in H.
  destruct (f a) as [b|e] eqn:Ea; cbn [bind] in H; [|discriminate].
  destruct (map_result f l) as [bs|e]; cbn [bind] in H; [|discriminate].
  injection H as <-. destruct Hin as [->|Hin].
  - exists b. split; [assumption|now left].
  - destruct (IH bs eq_refl Hin) as (y & Ey & Hy). exists y. split; [assumption|now right].
Qed.

Lemma take_length (T : Type) (d : T) (v : list T) (idx : list Z) (ys : list T) :
  take d v idx = Ok ys -> length ys = length idx.
Proof. apply map_result_length. Qed.

Lemma hemi_indices_length (L : Z) (l : list Z) :
  (length (right_hemi_indices L l) + length (left_hemi_indices L l)
   = length l)%nat.
Proof.
  unfold right_hemi_indices, left_hemi_indices. rewrite length_map.
  rewrite <- (filter_length (fun i => (L <? i)%Z) l). f_equal.
  f_equal. apply filter_ext. intros i.
  destruct (Z.ltb_spec L i), (Z.leb_spec i L); simpl; lia || reflexivity.
Qed.

(** The rounds of the greedy loop keep the length of the active set. *)
Lemma greedy_loop_keeps_length (lib : numlib) (n_orient n_sources : nat)
      (G phi_sig : matrix) (s : loop_state) :
  greedy_loop lib n_orient n_sources G phi_sig = Ok s ->
  rect (shape0 G) n_sources (A s) /\ length (active_set s) = n_sources.
Proof.
  unfold greedy_loop. intros Hrun.
  apply (@for_each_invariant _ _ (round_body lib n_orient G phi_sig)
           (fun s => rect (shape0 G) n_sources (A s) /\
                     length (active_set s) = n_sources)
           (seq 0 n_sources)) with (s := initial_state n_sources G phi_sig);
    [|split; [apply rect_zeros|apply repeat_length]|exact Hrun].
  intros s0 k s1 _ [HA Hl] Hstep.
  destruct (@round_keeps_shapes lib n_orient (shape0 G) n_sources
              G phi_sig s0 s1 k Hstep HA) as [HA1 Hl1].
  split; [assumption|congruence].
Qed.

Lemma greedy_loop_prefix_length (lib : numlib) (n_orient n_sources k : nat)
      (G phi_sig : matrix) (s : loop_state) :
  for_each (round_body lib n_orient G phi_sig) (seq 0 k)
           (initial_state n_sources G phi_sig) = Ok s ->
  length (active_set s) = n_sources.
Proof.
  intros Hrun.
  apply (@for_each_invariant _ _ (round_body lib n_orient G phi_sig)
           (fun s => rect (shape0 G) n_sources (A s) /\
                     length (active_set s) = n_sources)
           (seq 0 k)) with (s := initial_state n_sources G phi_sig);
    [|split; [apply rect_zeros|apply repeat_length]|exact Hrun].
  intros s0 j s1 _ [HA Hl] Hstep.
  destruct (@round_keeps_shapes lib n_orient (shape0 G) n_sources
              G phi_sig s0 s1 j Hstep HA) as [HA1 Hl1].
  split; [assumption|congruence].
Qed.

(** [_apply_rap_music] after the search: the amplitudes, the explained
    data and the vertices, from the whitened data and the final state of
    the greedy loop. *)
Lemma apply_rap_music_after_search (lib : numlib) (inp : rap_input)
      (data2 : matrix) (final : loop_state) :
  search_sources lib inp = Ok (data2, final) ->
  _apply_rap_music lib inp
  = (D <- explained_data inp (np_sort (active_set final))
                         (lib_lstsq lib (A final) data2) ;;
     v1 <- take 0%Z (vertno1 inp)
                (right_hemi_indices (Z.of_nat (length (vertno0 inp)))
                                    (np_sort (active_set final))) ;;
     v0 <- take 0%Z (vertno0 inp)
                (left_hemi_indices (Z.of_nat (length (vertno0 inp)))
                                   (np_sort (active_set final))) ;;
     Ok {| sol := lib_lstsq lib (A final) data2;
           vertices0 := v0; vertices1 := v1; D := D |}).
Proof.
  unfold search_sources, _apply_rap_music, explained_data. intros H.
  step_bind H; cbn [bind]. step_bind H; cbn [bind]. step_bind H; cbn [bind].
  step_bind H; cbn [bind].
  destruct (lib_eigh lib a2) as [eig_values eig_vectors].
  step_bind H; cbn [bind].
  injection H as <- <-. reflexivity.
Qed.

Lemma take_raises (T : Type) (d : T) (v : list T) (idx : list Z) (e : exn) :
  take d v idx = Raise e -> e = IndexError.
Proof.
  unfold take. induction idx as [|i idx IH]; [discriminate|].
  cbn [map_result].
  destruct (norm_index (length v) i) as [k|e'] eqn:Ei; cbn [bind].
  - destruct (map_result _ idx) as [ys|e'] eqn:Em; cbn [bind]; [discriminate|].
    intros H. injection H as <-. now apply IH.
  - intros H. injection H as <-. eapply norm_index_raises; eauto.
Qed.

Lemma In_np_sort (x : Z) (l : list Z) : In x l -> In x (np_sort l).
Proof.
  intros H. eapply Permutation_in; [|exact H].
  apply Permutation_sym, np_sort_perm.
Qed.

(** X6. Whenever [_apply_rap_music] returns, the vertices it reports, left and
    right hemisphere together, are [n_sources] many: every entry of the
    active set, also one left at [-1], is turned into a vertex. *)
Theorem reported_vertices_count (lib : numlib) (inp : rap_input) (out : rap_output) :
  _apply_rap_music lib inp = Ok out ->
  (length (vertices0 out) + length (vertices1 out) = n_sources inp)%nat.
Proof.
  unfold _apply_rap_music. intros H.
  step_bind H. step_bind H. step_bind H. step_bind H.
  destruct (lib_eigh lib a2) as [eig_values eig_vectors].
  step_bind H. step_bind H. step_bind H. step_bind H.
  injection H as <-. cbn [vertices0 vertices1].
  apply take_length in E5. apply take_length in E6. rewrite E5, E6.
  rewrite Nat.add_comm, hemi_indices_length, np_sort_length.
  now apply greedy_loop_keeps_length in E3.
Qed.

Lemma reported_vertices_count_witness :
  exists out,
    _apply_rap_music exact_lib colinear_input = Ok out /\
    vertices0 out = [30; 10]%Z /\
    (length (vertices0 out) + length (vertices1 out)
     = n_sources colinear_input)%nat.
Proof.
  eexists. split; [vm_compute; reflexivity|].
  split; [reflexivity|].
  apply (@reported_vertices_count exact_lib colinear_input).
  vm_compute. reflexivity.
Defined.

Lemma norm_index_minus_one (n : nat) :
  norm_index n (-1) = if (n =? 0)%nat then Raise IndexError else Ok (n - 1)%nat.
Proof.
  unfold norm_index. cbn [Z.leb Z.compare andb].
  destruct (Nat.eqb_spec n 0) as [->|Hn]; [reflexivity|].
  destruct (Z.leb_spec (- Z.of_nat n) (-1)) as [_|Hlt]; [|lia].
  cbn [Z.ltb Z.compare andb]. f_equal. lia.
Qed.

Lemma nth_last (T : Type) (l : list T) (d : T) :
  nth (length l - 1) l d = last l d.
Proof.
  induction l as [|x l IH]; [reflexivity|].
  destruct l as [|y l]; [reflexivity|].
  cbn [length Nat.sub] in *. rewrite Nat.sub_0_r in IH.
  change (nth (S (length l)) (x :: y :: l) d) with (nth (length l) (y :: l) d).
  rewrite IH. reflexivity.
Qed.

(** X7. An entry of the active set that the search leaves at [-1], by a round
    that selected no candidate, is read by [_apply_rap_music] in the left
    hemisphere's vertex list, as the index [-1]: when it returns, the last
    left-hemisphere vertex is among the vertices reported; with no vertex
    in the left hemisphere it does not return, and raises [IndexError]
    when [D] has been computed. *)
Theorem unselected_entry_reports_last_left_vertex
        (lib : numlib) (inp : rap_input) (data2 : matrix) (final : loop_state) :
  search_sources lib inp = Ok (data2, final) ->
  In (-1)%Z (active_set final) ->
  (forall out, _apply_rap_music lib inp = Ok out ->
     vertno0 inp <> [] /\ In (last (vertno0 inp) 0%Z) (vertices0 out)) /\
  (vertno0 inp = [] ->
   forall D0,
     explained_data inp (np_sort (active_set final))
                    (lib_lstsq lib (A final) data2) = Ok D0 ->
     _apply_rap_music lib inp = Raise IndexError).
Proof.
  intros Hsearch Hin.
  rewrite (@apply_rap_music_after_search lib inp data2 final Hsearch).
  set (L := Z.of_nat (length (vertno0 inp))).
  set (act := np_sort (active_set final)).
  assert (Hleft : In (-1)%Z (left_hemi_indices L act)).
  { unfold left_hemi_indices. apply filter_In.
    split; [now apply In_np_sort|]. apply Z.leb_le. unfold L. lia. }
  assert (Hempty : vertno0 inp = [] ->
                   take 0%Z (vertno0 inp) (left_hemi_indices L act)
                   = Raise IndexError).
  { intros E. unfold take.
    apply (@map_result_raises _ _ _ _ (-1)%Z Hleft).
    - rewrite E. reflexivity.
    - intros y e. destruct (norm_index (length (vertno0 inp)) y) eqn:Ey;
        cbn [bind]; [discriminate|].
      intros H. injection H as <-. eapply norm_index_raises; eauto. }
  split.
  - intros out H.
    destruct (explained_data inp act _) as [D0|e] eqn:ED; cbn [bind] in H;
      [|discriminate].
    destruct (take 0%Z (vertno1 inp) _) as [v1|e] eqn:Ev1; cbn [bind] in H;
      [|discriminate].
    destruct (take 0%Z (vertno0 inp) _) as [v0|e] eqn:Ev0; cbn [bind] in H;
      [|discriminate].
    injection H as <-. cbn [vertices0].
    assert (Hne : vertno0 inp <> []).
    { intros Hnil. discriminate (Hempty Hnil). }
    split; [exact Hne|].
    unfold take in Ev0.
    destruct (@map_result_In _ _ _ _ _ (-1)%Z Ev0 Hleft) as (y & Ey & Hy).
    cbv beta in Ey. rewrite norm_index_minus_one in Ey.
    destruct (length (vertno0 inp) =? 0)%nat; cbn [bind] in Ey; [discriminate|].
    injection Ey as <-. now rewrite nth_last in Hy.
  - intros E D0 ED. rewrite ED. cbn [bind].
    destruct (take 0%Z (vertno1 inp) (right_hemi_indices L act)) as [v1|e] eqn:E1;
      cbn [bind].
    + now rewrite (Hempty E).
    + now rewrite (@take_raises _ _ _ _ _ E1).
Qed.

(** The second round on [colinear_pair_input] selects nothing, and the
    last left-hemisphere vertex is reported. *)
Lemma unselected_entry_reports_last_left_vertex_witness :
  exists out,
    _apply_rap_music exact_lib colinear_pair_input = Ok out /\
    vertno0 colinear_pair_input <> [] /\
    In (last (vertno0 colinear_pair_input) 0%Z) (vertices0 out).
Proof.
  eexists. split; [vm_compute; reflexivity|].
  refine (proj1 (@unselected_entry_reports_last_left_vertex
                   exact_lib colinear_pair_input _ _ _ _) _ _).
  - vm_compute. reflexivity.
  - right. left. reflexivity.
  - vm_compute. reflexivity.
Defined.

(* ================================================================= *)
(** ** The residual *)

(** X8. [return_residual] only decides whether [D] is computed: when the call
    with [return_residual=True] returns, the call with
    [return_residual=False] returns the same amplitudes and vertices, the
    empty list for [D], and [rap_music] returns no residual. *)
Theorem return_residual_only_adds_explained_data
        (lib : numlib) (picked : matrix) (inp : rap_input) (out : rap_output) :
  _apply_rap_music lib inp = Ok out ->
  rap_music lib picked (without_residual inp)
  = Ok ({| sol := sol out;
           vertices0 := vertices0 out;
           vertices1 := vertices1 out;
           D := [] |}, None).
Proof.
  unfold rap_music, _apply_rap_music.
  cbn [without_residual data info_projs is_free_ori proj vertno0 vertno1 gain
       whitener r n_sources pick_ori_normal return_residual].
  intros H.
  step_bind H; cbn [bind]. step_bind H; cbn [bind]. step_bind H; cbn [bind].
  step_bind H; cbn [bind].
  destruct (lib_eigh lib a2) as [eig_values eig_vectors].
  step_bind H; cbn [bind]. step_bind H. step_bind H; cbn [bind].
  step_bind H; cbn [bind].
  injection H as <-. reflexivity.
Qed.

Lemma return_residual_only_adds_explained_data_witness :
  exists out,
    _apply_rap_music exact_lib oblique_input = Ok out /\
    D out = oblique_G /\
    rap_music exact_lib (data oblique_input) (without_residual oblique_input)
    = Ok ({| sol := sol out;
             vertices0 := vertices0 out;
             vertices1 := vertices1 out;
             D := [] |}, None).
Proof.
  eexists. split; [vm_compute; reflexivity|].
  split; [by_array_test|].
  apply (@return_residual_only_adds_explained_data exact_lib).
  vm_compute. reflexivity.
Defined.

(* ================================================================= *)
(** ** Columns *)

Lemma nth_map_row (f : list Qc -> list Qc) (M : matrix) (i : nat) :
  (i < length M)%nat -> nth i (map f M) [] = f (nth i M []).
Proof.
  intros Hi. rewrite (nth_indep _ [] (f [])) by now rewrite length_map.
  apply map_nth.
Qed.

Lemma entry_cols (m N lo hi : nat) (M : matrix) (i j : nat) :
  rect m N M -> (i < m)%nat -> (j < hi - lo)%nat ->
  entry (cols lo hi M) i j = entry M i (lo + j).
Proof.
  intros [Hl _] Hi Hj. unfold entry, cols.
  rewrite (nth_map_row (fun row => firstn (hi - lo) (skipn lo row))) by lia.
  rewrite nth_firstn. destruct (Nat.ltb_spec j (hi - lo)); [|lia].
  apply nth_skipn_shift.
Qed.

Lemma entry_block (m N w : nat) (M : matrix) (c i j : nat) :
  rect m N M -> (i < m)%nat -> (j < w)%nat ->
  entry (block w M c) i j = entry M i (w * c + j).
Proof.
  intros HM Hi Hj. unfold block. apply (entry_cols _ _ HM Hi). lia.
Qed.

Lemma entry_first_cols (m n k : nat) (M : matrix) (i j : nat) :
  rect m n M -> (i < m)%nat -> (j < k)%nat ->
  entry (first_cols k M) i j = entry M i j.
Proof.
  intros [Hl _] Hi Hj. unfold entry, first_cols.
  rewrite (nth_map_row (firstn k)) by lia.
  rewrite nth_firstn. now destruct (Nat.ltb_spec j k); [|lia].
Qed.

Lemma entry_put_col (m n k : nat) (v : vector) (M : matrix) (i j : nat) :
  rect m n M -> length v = m -> (i < m)%nat ->
  entry (put_col k v M) i j
  = if ((j =? k) && (k <? n))%nat then nth i v 0 else entry M i j.
Proof.
  intros HM Hv Hi. pose proof (rect_row HM Hi) as Hrow.
  destruct HM as [Hl _]. unfold entry, put_col.
  rewrite (nth_indep _ [] ((fun rx : list Qc * Qc => set_nth k (snd rx) (fst rx)) ([], 0)))
    by (rewrite length_map, length_combine; lia).
  rewrite (map_nth (fun rx : list Qc * Qc => set_nth k (snd rx) (fst rx))).
  rewrite combine_nth by lia. cbn [fst snd].
  destruct (Nat.eqb_spec j k) as [->|Hne]; cbn [andb].
  - destruct (Nat.ltb_spec k n) as [Hk|Hk].
    + apply nth_set_nth_same. lia.
    + rewrite !nth_overflow; try reflexivity; try lia.
      rewrite length_set_nth. lia.
  - now apply nth_set_nth_other.
Qed.

Lemma nth_every_nth (fuel start step : nat) (row : list Qc) (t : nat) (d : Qc) :
  (length row <= start + fuel * step)%nat ->
  nth t (every_nth fuel start step row) d = nth (start + t * step) row d.
Proof.
  revert start t. induction fuel as [|fuel IH]; intros start t Hfuel.
  - cbn [every_nth]. replace (nth t [] d) with d by now destruct t.
    symmetry. apply nth_overflow. simpl in Hfuel. lia.
  - cbn [every_nth].
    destruct (skipn start row) as [|x rest] eqn:E.
    + assert (length row <= start)%nat.
      { pose proof (length_skipn start row) as H. rewrite E in H. simpl in H. lia. }
      replace (nth t [] d) with d by now destruct t.
      symmetry. apply nth_overflow. lia.
    + pose proof (nth_skipn_shift start 0 row d) as H0.
      rewrite E, Nat.add_0_r in H0. cbn [nth] in H0.
      destruct t as [|t].
      * cbn [nth]. now rewrite Nat.add_0_r.
      * cbn [nth]. rewrite IH by (pose proof (Nat.mul_succ_l fuel step); lia).
        f_equal. pose proof (Nat.mul_succ_l t step). lia.
Qed.

Lemma length_every_nth (fuel start step : nat) (row : list Qc) :
  (0 < step)%nat -> (length row <= start + fuel * step)%nat ->
  length (every_nth fuel start step row)
  = ((length row + step - 1 - start) / step)%nat.
Proof.
  intros Hstep. revert start. induction fuel as [|fuel IH]; intros start Hfuel.
  - simpl. symmetry. apply Nat.div_small. simpl in Hfuel. lia.
  - cbn [every_nth].
    destruct (skipn start row) as [|x rest] eqn:E.
    + assert (length row <= start)%nat.
      { pose proof (length_skipn start row) as H. rewrite E in H. simpl in H. lia. }
      simpl. symmetry. apply Nat.div_small. lia.
    + assert (start < length row)%nat.
      { pose proof (length_skipn start row) as H. rewrite E in H. simpl in H. lia. }
      cbn [length]. rewrite IH by (pose proof (Nat.mul_succ_l fuel step); lia).
      replace (length row + step - 1 - start)%nat
        with (length row + step - 1 - (start + step) + 1 * step)%nat by lia.
      rewrite Nat.div_add by lia. lia.
Qed.

(** X9. Line 86: the slice [G[:, 2::3]] of a leadfield keeps one column for
    each complete three-column block, the third of the block: with
    [pick_ori='normal'] the candidates are those of the free-orientation
    leadfield, each with the last column of its block. *)
Theorem normal_orientation_keeps_third_columns (m N : nat) (G : matrix) :
  rect m N G ->
  rect m (N / 3) (strided_cols 2 3 G) /\
  forall c i, (c < N / 3)%nat -> (i < m)%nat ->
    entry (block 1 (strided_cols 2 3 G) c) i 0 = entry (block 3 G c) i 2.
Proof.
  intros HG.
  assert (Hrect : rect m (N / 3) (strided_cols 2 3 G)).
  { destruct HG as [Hl Hr]. split; unfold strided_cols.
    - now rewrite length_map.
    - apply Forall_forall. intros row Hin.
      apply in_map_iff in Hin. destruct Hin as [row0 [<- Hin]].
      rewrite Forall_forall in Hr. specialize (Hr row0 Hin).
      rewrite length_every_nth by lia. rewrite Hr. f_equal. lia. }
  split; [exact Hrect|].
  intros c i Hc Hi.
  rewrite (@entry_block m (N / 3) 1 _ c i 0 Hrect Hi Nat.lt_0_1).
  rewrite (@entry_block m N 3 _ c i 2 HG Hi) by lia.
  unfold entry, strided_cols.
  rewrite (nth_map_row (fun row => every_nth (length row) 2 3 row))
    by (destruct HG; lia).
  rewrite nth_every_nth by lia. f_equal. lia.
Qed.

Lemma normal_orientation_keeps_third_columns_witness :
  rect 2 (7 / 3) (strided_cols 2 3 (zmat [[1; 2; 3; 4; 5; 6; 7];
                                          [8; 9; 10; 11; 12; 13; 14]]%Z)) /\
  forall c i, (c < 7 / 3)%nat -> (i < 2)%nat ->
    entry (block 1 (strided_cols 2 3 (zmat [[1; 2; 3; 4; 5; 6; 7];
                                            [8; 9; 10; 11; 12; 13; 14]]%Z)) c) i 0
    = entry (block 3 (zmat [[1; 2; 3; 4; 5; 6; 7];
                            [8; 9; 10; 11; 12; 13; 14]]%Z) c) i 2.
Proof.
  apply (@normal_orientation_keeps_third_columns 2 7).
  split; [reflexivity|repeat constructor].
Defined.

Lemma rect_first_cols_min (m n k : nat) (M : matrix) :
  rect m n M -> rect m (Nat.min k n) (first_cols k M).
Proof.
  intros [Hl Hr]. split; unfold first_cols.
  - now rewrite length_map.
  - apply Forall_forall. intros row Hin.
    apply in_map_iff in Hin. destruct Hin as [row0 [<- Hin]].
    rewrite Forall_forall in Hr. specialize (Hr row0 Hin).
    rewrite length_firstn. lia.
Qed.

Lemma first_cols_ext (m n k : nat) (M M' : matrix) :
  rect m n M -> rect m n M' ->
  (forall i j, (i < m)%nat -> (j < k)%nat -> entry M i j = entry M' i j) ->
  first_cols k M = first_cols k M'.
Proof.
  intros HM HM' H.
  apply (@matrix_ext m (Nat.min k n)); try now apply rect_first_cols_min.
  intros i j Hi Hj.
  rewrite (entry_first_cols HM Hi), (entry_first_cols HM' Hi) by lia.
  apply H; lia.
Qed.

(* ================================================================= *)
(** ** What a round writes *)

Lemma round_changes (lib : numlib) (n_orient m ns : nat) (G phi_sig : matrix)
      (s s' : loop_state) (k : nat) :
  round_body lib n_orient G phi_sig s k = Ok s' ->
  rect m ns (A s) ->
  (forall j d, j <> k -> nth j (active_set s') d = nth j (active_set s) d) /\
  (forall i j, (i < m)%nat -> j <> k -> entry (A s') i j = entry (A s) i j).
Proof.
  intros Hrun HA.
  destruct (round_body_inv _ _ _ _ _ _ Hrun)
    as (found & P & Hscan & EA & Eas & _).
  pose proof (scan_invariant _ _ _ _ _ _ _ Hscan) as Hout.
  cbn [subcorr_max scan_active_set scan_A] in Hout.
  rewrite EA, Eas.
  destruct Hout as [(_ & Has' & HA' & _)
                   |(w & ow & colw & _ & _ & _ & _ & Has' & HA' & _)].
  - rewrite HA', Has'. auto.
  - apply set_col_inv in HA'. destruct HA' as (-> & Hlen & _).
    rewrite Has'. split.
    + intros j d Hj. now apply nth_set_nth_other.
    + intros i j Hi Hj.
      rewrite (@entry_put_col m ns k colw (A s) i j HA)
        by (try assumption; destruct HA; congruence).
      destruct (Nat.eqb_spec j k); [contradiction|reflexivity].
Qed.

(** X10. Round [k] writes nothing but entry [k] of the active set and column
    [k] of the topographies: what the earlier rounds recorded is kept. *)
Theorem round_writes_its_own_column_only
        (lib : numlib) (n_orient m ns : nat) (G phi_sig : matrix)
        (s s' : loop_state) (k : nat) :
  round_body lib n_orient G phi_sig s k = Ok s' ->
  rect m ns (A s) ->
  rect m ns (A s') /\
  length (active_set s') = length (active_set s) /\
  (forall j d, j <> k -> nth j (active_set s') d = nth j (active_set s) d) /\
  (forall i j, (i < m)%nat -> j <> k -> entry (A s') i j = entry (A s) i j) /\
  first_cols k (A s') = first_cols k (A s).
Proof.
  intros Hrun HA.
  destruct (@round_keeps_shapes lib n_orient m ns G phi_sig s s' k Hrun HA)
    as [HA' Hlen].
  destruct (@round_changes lib n_orient m ns G phi_sig s s' k Hrun HA)
    as [Has Hent].
  repeat split; try assumption; try (destruct HA'; assumption).
  apply (first_cols_ext HA' HA). intros i j Hi Hj. apply Hent; [assumption|lia].
Qed.

Lemma round_writes_its_own_column_only_witness :
  exists s1 s2,
    round_body exact_lib 1 oblique_G (identity 2)
               (initial_state 2 oblique_G (identity 2)) 0 = Ok s1 /\
    round_body exact_lib 1 oblique_G (identity 2) s1 1 = Ok s2 /\
    rect 2 2 (A s2) /\
    length (active_set s2) = length (active_set s1) /\
    (forall j d, j <> 1%nat -> nth j (active_set s2) d = nth j (active_set s1) d) /\
    (forall i j, (i < 2)%nat -> j <> 1%nat -> entry (A s2) i j = entry (A s1) i j) /\
    first_cols 1 (A s2) = first_cols 1 (A s1).
Proof.
  eexists. eexists.
  split; [vm_compute; reflexivity|].
  split; [vm_compute; reflexivity|].
  apply (@round_writes_its_own_column_only exact_lib 1 2 2 oblique_G (identity 2)).
  - vm_compute. reflexivity.
  - split; [reflexivity|repeat constructor].
Defined.

(* ================================================================= *)
(** ** No candidate *)

(** X11. With free orientation and a leadfield of fewer than three columns
    there is no candidate to scan: the first round then reads the
    orientation [ori], which no scan has assigned, for its progress
    message, and the loop raises [UnboundLocalError] as soon as one
    source is asked for. *)
Theorem free_orientation_without_candidate_raises
        (lib : numlib) (n_sources : nat) (G phi_sig : matrix) :
  (shape1 G < 3)%nat -> (0 < n_sources)%nat ->
  greedy_loop lib 3 n_sources G phi_sig = Raise UnboundLocalError.
Proof.
  intros HG Hn. unfold greedy_loop.
  destruct n_sources as [|n]; [lia|].
  cbn [seq for_each]. unfold round_body at 1.
  rewrite (Nat.div_small _ _ HG). reflexivity.
Qed.

Lemma free_orientation_without_candidate_raises_witness :
  greedy_loop exact_lib 3 1 (zmat [[1; 0]; [0; 1]; [0; 0]]%Z)
              (zmat [[1]; [0]; [0]]%Z)
  = Raise UnboundLocalError.
Proof.
  apply (@free_orientation_without_candidate_raises exact_lib 1).
  - vm_compute. lia.
  - lia.
Defined.

(* ================================================================= *)
(** ** Deflation, round after round *)

Lemma cols_matmul (m n N lo hi : nat) (P M : matrix) :
  rect m n P -> rect n N M -> (0 < n)%nat -> (lo <= hi)%nat -> (hi <= N)%nat ->
  cols lo hi (matmul P M) = matmul P (cols lo hi M).
Proof.
  intros HP HM Hn Hlo Hhi.
  pose proof (rect_cols HM Hlo Hhi) as Hc.
  pose proof (rect_matmul HP HM Hn) as HPM.
  apply (@matrix_ext m (hi - lo));
    [apply (rect_cols HPM Hlo Hhi)|apply (rect_matmul HP Hc Hn)|].
  intros i j Hi Hj.
  rewrite (entry_cols _ _ HPM Hi Hj).
  rewrite (entry_matmul HP HM Hn Hi) by lia.
  rewrite (entry_matmul HP Hc Hn Hi Hj).
  apply sum_upto_ext. intros k Hk.
  now rewrite (entry_cols _ _ HM Hk Hj).
Qed.

Lemma first_cols_matmul (m n N k : nat) (P M : matrix) :
  rect m n P -> rect n N M -> (0 < n)%nat -> (k <= N)%nat ->
  first_cols k (matmul P M) = matmul P (first_cols k M).
Proof.
  intros HP HM Hn Hk.
  pose proof (rect_first_cols HM Hk) as Hc.
  pose proof (rect_matmul HP HM Hn) as HPM.
  apply (@matrix_ext m k);
    [apply (rect_first_cols HPM Hk)|apply (rect_matmul HP Hc Hn)|].
  intros i j Hi Hj.
  rewrite (entry_first_cols HPM Hi Hj).
  rewrite (entry_matmul HP HM Hn Hi) by lia.
  rewrite (entry_matmul HP Hc Hn Hi Hj).
  apply sum_upto_ext. intros t Ht.
  now rewrite (entry_first_cols HM Ht Hj).
Qed.

Lemma cols_zeros (m n lo hi : nat) :
  (lo <= hi)%nat -> (hi <= n)%nat -> cols lo hi (zeros m n) = zeros m (hi - lo).
Proof.
  intros Hlo Hhi.
  apply (@matrix_ext m (hi - lo));
    [apply (rect_cols (rect_zeros m n) Hlo Hhi)|apply rect_zeros|].
  intros i j Hi Hj.
  now rewrite (entry_cols _ _ (rect_zeros m n) Hi Hj), !entry_zeros.
Qed.

Lemma block_zeros (m N w c : nat) :
  (w * c + w <= N)%nat -> block w (zeros m N) c = zeros m w.
Proof.
  intros H. unfold block. rewrite cols_zeros by lia. f_equal. lia.
Qed.

Lemma first_cols_zeros (m n k : nat) :
  (k <= n)%nat -> first_cols k (zeros m n) = zeros m k.
Proof.
  intros Hk.
  apply (@matrix_ext m k);
    [apply (rect_first_cols (rect_zeros m n) Hk)|apply rect_zeros|].
  intros i j Hi Hj.
  now rewrite (entry_first_cols (rect_zeros m n) Hi Hj), !entry_zeros.
Qed.

Lemma first_cols_first_cols (m n k k' : nat) (M : matrix) :
  rect m n M -> (k <= k')%nat -> (k' <= n)%nat ->
  first_cols k (first_cols k' M) = first_cols k M.
Proof.
  intros HM Hk Hk'.
  pose proof (rect_first_cols HM Hk') as H'.
  apply (@matrix_ext m k);
    [apply (rect_first_cols H' Hk)|apply (@rect_first_cols m n); [assumption|lia]|].
  intros i j Hi Hj.
  rewrite (entry_first_cols H' Hi Hj), (entry_first_cols HM Hi Hj).
  apply (entry_first_cols HM Hi). lia.
Qed.

Lemma rect_projector_of (lib : numlib) (m : nat) (A0 : matrix) :
  (0 < m)%nat -> rect m m (projector_of lib m A0).
Proof. intros Hm. unfold projector_of. apply projector_rect. exact Hm. Qed.

(** What a round leaves in the working arrays: the original arrays
    deflated by the projector of the topographies found so far. *)
Lemma round_deflation (lib : numlib) (n_orient m N r0 ns : nat)
      (G phi_sig : matrix) (s s' : loop_state) (k : nat) :
  (0 < m)%nat -> rect m N G -> rect m r0 phi_sig -> rect m ns (A s) ->
  (k < ns)%nat -> pinv_keeps_shape lib ->
  round_body lib n_orient G phi_sig s k = Ok s' ->
  G_proj s' = matmul (projector_of lib m (first_cols (k + 1) (A s'))) G /\
  phi_sig_proj s'
  = matmul (projector_of lib m (first_cols (k + 1) (A s'))) phi_sig.
Proof.
  intros Hm HG HPhi HA Hk Hpinv Hrun.
  destruct (@round_keeps_shapes lib n_orient m ns G phi_sig s s' k Hrun HA)
    as [HA' _].
  destruct (round_body_inv _ _ _ _ _ _ Hrun)
    as (found & P & _ & _ & _ & EP & EG & Ephi).
  set (A1 := first_cols (k + 1) (A s')) in *.
  assert (Hk1 : (0 < k + 1)%nat) by lia.
  assert (HA1 : rect m (k + 1) A1) by (apply (rect_first_cols HA'); lia).
  pose proof (rect_matmul (rect_transpose HA1 Hm) HA1 Hm) as Hgram.
  pose proof (Hpinv _ _ Hgram) as HX.
  rewrite (compute_proj_value HA1 Hm Hk1 HX lib eq_refl) in EP.
  injection EP as <-.
  apply np_dot_inv in EG. apply np_dot_inv in Ephi.
  now rewrite EG, Ephi.
Qed.

(** The projector of the first [k + 1] topographies annihilates the first
    [k] of them, so it absorbs the projector of the round before. *)
Lemma deflation_absorbs (lib : numlib) (m n k ns : nat) (A0 A1 W0 W : matrix) :
  (0 < m)%nat -> rect m n W0 -> rect m ns A0 -> rect m ns A1 -> (k < ns)%nat ->
  first_cols k A1 = first_cols k A0 ->
  pinv_keeps_shape lib ->
  matmul (matmul (matmul (transpose (first_cols (k + 1) A1)) (first_cols (k + 1) A1))
                 (lib_pinv lib (matmul (transpose (first_cols (k + 1) A1))
                                       (first_cols (k + 1) A1))))
         (matmul (transpose (first_cols (k + 1) A1)) (first_cols (k + 1) A1))
  = matmul (transpose (first_cols (k + 1) A1)) (first_cols (k + 1) A1) ->
  deflation_of lib m k A0 W0 W ->
  matmul (projector_of lib m (first_cols (k + 1) A1)) W0
  = matmul (projector_of lib m (first_cols (k + 1) A1)) W.
Proof.
  intros Hm HW0 HA0 HA1 Hk Hpre Hpinv HGXG [[_ ->]|[Hk0 ->]]; [reflexivity|].
  set (B1 := first_cols (k + 1) A1) in *.
  set (B0 := first_cols k A0) in *.
  assert (Hk1 : (0 < k + 1)%nat) by lia.
  assert (HB1 : rect m (k + 1) B1) by (apply (rect_first_cols HA1); lia).
  assert (HB0 : rect m k B0) by (apply (rect_first_cols HA0); lia).
  pose proof (Hpinv _ _ (rect_matmul (rect_transpose HB1 Hm) HB1 Hm)) as HX1.
  pose proof (Hpinv _ _ (rect_matmul (rect_transpose HB0 Hm) HB0 Hm)) as HX0.
  pose proof (rect_projector_of lib B1 Hm) as HP1.
  pose proof (rect_projector_of lib B0 Hm) as HP0.
  pose proof (projector_annihilates HB1 Hm Hk1 HX1 HGXG) as Hann.
  fold (projector_of lib m B1) in Hann.
  assert (Hann0 : matmul (projector_of lib m B1) B0 = zeros m k).
  { rewrite <- Hpre.
    rewrite <- (@first_cols_first_cols m ns k (k + 1) A1 HA1) by lia.
    fold B1.
    rewrite <- (first_cols_matmul HP1 HB1 Hm) by lia.
    rewrite Hann. apply first_cols_zeros. lia. }
  rewrite <- (matmul_assoc HP1 HP0 HW0 Hm Hm). f_equal.
  unfold projector_of at 3.
  set (X0 := lib_pinv lib (matmul (transpose B0) B0)) in *.
  pose proof (rect_transpose HB0 Hm) as HB0t.
  pose proof (rect_matmul (rect_matmul HB0 HX0 Hk0) HB0t Hk0) as HE0.
  rewrite (matmul_msub_r HP1 (rect_identity m) HE0 Hm Hm).
  rewrite (matmul_identity_r HP1 Hm).
  rewrite <- (matmul_assoc HP1 (rect_matmul HB0 HX0 Hk0) HB0t Hm Hk0).
  rewrite <- (matmul_assoc HP1 HB0 HX0 Hm Hk0).
  rewrite Hann0.
  rewrite (matmul_zeros_l m HX0 Hk0), (matmul_zeros_l m HB0t Hk0).
  symmetry. apply (msub_zeros_r HP1 Hm).
Qed.

(** The form of the working arrays after [k] rounds. *)
Lemma rounds_deflation (lib : numlib) (n_orient m N r0 ns : nat)
      (G phi_sig : matrix) (k : nat) (s : loop_state) :
  (0 < m)%nat -> rect m N G -> rect m r0 phi_sig -> pinv_keeps_shape lib ->
  (k <= ns)%nat ->
  for_each (round_body lib n_orient G phi_sig) (seq 0 k)
           (initial_state ns G phi_sig) = Ok s ->
  rect m ns (A s) /\
  deflation_of lib m k (A s) G (G_proj s) /\
  deflation_of lib m k (A s) phi_sig (phi_sig_proj s).
Proof.
  intros Hm HG HPhi Hpinv. revert s.
  induction k as [|k IH]; intros s Hk Hrun.
  - simpl in Hrun. injection Hrun as <-. cbn [initial_state A G_proj phi_sig_proj].
    rewrite (rect_shape0 HG).
    split; [apply rect_zeros|]. split; left; auto.
  - rewrite seq_S, for_each_app in Hrun. cbn [Nat.add] in Hrun.
    destruct (for_each _ (seq 0 k) _) as [sk|e] eqn:Ek; cbn [bind] in Hrun;
      [|discriminate].
    cbn [for_each] in Hrun.
    destruct (round_body lib n_orient G phi_sig sk k) as [s1|e] eqn:Es;
      cbn [bind] in Hrun; [|discriminate].
    injection Hrun as <-.
    destruct (IH sk ltac:(lia) eq_refl) as (HA & _).
    destruct (@round_keeps_shapes lib n_orient m ns G phi_sig sk s1 k Es HA)
      as [HA1 _].
    destruct (@round_deflation lib n_orient m N r0 ns G phi_sig sk s1 k
                Hm HG HPhi HA ltac:(lia) Hpinv Es) as [EG EP].
    split; [assumption|].
    replace (S k) with (k + 1)%nat by lia.
    split; right; (split; [lia|assumption]).
Qed.

(** X12. Computing the deflation from the original arrays in every round, as
    lines 115 and 116 do, gives what deflating the working arrays of the
    round before would give: the projector of the first [k + 1] topographies
    absorbs the projector of the first [k]. *)
Theorem deflation_composes
        (lib : numlib) (n_orient m N r0 ns : nat) (G phi_sig : matrix)
        (k : nat) (s s' : loop_state) :
  (0 < m)%nat -> rect m N G -> rect m r0 phi_sig -> pinv_keeps_shape lib ->
  (k < ns)%nat ->
  for_each (round_body lib n_orient G phi_sig) (seq 0 k)
           (initial_state ns G phi_sig) = Ok s ->
  round_body lib n_orient G phi_sig s k = Ok s' ->
  moore_penrose
    (matmul (transpose (first_cols (k + 1) (A s'))) (first_cols (k + 1) (A s')))
    (lib_pinv lib (matmul (transpose (first_cols (k + 1) (A s')))
                          (first_cols (k + 1) (A s')))) ->
  G_proj s'
  = matmul (projector_of lib m (first_cols (k + 1) (A s'))) (G_proj s) /\
  phi_sig_proj s'
  = matmul (projector_of lib m (first_cols (k + 1) (A s'))) (phi_sig_proj s).
Proof.
  intros Hm HG HPhi Hpinv Hk Hpre Hrun (_ & HGXG & _).
  destruct (@rounds_deflation lib n_orient m N r0 ns G phi_sig k s
              Hm HG HPhi Hpinv ltac:(lia) Hpre) as (HA & HdG & HdP).
  destruct (@round_keeps_shapes lib n_orient m ns G phi_sig s s' k Hrun HA)
    as [HA' _].
  destruct (@round_changes lib n_orient m ns G phi_sig s s' k Hrun HA)
    as [_ Hent].
  assert (Hfirst : first_cols k (A s') = first_cols k (A s)).
  { apply (first_cols_ext HA' HA). intros i j Hi Hj. apply Hent; [assumption|lia]. }
  destruct (@round_deflation lib n_orient m N r0 ns G phi_sig s s' k
              Hm HG HPhi HA Hk Hpinv Hrun) as [EG EP].
  rewrite EG, EP. split.
  - apply (@deflation_absorbs lib m N k ns (A s) (A s') G (G_proj s));
      assumption.
  - apply (@deflation_absorbs lib m r0 k ns (A s) (A s') phi_sig (phi_sig_proj s));
      assumption.
Qed.

Lemma deflation_composes_witness :
  exists s1 s2,
    for_each (round_body exact_lib 1 oblique_G (identity 2)) (seq 0 1)
             (initial_state 2 oblique_G (identity 2)) = Ok s1 /\
    round_body exact_lib 1 oblique_G (identity 2) s1 1 = Ok s2 /\
    G_proj s2
    = matmul (projector_of exact_lib 2 (first_cols (1 + 1) (A s2))) (G_proj s1) /\
    phi_sig_proj s2
    = matmul (projector_of exact_lib 2 (first_cols (1 + 1) (A s2)))
             (phi_sig_proj s1).
Proof.
  eexists. eexists.
  split; [vm_compute; reflexivity|].
  split; [vm_compute; reflexivity|].
  apply (@deflation_composes exact_lib 1 2 2 2 2 oblique_G (identity 2) 1).
  - lia.
  - split; [reflexivity|repeat constructor].
  - apply rect_identity.
  - apply exact_pinv_keeps_shape.
  - lia.
  - vm_compute. reflexivity.
  - vm_compute. reflexivity.
  - penrose_by_test.
Defined.

(* ================================================================= *)
(** ** The rounds in fixed orientation *)

Lemma np_gt_nan_l (b : npfloat) : np_gt NaN b = false.
Proof. reflexivity. Qed.

(** A candidate of one column whose working block is zero compares
    greater than nothing. *)
Lemma fixed_candidate_gt (lib : numlib) (m N r0 : nat) (Gp Pp : matrix) (c : nat) :
  (0 < m)%nat -> (0 < r0)%nat -> rect m N Gp -> rect m r0 Pp -> (c < N)%nat ->
  (block 1 Gp c = zeros m 1 ->
   forall b, np_gt (candidate_subcorr lib 1 Gp Pp c) b = false) /\
  exists cc, _compute_subcorr lib (block 1 Gp c) Pp = Ok (cc, [1]).
Proof.
  intros Hm Hr HGp HPp Hc.
  assert (Hc' : (c < N / 1)%nat) by now rewrite Nat.div_1_r.
  pose proof (@rect_block m N 1 c Gp HGp Nat.lt_0_1 Hc') as HB.
  unfold candidate_subcorr.
  destruct (subcorr_fixed_cases lib HB HPp Hm Hr)
    as [[Hz E]|[Hnz (q & Hq & E)]]; rewrite E.
  - split; [intros _ b; apply np_gt_nan_l|]. now exists NaN.
  - split; [intros Hz; contradiction|].
    now exists (Fin (lib_sqrt lib q)).
Qed.

(** What a round in fixed orientation does: nothing, no candidate
    comparing greater than [-1]; or it records a winner, whose working block
    is not zero and becomes column [k] of the topographies. *)
Lemma fixed_round_outcome (lib : numlib) (m N r0 ns : nat) (G phi_sig : matrix)
      (s s' : loop_state) (k : nat) :
  (0 < m)%nat -> (0 < r0)%nat -> rect m N G ->
  rect m N (G_proj s) -> rect m r0 (phi_sig_proj s) -> rect m ns (A s) ->
  round_body lib 1 G phi_sig s k = Ok s' ->
  (A s' = A s /\ active_set s' = active_set s /\
   forall c, (c < N)%nat ->
     np_gt (candidate_subcorr lib 1 (G_proj s) (phi_sig_proj s) c)
           (Fin (qz (-1))) = false)
  \/
  (exists w, (w < N)%nat /\ (k < ns)%nat /\
     active_set s' = set_nth k (Z.of_nat w) (active_set s) /\
     block 1 (G_proj s) w <> zeros m 1 /\
     cols k (k + 1) (A s') = block 1 (G_proj s) w).
Proof.
  intros Hm Hr HG HGp HPp HA Hrun.
  destruct (@round_keeps_shapes lib 1 m ns G phi_sig s s' k Hrun HA) as [HA' _].
  destruct (round_body_inv _ _ _ _ _ _ Hrun)
    as (found & P & Hscan & EA & Eas & _).
  pose proof (scan_invariant _ _ _ _ _ _ _ Hscan) as Hout.
  cbn [subcorr_max scan_active_set scan_A] in Hout.
  rewrite (rect_shape1 HG Hm), Nat.div_1_r in Hout.
  unfold scan_outcome in Hout. rewrite <- EA, <- Eas in Hout.
  destruct Hout as [(_ & Has' & HAeq & Hlow)
                   |(w & ow & colw & Hw & Ec & Ed & _ & Has' & Hset & Hgt & _)].
  - left. auto.
  - right. exists w.
    destruct (@fixed_candidate_gt lib m N r0 (G_proj s) (phi_sig_proj s) w
                Hm Hr HGp HPp Hw) as (Hzero & cc & Ecc).
    rewrite Ecc in Ec. injection Ec as Ecw Eow. subst ow.
    apply set_col_inv in Hset. destruct Hset as (EA' & Hlen & Hk).
    rewrite (rect_shape1 HA Hm) in Hk.
    assert (Hw' : (w < N / 1)%nat) by now rewrite Nat.div_1_r.
    pose proof (@rect_block m N 1 w (G_proj s) HGp Nat.lt_0_1 Hw') as HB.
    split; [assumption|]. split; [assumption|]. split; [assumption|].
    split.
    + intros Hz. rewrite (Hzero Hz) in Hgt. discriminate.
    + assert (Hlen' : length colw = m) by (destruct HA; congruence).
      apply (@matrix_ext m 1).
      * replace 1%nat with (k + 1 - k)%nat at 1 by lia.
        apply (@rect_cols m ns); [assumption|lia|lia].
      * assumption.
      * intros i j Hi Hj. assert (j = 0%nat) by lia. subst j.
        rewrite (@entry_cols m ns k (k + 1) (A s') i 0 HA' Hi) by lia.
        rewrite EA'.
        rewrite (@entry_put_col m ns k colw (A s) i (k + 0) HA Hlen' Hi).
        replace (k + 0 =? k)%nat with true by (symmetry; apply Nat.eqb_eq; lia).
        destruct (Nat.ltb_spec k ns) as [_|Hge]; [|lia]. cbn [andb].
        rewrite (@np_dot_vec_ok m 1 _ [1] HB Hm eq_refl) in Ed.
        injection Ed as <-. unfold matvec.
        rewrite (nth_indep _ 0
                   ((fun row => sum_upto (length [1])
                                  (fun t => nth t row 0 * nth t [1] 0)) []))
          by (rewrite length_map; destruct HB; lia).
        rewrite (map_nth (fun row => sum_upto (length [1])
                                       (fun t => nth t row 0 * nth t [1] 0))).
        cbn [length sum_upto nth]. unfold entry. ring.
Qed.

(* ================================================================= *)
(** ** The hemisphere of a selected candidate *)

Lemma norm_index_range (n : nat) (i : Z) (k : nat) :
  norm_index n i = Ok k -> (- Z.of_nat n <= i < Z.of_nat n)%Z.
Proof.
  unfold norm_index.
  destruct (Z.leb_spec 0 i), (Z.ltb_spec i (Z.of_nat n)); cbn [andb];
    try (intros _; lia).
  - destruct (Z.leb_spec (- Z.of_nat n) i), (Z.ltb_spec i 0); cbn [andb];
      try discriminate; intros _; lia.
  - destruct (Z.leb_spec (- Z.of_nat n) i), (Z.ltb_spec i 0); cbn [andb];
      try discriminate; intros _; lia.
Qed.



(* ================================================================= *)
(** ** Edge cases of the projector *)

(** X16. The projector of topographies that are all zero, as a round that
    selected nothing leaves them before anything was found, is the
    identity whatever [linalg.pinv] returns for the zero Gram matrix (an
    array of its shape): the deflation then changes nothing. *)
Theorem projector_of_zero_topographies_is_identity
        (lib : numlib) (m k : nat) :
  (0 < m)%nat -> (0 < k)%nat -> pinv_keeps_shape lib ->
  _compute_proj lib (zeros m k) = Ok (identity m).
Proof.
  intros Hm Hk Hpinv.
  pose proof (rect_zeros m k) as HZ.
  pose proof (rect_transpose HZ Hm) as HZt.
  pose proof (Hpinv _ _ (rect_matmul HZt HZ Hm)) as HX.
  rewrite (compute_proj_value HZ Hm Hk HX lib eq_refl). f_equal.
  rewrite (matmul_zeros_l m HX Hk), (matmul_zeros_l m HZt Hk).
  apply (msub_zeros_r (rect_identity m) Hm).
Qed.

Lemma projector_of_zero_topographies_is_identity_witness :
  _compute_proj exact_lib (zeros 2 3) = Ok (identity 2).
Proof.
  apply (@projector_of_zero_topographies_is_identity exact_lib 2 3).
  - lia.
  - lia.
  - apply exact_pinv_keeps_shape.
Defined.

(* ================================================================= *)
(** ** Candidate indices and vertex numbers *)

Lemma left_hemi_all_right (L : Z) (l : list Z) :
  Forall (fun i => (L < i)%Z) l ->
  left_hemi_indices L l = [] /\
  right_hemi_indices L l = map (fun i => (i - L)%Z) l.
Proof.
  induction 1 as [|x l Hx Hl [IH0 IH1]]; [split; reflexivity|].
  unfold left_hemi_indices, right_hemi_indices in *. cbn [filter map].
  destruct (Z.leb_spec x L); [lia|]. destruct (Z.ltb_spec L x); [|lia].
  cbn [map]. split; [assumption|]. now rewrite IH1.
Qed.

Lemma take_in_range (vertno : list Z) (idx : list Z) :
  Forall (fun i => (0 <= i < Z.of_nat (length vertno))%Z) idx ->
  take 0%Z vertno idx = Ok (map (fun i => nth (Z.to_nat i) vertno 0%Z) idx).
Proof.
  induction 1 as [|x l Hx Hl IH]; [reflexivity|].
  unfold take in *. cbn [map_result map]. unfold norm_index at 1.
  destruct (Z.leb_spec 0 x); [|lia].
  destruct (Z.ltb_spec x (Z.of_nat (length vertno))); [|lia].
  cbn [andb bind]. now rewrite IH.
Qed.

(** The two indexings of lines 126-128 on candidate indices none of which
    is the number of left-hemisphere vertices. *)
Lemma vertices_of_candidates (vertno0 vertno1 active_set : list Z) :
  Forall (fun i => (0 <= i < Z.of_nat (length vertno0 + length vertno1))%Z /\
                   i <> Z.of_nat (length vertno0)) active_set ->
  exists v0 v1,
    take 0%Z vertno1
         (right_hemi_indices (Z.of_nat (length vertno0)) (np_sort active_set))
    = Ok v1 /\
    take 0%Z vertno0
         (left_hemi_indices (Z.of_nat (length vertno0)) (np_sort active_set))
    = Ok v0 /\
    v0 ++ v1 = map (fun i => nth (Z.to_nat i) (vertno0 ++ vertno1) 0%Z)
                   (np_sort active_set).
Proof.
  intros Hall.
  pose proof (np_sort_Forall Hall) as Hs.
  pose proof (Sorted_StronglySorted Z.le_trans (np_sort_sorted active_set)) as Hsort.
  set (L := Z.of_nat (length vertno0)) in *.
  induction Hsort as [|x l Hl IH Hx].
  - exists [], []. repeat split.
  - inversion Hs as [|? ? [Hrange Hne] Hs']. subst.
    destruct (IH Hs') as (v0 & v1 & E1 & E0 & Eapp).
    destruct (Z.leb_spec x L) as [Hle|Hgt].
    + (* a left-hemisphere candidate *)
      exists (nth (Z.to_nat x) vertno0 0%Z :: v0), v1.
      unfold left_hemi_indices, right_hemi_indices in *. cbn [filter].
      destruct (Z.leb_spec x L); [|lia]. destruct (Z.ltb_spec L x); [lia|].
      split; [assumption|]. split.
      * unfold take in *. cbn [map_result]. unfold norm_index at 1.
        destruct (Z.leb_spec 0 x); [|lia].
        destruct (Z.ltb_spec x (Z.of_nat (length vertno0))); [|unfold L in *; lia].
        cbn [andb bind]. now rewrite E0.
      * cbn [map app]. rewrite Eapp. f_equal.
        rewrite app_nth1 by (unfold L in *; lia). reflexivity.
    + (* a right-hemisphere candidate: so are all that follow *)
      assert (Hright : Forall (fun i => (L < i)%Z) (x :: l)).
      { constructor; [assumption|].
        eapply Forall_impl; [|exact Hx]. intros i Hi. cbv beta in Hi. lia. }
      destruct (left_hemi_all_right Hright) as [El Er].
      exists [], (map (fun i => nth (Z.to_nat i) vertno1 0%Z)
                      (map (fun i => (i - L)%Z) (x :: l))).
      rewrite El, Er. split; [|split; [reflexivity|]].
      * apply take_in_range. apply Forall_map.
        eapply Forall_impl; [|exact (Forall_and Hright Hs)].
        intros i [Hi [Hr _]]. cbv beta. unfold L in *. lia.
      * cbn [app]. rewrite map_map. apply map_ext_in. intros i Hi.
        rewrite Forall_forall in Hright, Hs.
        pose proof (Hright i Hi) as H1. destruct (Hs i Hi) as [H2 _].
        rewrite app_nth2 by (unfold L in *; lia).
        f_equal. unfold L in *. lia.
Qed.

(** X17. When every entry of the active set that the search leaves is a
    candidate index of the source space other than the number [L] of
    left-hemisphere vertices, the vertex lines of [_apply_rap_music] do not
    raise, and the vertices it reports, left hemisphere and then right,
    are the vertex numbers of the candidates in ascending order of the
    candidate indices: of candidate [i] the entry [i] of the two vertex
    lists joined. *)
Theorem reported_vertices_are_vertex_numbers
        (lib : numlib) (inp : rap_input) (data2 : matrix) (final : loop_state)
        (D0 : matrix) :
  search_sources lib inp = Ok (data2, final) ->
  explained_data inp (np_sort (active_set final))
                 (lib_lstsq lib (A final) data2) = Ok D0 ->
  Forall (fun i =>
            (0 <= i < Z.of_nat (length (vertno0 inp) + length (vertno1 inp)))%Z /\
            i <> Z.of_nat (length (vertno0 inp))) (active_set final) ->
  exists out,
    _apply_rap_music lib inp = Ok out /\
    vertices0 out ++ vertices1 out
    = map (fun i => nth (Z.to_nat i) (vertno0 inp ++ vertno1 inp) 0%Z)
          (np_sort (active_set final)).
Proof.
  intros Hsearch ED Hall.
  rewrite (@apply_rap_music_after_search lib inp data2 final Hsearch).
  destruct (vertices_of_candidates (vertno0 inp) (vertno1 inp) Hall)
    as (v0 & v1 & E1 & E0 & Eapp).
  rewrite ED, E1, E0. cbn [bind].
  eexists. split; [reflexivity|]. exact Eapp.
Qed.

(** On [oblique_pair_input] the candidates 0 and 1 are selected, and the
    vertices 10 and 20 reported. *)
Lemma reported_vertices_are_vertex_numbers_witness :
  exists out,
    _apply_rap_music exact_lib oblique_pair_input = Ok out /\
    vertices0 out ++ vertices1 out = [10; 20]%Z.
Proof.
  eassert (Hsearch : search_sources exact_lib oblique_pair_input = Ok (_, _))
    by (vm_compute; reflexivity).
  match type of Hsearch with
  | _ = Ok (?d, ?f) =>
    eassert (ED : explained_data oblique_pair_input (np_sort (active_set f))
                                 (lib_lstsq exact_lib (A f) d) = Ok _)
      by (vm_compute; reflexivity)
  end.
  destruct (@reported_vertices_are_vertex_numbers
              exact_lib oblique_pair_input _ _ _ Hsearch ED)
    as (out & E & Ev).
  - repeat constructor; cbn; lia.
  - exists out. split; [exact E|]. rewrite Ev. reflexivity.
Defined.

(* ================================================================= *)
(** ** The correlations of a run *)



(* ================================================================= *)
(** ** The topographies of a run *)

Lemma projector_left_annihilates (m k : nat) (A0 X : matrix) :
  rect m k A0 -> (0 < m)%nat -> (0 < k)%nat -> rect k k X ->
  matmul (matmul (matmul (transpose A0) A0) X) (matmul (transpose A0) A0)
  = matmul (transpose A0) A0 ->
  matmul (transpose A0)
         (msub (identity m) (matmul (matmul A0 X) (transpose A0)))
  = zeros k m.
Proof.
  intros HA Hm Hk HX HGXG.
  pose proof (projector_rect A0 X Hm) as HP.
  rewrite <- (projector_symmetric HA Hm Hk HX HGXG).
  rewrite <- (transpose_matmul HP HA Hm Hm Hk).
  rewrite (projector_annihilates HA Hm Hk HX HGXG).
  now apply transpose_zeros.
Qed.

(** What the rounds so far have not written is as it was initialised. *)
Lemma rounds_untouched (lib : numlib) (n_orient m N r0 ns : nat)
      (G phi_sig : matrix) (k : nat) (s : loop_state) :
  (0 < m)%nat -> rect m N G -> rect m r0 phi_sig -> pinv_keeps_shape lib ->
  (k <= ns)%nat ->
  for_each (round_body lib n_orient G phi_sig) (seq 0 k)
           (initial_state ns G phi_sig) = Ok s ->
  (forall j, (k <= j)%nat -> nth j (active_set s) (-1)%Z = (-1)%Z) /\
  (forall i j, (i < m)%nat -> (k <= j)%nat -> entry (A s) i j = 0).
Proof.
  intros Hm HG HPhi Hpinv. revert s.
  induction k as [|k IH]; intros s Hk Hrun.
  - simpl in Hrun. injection Hrun as <-. cbn [initial_state A active_set].
    split.
    + intros j _. destruct (Nat.lt_ge_cases j ns) as [Hj|Hj].
      * now rewrite nth_repeat_lt.
      * apply nth_overflow. now rewrite repeat_length.
    + intros i j _ _. apply entry_zeros.
  - rewrite seq_S, for_each_app in Hrun. cbn [Nat.add] in Hrun.
    destruct (for_each _ (seq 0 k) _) as [sk|e] eqn:Ek; cbn [bind] in Hrun;
      [|discriminate].
    cbn [for_each] in Hrun.
    destruct (round_body lib n_orient G phi_sig sk k) as [s1|e] eqn:Es;
      cbn [bind] in Hrun; [|discriminate].
    injection Hrun as <-.
    destruct (IH sk ltac:(lia) eq_refl) as [Hun Hzero].
    destruct (@rounds_deflation lib n_orient m N r0 ns G phi_sig k sk
                Hm HG HPhi Hpinv ltac:(lia) Ek) as (HA & _).
    destruct (@round_changes lib n_orient m ns G phi_sig sk s1 k Es HA)
      as [Has Hent].
    split.
    + intros j Hj. rewrite Has by lia. apply Hun. lia.
    + intros i j Hi Hj. rewrite Hent by (assumption || lia). apply Hzero; lia.
Qed.

(** After [k >= 1] rounds every column of the working leadfield is
    orthogonal to each of the first [k] topographies. *)
Lemma working_leadfield_orthogonal (lib : numlib) (n_orient m N r0 ns : nat)
      (G phi_sig : matrix) (k : nat) (s : loop_state) (j c : nat) :
  (0 < m)%nat -> rect m N G -> rect m r0 phi_sig -> pinv_keeps_shape lib ->
  (k <= ns)%nat ->
  for_each (round_body lib n_orient G phi_sig) (seq 0 k)
           (initial_state ns G phi_sig) = Ok s ->
  pinv_inverts_grams lib k (A s) ->
  (j < k)%nat -> (c < N)%nat ->
  sum_upto m (fun i => entry (A s) i j * entry (G_proj s) i c) = 0.
Proof.
  intros Hm HG HPhi Hpinv Hk Hrun Hgrams Hj Hc.
  destruct (@rounds_deflation lib n_orient m N r0 ns G phi_sig k s
              Hm HG HPhi Hpinv Hk Hrun) as (HA & [[Hk0 _]|[Hk0 EG]] & _); [lia|].
  assert (Hk1 : (k - 1 < k)%nat) by lia.
  destruct (Hgrams (k - 1)%nat Hk1) as (HX & HGXG & _).
  replace (k - 1 + 1)%nat with k in * by lia.
  set (A0 := first_cols k (A s)) in *.
  assert (HA0 : rect m k A0) by (apply (rect_first_cols HA); lia).
  pose proof (rect_transpose HA0 Hm) as HA0t.
  pose proof (rect_matmul HA0t HA0 Hm) as Hgram.
  rewrite (rect_shape0 Hgram), (rect_shape1 Hgram Hk0) in HX.
  pose proof (rect_projector_of lib A0 Hm) as HP.
  assert (E : matmul (transpose A0) (G_proj s) = zeros k N).
  { rewrite EG, <- (matmul_assoc HA0t HP HG Hm Hm).
    unfold projector_of.
    rewrite (projector_left_annihilates HA0 Hm Hk0 HX HGXG).
    apply (matmul_zeros_l k HG Hm). }
  assert (HGp : rect m N (G_proj s)) by (rewrite EG; eauto with rect).
  pose proof (f_equal (fun M => entry M j c) E) as Ejc. cbv beta in Ejc.
  rewrite (entry_matmul HA0t HGp Hm Hj Hc), entry_zeros in Ejc.
  rewrite <- Ejc. apply sum_upto_ext. intros i Hi.
  rewrite (entry_transpose HA0 Hj Hi). unfold A0.
  now rewrite (entry_first_cols HA Hi Hj).
Qed.

Lemma nth_matvec (m n : nat) (B : matrix) (o : vector) (i : nat) :
  rect m n B -> (i < m)%nat ->
  nth i (matvec B o) 0 = sum_upto (length o) (fun t => entry B i t * nth t o 0).
Proof.
  intros [Hl _] Hi. unfold matvec, entry.
  rewrite (nth_indep _ 0
             ((fun row => sum_upto (length o) (fun t => nth t row 0 * nth t o 0)) []))
    by (rewrite length_map; lia).
  now rewrite (map_nth (fun row => sum_upto (length o)
                                     (fun t => nth t row 0 * nth t o 0))).
Qed.

(** The column a round records is orthogonal to the columns recorded
    before it. *)
Lemma round_column_orthogonal (lib : numlib) (n_orient m N r0 ns : nat)
      (G phi_sig : matrix) (k : nat) (s s' : loop_state) (j : nat) :
  (0 < m)%nat -> rect m N G -> rect m r0 phi_sig -> pinv_keeps_shape lib ->
  (k < ns)%nat ->
  for_each (round_body lib n_orient G phi_sig) (seq 0 k)
           (initial_state ns G phi_sig) = Ok s ->
  pinv_inverts_grams lib k (A s) ->
  round_body lib n_orient G phi_sig s k = Ok s' ->
  (j < k)%nat ->
  columns_orthogonal m (A s') j k.
Proof.
  intros Hm HG HPhi Hpinv Hk Hpre Hgrams Hrun Hj. unfold columns_orthogonal.
  destruct (@rounds_deflation lib n_orient m N r0 ns G phi_sig k s
              Hm HG HPhi Hpinv ltac:(lia) Hpre) as (HA & HdG & _).
  destruct (@rounds_untouched lib n_orient m N r0 ns G phi_sig k s
              Hm HG HPhi Hpinv ltac:(lia) Hpre) as [_ Hzero].
  destruct (@round_changes lib n_orient m ns G phi_sig s s' k Hrun HA)
    as [_ Hent].
  assert (HGp : rect m N (G_proj s)).
  { destruct HdG as [[_ ->]|[_ ->]]; [assumption|].
    apply (rect_matmul (rect_projector_of lib _ Hm) HG Hm). }
  destruct (round_body_inv _ _ _ _ _ _ Hrun)
    as (found & P & Hscan & EA & _).
  pose proof (scan_invariant _ _ _ _ _ _ _ Hscan) as Hout.
  cbn [subcorr_max scan_active_set scan_A] in Hout.
  unfold scan_outcome in Hout. rewrite <- EA in Hout.
  rewrite (rect_shape1 HG Hm) in Hout.
  destruct Hout as [(_ & _ & HAeq & _)
                   |(w & ow & colw & Hw & _ & Ed & _ & _ & Hset & _)].
  - (* nothing recorded: column [k] is still zero *)
    rewrite HAeq.
    rewrite (@sum_upto_ext m _ (fun _ => 0)); [apply sum_upto_zero|].
    intros i Hi. rewrite (Hzero i k Hi (Nat.le_refl k)). ring.
  - (* the column of the winner *)
    assert (Hn : (0 < n_orient)%nat).
    { destruct n_orient; [simpl in Hw; lia|lia]. }
    pose proof (@rect_block m N n_orient w (G_proj s) HGp Hn Hw) as HB.
    pose proof (@block_in_range N n_orient w Hn Hw) as Hin.
    apply set_col_inv in Hset. destruct Hset as (EA' & Hlen & Hk').
    rewrite (rect_shape1 HA Hm) in Hk'.
    assert (Hlen' : length colw = m) by (destruct HA; congruence).
    unfold np_dot_vec in Ed. rewrite (rect_shape1 HB Hm) in Ed.
    destruct (Nat.eqb_spec n_orient (length ow)) as [Ho|Ho]; [|discriminate].
    injection Ed as Ecol.
    rewrite (@sum_upto_ext m _
               (fun i => sum_upto n_orient
                           (fun t => nth t ow 0
                                     * (entry (A s) i j
                                        * entry (G_proj s) i (n_orient * w + t))))).
    + rewrite sum_upto_swap.
      rewrite (@sum_upto_ext n_orient _ (fun _ => 0)); [apply sum_upto_zero|].
      intros t Ht. rewrite sum_upto_scale_l.
      rewrite (@working_leadfield_orthogonal lib n_orient m N r0 ns G phi_sig
                 k s j (n_orient * w + t) Hm HG HPhi Hpinv ltac:(lia) Hpre
                 Hgrams Hj ltac:(lia)).
      ring.
    + intros i Hi.
      rewrite (Hent i j Hi ltac:(lia)).
      rewrite EA'.
      rewrite (@entry_put_col m ns k colw (A s) i k HA Hlen' Hi).
      rewrite Nat.eqb_refl. destruct (Nat.ltb_spec k ns) as [_|Hge]; [|lia].
      cbn [andb]. rewrite <- Ecol, (nth_matvec ow HB Hi), <- Ho.
      rewrite <- sum_upto_scale_l. apply sum_upto_ext. intros t Ht.
      rewrite (@entry_block m N n_orient (G_proj s) w i t HGp Hi Ht). ring.
Qed.

(** After [n] rounds: the columns recorded so far are pairwise
    orthogonal, and the others are zero. *)
Lemma rounds_columns_orthogonal (lib : numlib) (n_orient m N r0 ns : nat)
      (G phi_sig : matrix) (n : nat) (s : loop_state) :
  (0 < m)%nat -> rect m N G -> rect m r0 phi_sig -> pinv_keeps_shape lib ->
  (n <= ns)%nat ->
  for_each (round_body lib n_orient G phi_sig) (seq 0 n)
           (initial_state ns G phi_sig) = Ok s ->
  pinv_inverts_grams lib n (A s) ->
  forall j k, (j < k)%nat -> (k < ns)%nat -> columns_orthogonal m (A s) j k.
Proof.
  intros Hm HG HPhi Hpinv. revert s.
  induction n as [|n IH]; intros s Hn Hrun Hgrams j k Hjk Hk.
  - destruct (@rounds_untouched lib n_orient m N r0 ns G phi_sig 0 s
                Hm HG HPhi Hpinv Hn Hrun) as [_ Hzero].
    unfold columns_orthogonal.
    rewrite (@sum_upto_ext m _ (fun _ => 0)); [apply sum_upto_zero|].
    intros i Hi. rewrite (Hzero i k Hi ltac:(lia)). ring.
  - pose proof Hrun as Hrun'.
    rewrite seq_S, for_each_app in Hrun. cbn [Nat.add] in Hrun.
    destruct (for_each _ (seq 0 n) _) as [sn|e] eqn:En; cbn [bind] in Hrun;
      [|discriminate].
    cbn [for_each] in Hrun.
    destruct (round_body lib n_orient G phi_sig sn n) as [s1|e] eqn:Es;
      cbn [bind] in Hrun; [|discriminate].
    injection Hrun as <-.
    destruct (@rounds_deflation lib n_orient m N r0 ns G phi_sig n sn
                Hm HG HPhi Hpinv ltac:(lia) En) as (HAn & _).
    destruct (@round_keeps_shapes lib n_orient m ns G phi_sig sn s1 n Es HAn)
      as [HA1 _].
    destruct (@round_changes lib n_orient m ns G phi_sig sn s1 n Es HAn)
      as [_ Hent].
    assert (Hprev : pinv_inverts_grams lib n (A sn)).
    { intros k' Hk'.
      assert (E : first_cols (k' + 1) (A sn) = first_cols (k' + 1) (A s1)).
      { apply (first_cols_ext HAn HA1). intros i j' Hi Hj'.
        symmetry. apply Hent; [assumption|lia]. }
      rewrite E. apply Hgrams. lia. }
    destruct (Nat.eq_dec k n) as [->|Hkn].
    + apply (@round_column_orthogonal lib n_orient m N r0 ns G phi_sig n sn s1 j);
        assumption || lia.
    + destruct (Nat.lt_ge_cases k n) as [Hlt|Hge].
      * (* both columns were recorded before *)
        pose proof (IH sn ltac:(lia) eq_refl Hprev j k Hjk Hk) as Ho.
        unfold columns_orthogonal in *. rewrite <- Ho.
        apply sum_upto_ext. intros i Hi.
        now rewrite (Hent i j Hi ltac:(lia)), (Hent i k Hi ltac:(lia)).
      * (* column [k] is not written yet *)
        destruct (@rounds_untouched lib n_orient m N r0 ns G phi_sig (S n) s1
                    Hm HG HPhi Hpinv Hn Hrun') as [_ Hzero].
        unfold columns_orthogonal.
        rewrite (@sum_upto_ext m _ (fun _ => 0)); [apply sum_upto_zero|].
        intros i Hi. rewrite (Hzero i k Hi ltac:(lia)). ring.
Qed.

(** X19. The topographies recorded by the greedy loop, in either orientation
    mode, are pairwise orthogonal: each is taken from the leadfield
    deflated by the projector of those before it.  So the Gram matrix of
    [A], which the least-squares fit of line 119 meets, is diagonal. *)
Theorem topographies_are_pairwise_orthogonal
        (lib : numlib) (n_orient m N r0 ns : nat) (G phi_sig : matrix)
        (final : loop_state) :
  (0 < m)%nat -> rect m N G -> rect m r0 phi_sig -> pinv_keeps_shape lib ->
  greedy_loop lib n_orient ns G phi_sig = Ok final ->
  pinv_inverts_grams lib ns (A final) ->
  (forall j k, (j < k)%nat -> (k < ns)%nat -> columns_orthogonal m (A final) j k) /\
  (forall j k, (j < ns)%nat -> (k < ns)%nat -> j <> k ->
     entry (matmul (transpose (A final)) (A final)) j k = 0).
Proof.
  intros Hm HG HPhi Hpinv Hrun Hgrams. unfold greedy_loop in Hrun.
  pose proof (@rounds_columns_orthogonal lib n_orient m N r0 ns G phi_sig
                ns final Hm HG HPhi Hpinv (Nat.le_refl ns) Hrun Hgrams) as Horth.
  split; [exact Horth|].
  intros j k Hj Hk Hne.
  destruct (@rounds_deflation lib n_orient m N r0 ns G phi_sig ns final
              Hm HG HPhi Hpinv (Nat.le_refl ns) Hrun) as (HA & _).
  rewrite (entry_matmul (rect_transpose HA Hm) HA Hm Hj Hk).
  destruct (Nat.lt_ge_cases j k) as [Hlt|Hge].
  - rewrite <- (Horth j k Hlt Hk). unfold columns_orthogonal.
    apply sum_upto_ext. intros i Hi. now rewrite (entry_transpose HA Hj Hi).
  - rewrite <- (Horth k j ltac:(lia) Hj). unfold columns_orthogonal.
    apply sum_upto_ext. intros i Hi. rewrite (entry_transpose HA Hj Hi). ring.
Qed.

Lemma topographies_are_pairwise_orthogonal_witness :
  exists final,
    greedy_loop exact_lib 1 2 oblique_G (identity 2) = Ok final /\
    A final = identity 2 /\
    (forall j k, (j < k)%nat -> (k < 2)%nat -> columns_orthogonal 2 (A final) j k) /\
    (forall j k, (j < 2)%nat -> (k < 2)%nat -> j <> k ->
       entry (matmul (transpose (A final)) (A final)) j k = 0).
Proof.
  eexists. split; [vm_compute; reflexivity|].
  split; [by_array_test|].
  apply (@topographies_are_pairwise_orthogonal exact_lib 1 2 2 2 2
           oblique_G (identity 2)).
  - lia.
  - split; [reflexivity|repeat constructor].
  - apply rect_identity.
  - apply exact_pinv_keeps_shape.
  - vm_compute. reflexivity.
  - intros k Hk. below 2%nat k; penrose_by_test.
Defined.

(** X20. In fixed orientation the first round records the winner's column of
    the leadfield itself, and a later round [k] records this column minus
    a combination of the [k] topographies recorded before: the columns of
    [A] and the selected columns of the leadfield span the same space. *)
Theorem fixed_topography_is_column_minus_earlier_span
        (lib : numlib) (m N r0 ns : nat) (G phi_sig : matrix)
        (k : nat) (s s' : loop_state) (w : nat) :
  (0 < m)%nat -> (0 < r0)%nat -> rect m N G -> rect m r0 phi_sig ->
  pinv_keeps_shape lib -> (k < ns)%nat ->
  for_each (round_body lib 1 G phi_sig) (seq 0 k)
           (initial_state ns G phi_sig) = Ok s ->
  round_body lib 1 G phi_sig s k = Ok s' ->
  nth k (active_set s') (-1)%Z = Z.of_nat w ->
  (w < N)%nat /\
  (k = 0%nat -> cols k (k + 1) (A s') = block 1 G w) /\
  ((0 < k)%nat ->
   cols k (k + 1) (A s')
   = msub (block 1 G w)
          (matmul (first_cols k (A s'))
                  (matmul (lib_pinv lib (matmul (transpose (first_cols k (A s')))
                                                (first_cols k (A s'))))
                          (matmul (transpose (first_cols k (A s')))
                                  (block 1 G w))))).
Proof.
  intros Hm Hr HG HPhi Hpinv Hk Hpre Hrun Hentry.
  destruct (@rounds_deflation lib 1 m N r0 ns G phi_sig k s
              Hm HG HPhi Hpinv ltac:(lia) Hpre) as (HA & HdG & HdP).
  destruct (@rounds_untouched lib 1 m N r0 ns G phi_sig k s
              Hm HG HPhi Hpinv ltac:(lia) Hpre) as [Hun _].
  assert (HGp : rect m N (G_proj s)).
  { destruct HdG as [[_ ->]|[_ ->]]; [assumption|].
    apply (rect_matmul (rect_projector_of lib _ Hm) HG Hm). }
  assert (HPp : rect m r0 (phi_sig_proj s)).
  { destruct HdP as [[_ ->]|[_ ->]]; [assumption|].
    apply (rect_matmul (rect_projector_of lib _ Hm) HPhi Hm). }
  destruct (@round_keeps_shapes lib 1 m ns G phi_sig s s' k Hrun HA) as [HA' _].
  destruct (@round_changes lib 1 m ns G phi_sig s s' k Hrun HA) as [_ Hent].
  assert (Hfirst : first_cols k (A s') = first_cols k (A s)).
  { apply (first_cols_ext HA' HA). intros i j Hi Hj.
    apply Hent; [assumption|lia]. }
  pose proof (greedy_loop_prefix_length _ _ _ _ _ _ Hpre) as Hlen.
  destruct (@fixed_round_outcome lib m N r0 ns G phi_sig s s' k
              Hm Hr HG HGp HPp HA Hrun)
    as [(_ & Eas & _)|(w' & Hw' & _ & Eas & _ & Ecol)].
  - rewrite Eas, (Hun k (Nat.le_refl k)) in Hentry. lia.
  - rewrite Eas, nth_set_nth_same in Hentry by lia.
    apply Nat2Z.inj in Hentry. subst w'.
    split; [assumption|]. split.
    + intros Hk0. destruct HdG as [[_ EG]|[Hpos _]]; [|lia].
      now rewrite Ecol, EG.
    + intros Hk0. destruct HdG as [[Hz _]|[_ EG]]; [lia|].
      rewrite Ecol, EG, Hfirst.
      set (A0 := first_cols k (A s)) in *.
      assert (HA0 : rect m k A0) by (apply (rect_first_cols HA); lia).
      pose proof (rect_transpose HA0 Hm) as HA0t.
      pose proof (Hpinv _ _ (rect_matmul HA0t HA0 Hm)) as HX.
      set (X := lib_pinv lib (matmul (transpose A0) A0)) in *.
      assert (Hw1 : (w < N / 1)%nat) by now rewrite Nat.div_1_r.
      pose proof (@rect_block m N 1 w G HG Nat.lt_0_1 Hw1) as HB.
      unfold block at 1.
      rewrite (cols_matmul (rect_projector_of lib A0 Hm) HG Hm) by lia.
      fold (block 1 G w). unfold projector_of. fold X.
      pose proof (rect_matmul HA0 HX Hk0) as HAX.
      rewrite (matmul_msub_l (rect_identity m) (rect_matmul HAX HA0t Hk0) HB Hm Hm).
      rewrite (matmul_identity_l HB Hm).
      rewrite (matmul_assoc HAX HA0t HB Hk0 Hm).
      now rewrite (matmul_assoc HA0 HX (rect_matmul HA0t HB Hm) Hk0 Hk0).
Qed.

(** The second round on [oblique_G]: the column recorded for candidate 1
    is its column [(1, 1)] minus the first topography [(1, 0)]. *)
Lemma fixed_topography_is_column_minus_earlier_span_witness :
  exists s1 s2,
    for_each (round_body exact_lib 1 oblique_G (identity 2)) (seq 0 1)
             (initial_state 2 oblique_G (identity 2)) = Ok s1 /\
    round_body exact_lib 1 oblique_G (identity 2) s1 1 = Ok s2 /\
    cols 1 (1 + 1) (A s2) = zmat [[0]; [1]]%Z /\
    (1 < 2)%nat /\
    (1%nat = 0%nat -> cols 1 (1 + 1) (A s2) = block 1 oblique_G 1) /\
    ((0 < 1)%nat ->
     cols 1 (1 + 1) (A s2)
     = msub (block 1 oblique_G 1)
            (matmul (first_cols 1 (A s2))
                    (matmul (lib_pinv exact_lib
                               (matmul (transpose (first_cols 1 (A s2)))
                                       (first_cols 1 (A s2))))
                            (matmul (transpose (first_cols 1 (A s2)))
                                    (block 1 oblique_G 1))))).
Proof.
  eexists. eexists.
  split; [vm_compute; reflexivity|].
  split; [vm_compute; reflexivity|].
  split; [by_array_test|].
  eapply (@fixed_topography_is_column_minus_earlier_span exact_lib 2 2 2 2
            oblique_G (identity 2) 1).
  - lia.
  - lia.
  - split; [reflexivity|repeat constructor].
  - apply rect_identity.
  - apply exact_pinv_keeps_shape.
  - lia.
  - vm_compute. reflexivity.
  - vm_compute. reflexivity.
  - reflexivity.
Defined.

(* ================================================================= *)
(** ** The data covariance *)

(** X21. The array [np.dot(data, data.T)] handed to [linalg.eigh] in line 89 is
    symmetric and positive semi-definite, for every data array: what the
    documented contract of [eigh] asks of its argument, and what makes its
    eigenvalues non-negative. *)
Theorem data_covariance_is_symmetric_psd (m t : nat) (data0 v : matrix) :
  (0 < m)%nat -> (0 < t)%nat -> rect m t data0 -> rect m 1 v ->
  symmetric (matmul data0 (transpose data0)) /\
  0 <= entry (matmul (matmul (transpose v) (matmul data0 (transpose data0))) v) 0 0.
Proof.
  intros Hm Ht HD Hv.
  pose proof (rect_transpose HD Hm) as HDt.
  pose proof (rect_transpose Hv Hm) as Hvt.
  split.
  - pose proof (gram_symmetric HDt Ht Hm) as Hs.
    now rewrite (transpose_involutive HD Hm Ht) in Hs.
  - rewrite <- (matmul_assoc Hvt HD HDt Hm Ht).
    rewrite (matmul_assoc (rect_matmul Hvt HD Hm) HDt Hv Ht Hm).
    apply (correlation_form_nonneg Hv HD Hm Ht).
Qed.

Lemma data_covariance_is_symmetric_psd_witness :
  symmetric (matmul (zmat [[1; 2]; [3; 4]; [5; 6]]%Z)
                    (transpose (zmat [[1; 2]; [3; 4]; [5; 6]]%Z))) /\
  0 <= entry (matmul (matmul (transpose (zmat [[1]; [-1]; [0]]%Z))
                             (matmul (zmat [[1; 2]; [3; 4]; [5; 6]]%Z)
                                     (transpose (zmat [[1; 2]; [3; 4]; [5; 6]]%Z))))
                     (zmat [[1]; [-1]; [0]]%Z)) 0 0.
Proof.
  apply (@data_covariance_is_symmetric_psd 3 2).
  - lia.
  - lia.
  - split; [reflexivity|repeat constructor].
  - split; [reflexivity|repeat constructor].
Defined.

(* ================================================================= *)
(** ** The amplitudes *)

Lemma sum_upto_single (n k : nat) (f : nat -> Qc) :
  (k < n)%nat -> (forall j, (j < n)%nat -> j <> k -> f j = 0) ->
  sum_upto n f = f k.
Proof.
  intros Hk Hzero.
  rewrite <- (@sum_upto_delta_l n k f Hk).
  apply sum_upto_ext. intros j Hj.
  destruct (Nat.eqb_spec k j) as [->|Hne]; [ring|].
  rewrite Hzero by (assumption || congruence). ring.
Qed.

(** X22. The topographies being orthogonal, the least-squares fit decouples:
    the amplitude of source [k] at each time is the inner product of its
    own topography with the whitened data, over the squared norm of that
    topography, whatever the other sources are. *)
Theorem amplitudes_are_projections_on_own_topography
        (lib : numlib) (n_orient m N r0 ns t : nat)
        (G phi_sig data2 : matrix) (final : loop_state) :
  (0 < m)%nat -> (0 < t)%nat ->
  rect m N G -> rect m r0 phi_sig -> rect m t data2 ->
  pinv_keeps_shape lib ->
  greedy_loop lib n_orient ns G phi_sig = Ok final ->
  pinv_inverts_grams lib ns (A final) ->
  lstsq_normal_equations lib (A final) data2 ->
  forall k c, (k < ns)%nat -> (c < t)%nat ->
    sum_upto m (fun i => entry (A final) i k * entry (A final) i k)
    * entry (lib_lstsq lib (A final) data2) k c
    = sum_upto m (fun i => entry (A final) i k * entry data2 i c).
Proof.
  intros Hm Ht HG HPhi HD Hpinv Hrun Hgrams [Hsol Heq] k c Hk Hc.
  unfold greedy_loop in Hrun.
  pose proof (@rounds_columns_orthogonal lib n_orient m N r0 ns G phi_sig
                ns final Hm HG HPhi Hpinv (Nat.le_refl ns) Hrun Hgrams) as Horth.
  destruct (@rounds_deflation lib n_orient m N r0 ns G phi_sig ns final
              Hm HG HPhi Hpinv (Nat.le_refl ns) Hrun) as (HA & _).
  rewrite (rect_shape1 HA Hm), (rect_shape1 HD Hm) in Hsol.
  assert (Hns : (0 < ns)%nat) by lia.
  pose proof (rect_transpose HA Hm) as HAt.
  pose proof (rect_matmul HAt HA Hm) as Hgram.
  pose proof (f_equal (fun M => entry M k c) Heq) as E. cbv beta in E.
  rewrite (entry_matmul Hgram Hsol Hns Hk Hc) in E.
  rewrite (entry_matmul HAt HD Hm Hk Hc) in E.
  rewrite (@sum_upto_single ns k) in E; [|assumption|].
  - rewrite (entry_matmul HAt HA Hm Hk Hk) in E.
    rewrite <- (@sum_upto_ext m (fun i => entry (transpose (A final)) k i
                                          * entry (A final) i k)).
    + rewrite E. apply sum_upto_ext. intros i Hi.
      now rewrite (entry_transpose HA Hk Hi).
    + intros i Hi. now rewrite (entry_transpose HA Hk Hi).
  - intros j Hj Hne.
    rewrite (entry_matmul HAt HA Hm Hk Hj).
    rewrite (@sum_upto_ext m _ (fun i => entry (A final) i k * entry (A final) i j))
      by (intros i Hi; now rewrite (entry_transpose HA Hk Hi)).
    destruct (Nat.lt_ge_cases j k) as [Hlt|Hge].
    + pose proof (Horth j k Hlt Hk) as Ho. unfold columns_orthogonal in Ho.
      rewrite (@sum_upto_ext m _ (fun i => entry (A final) i j * entry (A final) i k))
        by (intros; ring).
      rewrite Ho. ring.
    + pose proof (Horth k j ltac:(lia) Hj) as Ho. unfold columns_orthogonal in Ho.
      rewrite Ho. ring.
Qed.

Lemma amplitudes_are_projections_on_own_topography_witness :
  exists final,
    greedy_loop exact_lib 1 2 oblique_G (identity 2) = Ok final /\
    forall k c, (k < 2)%nat -> (c < 2)%nat ->
      sum_upto 2 (fun i => entry (A final) i k * entry (A final) i k)
      * entry (lib_lstsq exact_lib (A final) (zmat [[3; 1]; [2; 5]]%Z)) k c
      = sum_upto 2 (fun i => entry (A final) i k
                             * entry (zmat [[3; 1]; [2; 5]]%Z) i c).
Proof.
  eexists. split; [vm_compute; reflexivity|].
  apply (@amplitudes_are_projections_on_own_topography exact_lib 1 2 2 2 2 2
           oblique_G (identity 2)).
  - lia.
  - lia.
  - split; [reflexivity|repeat constructor].
  - apply rect_identity.
  - split; [reflexivity|repeat constructor].
  - apply exact_pinv_keeps_shape.
  - vm_compute. reflexivity.
  - intros k Hk. below 2%nat k; penrose_by_test.
  - split; [split; [reflexivity|repeat constructor]|by_array_test].
Defined.

(* ================================================================= *)
(** ** Configuration *)

(** A round in which no candidate compares greater than the initial [-1]
    changes neither the active set nor the topographies. *)
Lemma round_without_winner (lib : numlib) (n_orient : nat) (G phi_sig : matrix)
      (s s' : loop_state) (k : nat) :
  round_body lib n_orient G phi_sig s k = Ok s' ->
  (forall c, (c < shape1 G / n_orient)%nat ->
     np_gt (candidate_subcorr lib n_orient (G_proj s) (phi_sig_proj s) c)
           (Fin (qz (-1))) = false) ->
  active_set s' = active_set s /\ A s' = A s.
Proof.
  intros Hrun Hlow.
  destruct (round_body_inv _ _ _ _ _ _ Hrun)
    as (found & P & Hscan & EA & Eas & _).
  pose proof (scan_invariant _ _ _ _ _ _ _ Hscan) as Hout.
  cbn [subcorr_max scan_active_set scan_A] in Hout.
  rewrite EA, Eas.
  destruct Hout as [(_ & Has' & HA' & _)
                   |(w & ow & colw & Hw & _ & _ & _ & _ & _ & Hgt & _)].
  - now split.
  - rewrite (Hlow w Hw) in Hgt. discriminate.
Qed.

(** The rounds after round [k] leave entry [k] of the active set. *)
Lemma later_rounds_keep_entry (lib : numlib) (n_orient m ns : nat)
      (G phi_sig : matrix) (k a len : nat) (s s' : loop_state) (e : Z) :
  (k < a)%nat -> rect m ns (A s) ->
  nth k (active_set s) (-1)%Z = e ->
  for_each (round_body lib n_orient G phi_sig) (seq a len) s = Ok s' ->
  nth k (active_set s') (-1)%Z = e.
Proof.
  intros Hk HA He Hrun.
  apply (@for_each_invariant _ _ (round_body lib n_orient G phi_sig)
           (fun s => rect m ns (A s) /\ nth k (active_set s) (-1)%Z = e)
           (seq a len)) with (s := s); [|now split|exact Hrun].
  intros s0 j s1 Hj [HA0 He0] Hstep. apply in_seq in Hj.
  destruct (@round_keeps_shapes lib n_orient m ns G phi_sig s0 s1 j Hstep HA0)
    as [HA1 _].
  split; [assumption|].
  destruct (@round_changes lib n_orient m ns G phi_sig s0 s1 j Hstep HA0)
    as [Has _].
  rewrite Has by lia. exact He0.
Qed.




(* ================================================================= *)
(** ** The subspace correlation of a free-orientation block, over the reals *)

Section RealArrays.

Import OverReals.
Local Open Scope R_scope.

Lemma real_rect_tabulate (m n : nat) (f : nat -> nat -> R) :
  rect m n (tabulate m n f).
Proof.
  split; [unfold tabulate; now rewrite length_map, length_seq|].
  unfold tabulate. apply Forall_forall. intros row Hin.
  apply in_map_iff in Hin. destruct Hin as [i [<- _]].
  now rewrite length_map, length_seq.
Qed.

Lemma real_entry_tabulate (m n : nat) (f : nat -> nat -> R) (i j : nat) :
  (i < m)%nat -> (j < n)%nat -> entry (tabulate m n f) i j = f i j.
Proof.
  intros Hi Hj. unfold entry, tabulate.
  rewrite (nth_indep _ [] (map (f 0%nat) (seq 0 n)))
    by now rewrite length_map, length_seq.
  rewrite (map_nth (fun i => map (f i) (seq 0 n)) (seq 0 m) 0%nat i).
  rewrite seq_nth by assumption. simpl.
  rewrite (nth_indep _ 0 (f i 0%nat)) by now rewrite length_map, length_seq.
  rewrite (map_nth (f i) (seq 0 n) 0%nat j).
  now rewrite seq_nth.
Qed.

Lemma real_rect_shape0 (m n : nat) (M : matrix) : rect m n M -> shape0 M = m.
Proof. now intros [H _]. Qed.

Lemma real_rect_shape1 (m n : nat) (M : matrix) :
  rect m n M -> (0 < m)%nat -> shape1 M = n.
Proof.
  intros [Hl Hr] Hm. unfold shape1. destruct M as [|row M]; simpl in *; [lia|].
  now inversion Hr.
Qed.

Lemma real_rect_row (m n : nat) (M : matrix) (i : nat) :
  rect m n M -> (i < m)%nat -> length (nth i M []) = n.
Proof.
  intros [Hl Hr] Hi. rewrite Forall_forall in Hr. apply Hr, nth_In. lia.
Qed.

Lemma real_rect_transpose (m n : nat) (M : matrix) :
  rect m n M -> (0 < m)%nat -> rect n m (transpose M).
Proof.
  intros HM Hm. unfold transpose.
  rewrite (real_rect_shape1 HM Hm), (real_rect_shape0 HM).
  apply real_rect_tabulate.
Qed.

Lemma real_entry_transpose (m n : nat) (M : matrix) (i j : nat) :
  rect m n M -> (i < n)%nat -> (j < m)%nat ->
  entry (transpose M) i j = entry M j i.
Proof.
  intros HM Hi Hj. unfold transpose.
  rewrite (real_rect_shape1 HM) by lia. rewrite (real_rect_shape0 HM).
  now rewrite real_entry_tabulate.
Qed.

Lemma real_rect_matmul (m n p : nat) (A B : matrix) :
  rect m n A -> rect n p B -> (0 < n)%nat -> rect m p (matmul A B).
Proof.
  intros HA HB Hn. unfold matmul.
  rewrite (real_rect_shape0 HA), (real_rect_shape1 HB Hn).
  apply real_rect_tabulate.
Qed.

Lemma real_entry_matmul (m n p : nat) (A B : matrix) (i j : nat) :
  rect m n A -> rect n p B -> (0 < n)%nat -> (i < m)%nat -> (j < p)%nat ->
  entry (matmul A B) i j = sum_upto n (fun k => entry A i k * entry B k j).
Proof.
  intros HA HB Hn Hi Hj. unfold matmul.
  rewrite (real_rect_shape0 HA), (real_rect_shape1 HB Hn).
  rewrite (real_rect_shape1 HA) by lia. now rewrite real_entry_tabulate.
Qed.

Lemma real_np_dot_ok (m n p : nat) (A B : matrix) :
  rect m n A -> rect n p B -> (0 < m)%nat -> np_dot A B = Ok (matmul A B).
Proof.
  intros HA HB Hm. unfold np_dot.
  rewrite (real_rect_shape1 HA Hm), (real_rect_shape0 HB).
  now rewrite Nat.eqb_refl.
Qed.

Lemma real_sum_ext (n : nat) (f g : nat -> R) :
  (forall k, (k < n)%nat -> f k = g k) -> sum_upto n f = sum_upto n g.
Proof.
  induction n as [|n IH]; intros H; simpl; [reflexivity|].
  rewrite IH by (intros; apply H; lia). now rewrite H by lia.
Qed.

Lemma real_sum_zero (n : nat) : sum_upto n (fun _ => 0) = 0.
Proof. induction n as [|n IH]; simpl; [reflexivity|]. rewrite IH. ring. Qed.

Lemma real_sum_plus (n : nat) (f g : nat -> R) :
  sum_upto n (fun k => f k + g k) = sum_upto n f + sum_upto n g.
Proof. induction n as [|n IH]; simpl; [ring|]. rewrite IH. ring. Qed.

Lemma real_sum_scale_l (n : nat) (c : R) (f : nat -> R) :
  sum_upto n (fun k => c * f k) = c * sum_upto n f.
Proof. induction n as [|n IH]; simpl; [ring|]. rewrite IH. ring. Qed.

Lemma real_sum_scale_r (n : nat) (c : R) (f : nat -> R) :
  sum_upto n (fun k => f k * c) = sum_upto n f * c.
Proof. induction n as [|n IH]; simpl; [ring|]. rewrite IH. ring. Qed.

Lemma real_sum_swap (m n : nat) (f : nat -> nat -> R) :
  sum_upto m (fun i => sum_upto n (fun j => f i j)) =
  sum_upto n (fun j => sum_upto m (fun i => f i j)).
Proof.
  induction m as [|m IH]; simpl.
  - now rewrite real_sum_zero.
  - rewrite IH. now rewrite <- real_sum_plus.
Qed.

Lemma real_sum_delta (n i : nat) (f : nat -> R) :
  (i < n)%nat ->
  sum_upto n (fun k => (if (i =? k)%nat then 1 else 0) * f k) = f i.
Proof.
  induction n as [|n IH]; intros Hi; [lia|]. simpl.
  destruct (Nat.eq_dec i n) as [->|Hne].
  - rewrite Nat.eqb_refl.
    rewrite (@real_sum_ext n _ (fun _ => 0)).
    + rewrite real_sum_zero. ring.
    + intros k Hk. destruct (Nat.eqb_spec n k); [lia|ring].
  - rewrite IH by lia. destruct (Nat.eqb_spec i n); [contradiction|ring].
Qed.

Lemma real_sum_nonneg (n : nat) (f : nat -> R) :
  (forall k, (k < n)%nat -> 0 <= f k) -> 0 <= sum_upto n f.
Proof.
  induction n as [|n IH]; intros H; simpl; [lra|].
  assert (0 <= sum_upto n f) by (apply IH; intros; apply H; lia).
  assert (0 <= f n) by (apply H; lia). lra.
Qed.

Lemma real_last_item_nth (n : nat) (v : vector) :
  length v = S n -> last_item v = Ok (nth n v 0).
Proof.
  intros Hl. unfold last_item.
  pose proof (@rev_nth _ v 0 n ltac:(lia)) as H.
  rewrite Hl in H. replace (S n - S n)%nat with 0%nat in H by lia.
  destruct (rev v) as [|a l] eqn:E.
  - apply (f_equal (@length _)) in E. rewrite length_rev in E. simpl in E. lia.
  - simpl in H. pose proof (rev_involutive v) as Hv.
    rewrite <- Hv. rewrite rev_nth by (rewrite length_rev; lia).
    rewrite length_rev, Hl. replace (S n - S n)%nat with 0%nat by lia.
    now rewrite E.
Qed.

Lemma real_last_col_ok (n k : nat) (V : matrix) :
  rect n (S k) V -> (0 < n)%nat ->
  exists c, last_col V = Ok c /\ length c = n /\
            forall i, (i < n)%nat -> nth i c 0 = entry V i k.
Proof.
  intros HV Hn. unfold last_col. rewrite (real_rect_shape1 HV Hn).
  cbn [Nat.eqb].
  eexists. split; [reflexivity|]. split.
  - rewrite length_map. apply HV.
  - intros i Hi. unfold entry.
    rewrite (nth_indep _ 0 (last [] 0)) by (rewrite length_map; destruct HV; lia).
    rewrite (map_nth (fun row => last row 0) V [] i).
    rewrite last_nth. rewrite (real_rect_row HV Hi).
    now replace (S k - 1)%nat with k by lia.
Qed.

(** What the second branch returns when the library results have the
    documented shapes. *)
Lemma real_subcorr_free_shape (lib : numlib) (m r n : nat) (Gk Phi : matrix) :
  (0 < m)%nat -> (0 < r)%nat -> shape1 Gk <> 1%nat -> rect m r Phi ->
  rect m (S n) (lib_qr lib Gk) ->
  length (fst (lib_eigh lib (projected_gram (lib_qr lib Gk) Phi))) = S n ->
  rect (S n) (S n) (snd (lib_eigh lib (projected_gram (lib_qr lib Gk) Phi))) ->
  exists ori,
    _compute_subcorr lib Gk Phi
    = Ok (np_sqrt
            (Fin (nth n (fst (lib_eigh lib (projected_gram (lib_qr lib Gk) Phi))) 0)),
          ori)
    /\ length ori = S n
    /\ forall i, (i < S n)%nat ->
         nth i ori 0
         = entry (snd (lib_eigh lib (projected_gram (lib_qr lib Gk) Phi))) i n.
Proof.
  intros Hm Hr Hwide HPhi HUg Hvals HV.
  destruct (real_last_col_ok HV (Nat.lt_0_succ n)) as [c [Ec [Hlen Hc']]].
  exists c. split; [|now split].
  unfold _compute_subcorr.
  apply Nat.eqb_neq in Hwide. rewrite Hwide.
  pose proof (real_rect_transpose HUg Hm) as HUt.
  pose proof (real_rect_transpose HPhi Hm) as HPt.
  rewrite (real_np_dot_ok HUt HPhi (Nat.lt_0_succ n)). cbn [bind].
  rewrite (real_np_dot_ok HPt HUg Hr). cbn [bind].
  rewrite (real_np_dot_ok (real_rect_matmul HUt HPhi Hm)
             (real_rect_matmul HPt HUg Hm) (Nat.lt_0_succ n)). cbn [bind].
  fold (projected_gram (lib_qr lib Gk) Phi).
  rewrite (surjective_pairing (lib_eigh lib (projected_gram (lib_qr lib Gk) Phi))).
  rewrite (@real_last_item_nth n _ Hvals). cbn [bind].
  rewrite Ec. cbn [bind]. reflexivity.
Qed.

Lemma real_projected_gram_rect (m r w : nat) (Ug Phi : matrix) :
  rect m w Ug -> rect m r Phi -> (0 < m)%nat -> (0 < r)%nat ->
  rect w w (projected_gram Ug Phi).
Proof.
  intros HU HPhi Hm Hr. unfold projected_gram.
  apply (@real_rect_matmul w r w); [| |assumption].
  - apply (@real_rect_matmul w m r); [|assumption|assumption].
    now apply real_rect_transpose.
  - apply (@real_rect_matmul r m w); [|assumption|assumption].
    now apply real_rect_transpose.
Qed.

(** The entries of [Ug^T Phi Phi^T Ug]: inner products of the rows of
    [Ug^T Phi]. *)
Lemma real_projected_gram_entry (m r w : nat) (Ug Phi : matrix) (i k : nat) :
  rect m w Ug -> rect m r Phi -> (0 < m)%nat -> (0 < r)%nat ->
  (i < w)%nat -> (k < w)%nat ->
  entry (projected_gram Ug Phi) i k
  = sum_upto r (fun j => entry (matmul (transpose Ug) Phi) i j
                         * entry (matmul (transpose Ug) Phi) k j).
Proof.
  intros HU HPhi Hm Hr Hi Hk. unfold projected_gram.
  pose proof (real_rect_transpose HU Hm) as HUt.
  pose proof (real_rect_transpose HPhi Hm) as HPt.
  rewrite (real_entry_matmul (real_rect_matmul HUt HPhi Hm)
             (real_rect_matmul HPt HU Hm) Hr Hi Hk).
  apply real_sum_ext. intros j Hj. f_equal.
  rewrite (real_entry_matmul HPt HU Hm Hj Hk).
  rewrite (real_entry_matmul HUt HPhi Hm Hk Hj).
  apply real_sum_ext. intros c Hc.
  rewrite (real_entry_transpose HPhi Hj Hc).
  rewrite (real_entry_transpose HU Hk Hc). ring.
Qed.

End RealArrays.

Section RealTopEigenpair.

Import OverReals.
Local Open Scope R_scope.

Variables (n : nat) (M : matrix) (vals : vector) (vecs : matrix).
Hypothesis HM : rect (S n) (S n) M.
Hypothesis Hcontract : eigh_contract M (vals, vecs).

Let top := nth n vals 0.
Let v (i : nat) := entry vecs i n.

Lemma real_top_eigen_equation (i : nat) :
  (i < S n)%nat ->
  sum_upto (S n) (fun k => entry M i k * v k) = top * v i.
Proof.
  intros Hi. destruct Hcontract as (_ & _ & _ & _ & Heq & _).
  cbn [fst snd] in Heq. rewrite (real_rect_shape0 HM) in Heq.
  exact (Heq i n Hi (Nat.lt_succ_diag_r n)).
Qed.

Lemma real_top_vector_unit : sum_upto (S n) (fun k => v k * v k) = 1.
Proof.
  destruct Hcontract as (_ & _ & Horth & _).
  cbn [fst snd] in Horth. rewrite (real_rect_shape0 HM) in Horth.
  unfold v.
  rewrite (Horth n n (Nat.lt_succ_diag_r n) (Nat.lt_succ_diag_r n)).
  now rewrite Nat.eqb_refl.
Qed.

(** The last eigenvalue is the quadratic form at the last eigenvector. *)
Lemma real_top_is_form :
  top = sum_upto (S n) (fun i => v i * sum_upto (S n) (fun k => entry M i k * v k)).
Proof.
  rewrite (@real_sum_ext (S n) _ (fun i => top * (v i * v i))).
  - rewrite real_sum_scale_l, real_top_vector_unit. ring.
  - intros i Hi. rewrite (real_top_eigen_equation Hi). ring.
Qed.

(** Every eigenvalue of a symmetric [M] is at most the last one returned. *)
Lemma real_top_is_largest (mu : R) (x : vector) :
  (forall i k, (i < S n)%nat -> (k < S n)%nat -> entry M i k = entry M k i) ->
  is_eigenpair M mu x ->
  (exists i, nth i x 0 <> 0) -> mu <= top.
Proof.
  intros Msym [Hlen Hx] [i0 Hi0].
  rewrite (real_rect_shape0 HM) in Hlen, Hx.
  destruct (Rlt_le_dec top mu) as [Hlt|Hle]; [|assumption].
  exfalso. apply Hi0.
  destruct Hcontract as (Hvals & HV & _ & Hcomplete & Heq & Hasc).
  cbn [fst snd] in *. rewrite (real_rect_shape0 HM) in *.
  assert (Hi0n : (i0 < S n)%nat).
  { destruct (Nat.lt_ge_cases i0 (S n)); [assumption|].
    exfalso. apply Hi0. apply nth_overflow. lia. }
  set (c := fun j => sum_upto (S n) (fun i => entry vecs i j * nth i x 0)).
  assert (Hc : forall j, (j < S n)%nat -> nth j vals 0 * c j = mu * c j).
  { intros j Hj. unfold c.
    rewrite <- !real_sum_scale_l.
    rewrite (@real_sum_ext (S n) _
               (fun i => sum_upto (S n)
                           (fun k => entry M i k * entry vecs k j * nth i x 0))).
    2:{ intros i Hi. rewrite <- Rmult_assoc, <- (Heq i j Hi Hj).
        now rewrite <- real_sum_scale_r. }
    rewrite real_sum_swap. apply real_sum_ext. intros k Hk.
    rewrite (@real_sum_ext (S n) _
               (fun i => entry vecs k j * (entry M k i * nth i x 0))).
    2:{ intros i Hi. rewrite (Msym i k Hi Hk). ring. }
    rewrite real_sum_scale_l, (Hx k Hk). ring. }
  assert (Hc0 : forall j, (j < S n)%nat -> c j = 0).
  { intros j Hj. specialize (Hc j Hj).
    assert (Hjn : nth j vals 0 <= top) by (apply Hasc; lia).
    assert (Hne : nth j vals 0 - mu <> 0) by lra.
    assert (Hz : (nth j vals 0 - mu) * c j = 0) by lra.
    destruct (Rmult_integral _ _ Hz); [contradiction|assumption]. }
  assert (Hexp : nth i0 x 0
                 = sum_upto (S n) (fun j => entry vecs i0 j * c j)).
  { unfold c.
    rewrite (@real_sum_ext (S n) _
               (fun j => sum_upto (S n)
                           (fun k => entry vecs i0 j * entry vecs k j * nth k x 0))).
    2:{ intros j Hj. rewrite <- real_sum_scale_l.
        apply real_sum_ext. intros k _. ring. }
    rewrite real_sum_swap.
    rewrite (@real_sum_ext (S n) _
               (fun k => (if (i0 =? k)%nat then 1 else 0) * nth k x 0)).
    - symmetry. now apply (@real_sum_delta (S n) i0 (fun k => nth k x 0)).
    - intros k Hk. rewrite real_sum_scale_r. f_equal.
      apply (Hcomplete i0 k Hi0n Hk). }
  rewrite Hexp.
  rewrite (@real_sum_ext (S n) _ (fun _ => 0)); [apply real_sum_zero|].
  intros j Hj. rewrite (Hc0 j Hj). ring.
Qed.

End RealTopEigenpair.

Section RealFreeBlock.

Import OverReals.
Local Open Scope R_scope.

(** The quadratic form of a Gram array is a sum of squares. *)
Lemma real_gram_form (w r : nat) (L : nat -> nat -> R) (v : nat -> R) :
  sum_upto w (fun i =>
    v i * sum_upto w (fun k => sum_upto r (fun j => L i j * L k j) * v k))
  = sum_upto r (fun j =>
      sum_upto w (fun i => v i * L i j) * sum_upto w (fun i => v i * L i j)).
Proof.
  rewrite (@real_sum_ext r _
             (fun j => sum_upto w (fun i =>
                sum_upto w (fun k => (v i * L i j) * (v k * L k j))))).
  2:{ intros j _. rewrite <- real_sum_scale_r.
      apply real_sum_ext. intros i _. now rewrite <- real_sum_scale_l. }
  rewrite real_sum_swap. apply real_sum_ext. intros i _.
  rewrite real_sum_swap. rewrite <- real_sum_scale_l.
  apply real_sum_ext. intros k _.
  rewrite <- Rmult_assoc, <- real_sum_scale_l, <- real_sum_scale_r.
  apply real_sum_ext. intros j _. ring.
Qed.

(** C2. For every 3-column block [Gk] and basis [Phi], on the embedding
    over the real numbers: with [Ug] what [np.linalg.qr] returns for
    [Gk] and [M = Ug^T Phi Phi^T Ug], [_compute_subcorr] returns the
    square root of the largest eigenvalue of [M] and a unit-norm
    eigenvector of [M] for that eigenvalue, [linalg.eigh] keeping its
    contract on [M]. *)
Theorem subcorr_is_root_of_largest_eigenvalue
        (lib : OverReals.numlib) (m r n : nat) (Gk Phi : OverReals.matrix) :
  (0 < m)%nat -> (0 < r)%nat ->
  rect m 3 Gk -> rect m r Phi ->
  rect m (S n) (lib_qr lib Gk) ->
  eigh_contract (projected_gram (lib_qr lib Gk) Phi)
                (lib_eigh lib (projected_gram (lib_qr lib Gk) Phi)) ->
  exists top ori,
    OverReals._compute_subcorr lib Gk Phi = Ok (Fin (sqrt top), ori) /\
    0 <= top /\
    is_eigenpair (projected_gram (lib_qr lib Gk) Phi) top ori /\
    unit_norm ori /\
    forall mu x,
      is_eigenpair (projected_gram (lib_qr lib Gk) Phi) mu x ->
      (exists i, nth i x 0 <> 0) -> mu <= top.
Proof.
  intros Hm Hr HGk HPhi HU Hcontract.
  set (Ug := lib_qr lib Gk) in *.
  set (M := projected_gram Ug Phi) in *.
  pose proof (real_projected_gram_rect HU HPhi Hm Hr) as HM. fold M in HM.
  rewrite (surjective_pairing (lib_eigh lib M)) in Hcontract.
  set (vals := fst (lib_eigh lib M)) in *.
  set (vecs := snd (lib_eigh lib M)) in *.
  pose proof Hcontract as (Hvals & HV & _).
  cbn [fst snd] in Hvals, HV. rewrite (real_rect_shape0 HM) in Hvals, HV.
  assert (Hwide : shape1 Gk <> 1%nat)
    by (rewrite (real_rect_shape1 HGk Hm); discriminate).
  destruct (@real_subcorr_free_shape lib m r n Gk Phi
              Hm Hr Hwide HPhi HU Hvals HV) as (ori & E & Hlen & Hori).
  fold Ug in E, Hori. fold M in E, Hori. fold vals in E. fold vecs in Hori.
  set (top := nth n vals 0) in *.
  set (L := matmul (transpose Ug) Phi).
  assert (HMe : forall i k, (i < S n)%nat -> (k < S n)%nat ->
                  entry M i k = sum_upto r (fun j => entry L i j * entry L k j)).
  { intros i k Hi Hk. apply (real_projected_gram_entry HU HPhi Hm Hr Hi Hk). }
  assert (Hpos : 0 <= top).
  { unfold top. rewrite (real_top_is_form HM Hcontract).
    rewrite (@real_sum_ext (S n) _
               (fun i => entry vecs i n
                         * sum_upto (S n) (fun k =>
                             sum_upto r (fun j => entry L i j * entry L k j)
                             * entry vecs k n))).
    2:{ intros i Hi. f_equal. apply real_sum_ext. intros k Hk.
        now rewrite (HMe i k Hi Hk). }
    rewrite (real_gram_form (S n) r (entry L) (fun i => entry vecs i n)).
    apply real_sum_nonneg. intros j _. nra. }
  exists top, ori. split; [|split; [exact Hpos|split; [|split]]].
  - rewrite E. cbn [np_sqrt].
    destruct (Rlt_dec top 0) as [Hneg|_]; [lra|reflexivity].
  - split; [now rewrite (real_rect_shape0 HM)|].
    rewrite (real_rect_shape0 HM). intros i Hi. unfold top.
    rewrite (Hori i Hi), <- (real_top_eigen_equation HM Hcontract Hi).
    apply real_sum_ext. intros k Hk. now rewrite (Hori k Hk).
  - unfold unit_norm. rewrite Hlen.
    rewrite <- (real_top_vector_unit HM Hcontract).
    apply real_sum_ext. intros k Hk. now rewrite (Hori k Hk).
  - intros mu x Hx Hne.
    apply (@real_top_is_largest n M vals vecs HM Hcontract mu x);
      [|exact Hx|exact Hne].
    intros i k Hi Hk. rewrite (HMe i k Hi Hk), (HMe k i Hk Hi).
    apply real_sum_ext. intros j _. ring.
Qed.

End RealFreeBlock.

Section RealExample.

Import OverReals.
Local Open Scope R_scope.

(** The block is the identity of three channels and the basis the
    vector [(1, 1, 0)]: the correlation returned is [sqrt 2], with the
    orientation [(1, 1, 0) / sqrt 2], which no rational array holds. *)
Lemma subcorr_is_root_of_largest_eigenvalue_witness :
  exists top ori,
    OverReals._compute_subcorr example_lib (identity 3) [[1]; [1]; [0]]
    = Ok (Fin (sqrt top), ori) /\
    0 <= top /\
    is_eigenpair (projected_gram (lib_qr example_lib (identity 3))
                                 [[1]; [1]; [0]]) top ori /\
    unit_norm ori /\
    forall mu x,
      is_eigenpair (projected_gram (lib_qr example_lib (identity 3))
                                   [[1]; [1]; [0]]) mu x ->
      (exists i, nth i x 0 <> 0) -> mu <= top.
Proof.
  apply (@subcorr_is_root_of_largest_eigenvalue example_lib 3 1 2).
  - lia.
  - lia.
  - split; [reflexivity|repeat constructor].
  - split; [reflexivity|repeat constructor].
  - split; [reflexivity|repeat constructor].
  - assert (Ha : / sqrt 2 * / sqrt 2 = / 2).
    { rewrite <- Rinv_mult. f_equal. apply sqrt_sqrt. lra. }
    unfold eigh_contract.
    split; [reflexivity|].
    split; [split; [reflexivity|repeat constructor]|].
    repeat split; intros i j Hi Hj; cbn in Hi, Hj;
      destruct i as [|[|[|i]]]; try lia;
      destruct j as [|[|[|j]]]; try lia;
      cbn; revert Ha; generalize (/ sqrt 2); intros a Ha; nra.
Defined.

End RealExample.
